(** * tg-calendar-agent: the session, registry and extraction core of
    [src/index.ts], embedded in Rocq.

    The embedding follows the first program of [src/index.ts] (lines 1-662),
    the one with the calendar enable/disable layer and the inline
    confirmation buttons.  The file also holds an earlier draft (from line
    662 on) without the enable/disable layer, in which [/confirm] commits
    at once; of that draft the commit path is modelled, for comparison.

    Modelling conventions.
    - A JavaScript string is a [string]: a sequence of code units, here the
      code units U+0000..U+00FF.
    - A JavaScript number is a [number]: [NaN] or an exact integer.  The
      numbers the handlers touch are chat ids, account ids, list lengths and
      parsed indices; on integers below 2^53 the source's doubles agree with
      exact arithmetic, and [-0] is identified with [0].  [toString] and
      [parseInt] are the language's on these safe integers; further out the
      language rounds to 53 significant bits and prints in exponent form
      from 1e21, which the model does not follow.
    - A [Map] or an object used as a map is a [gmap]; a [Set] is a [gset].
    - What [JSON.parse] makes of the model output is stored unchecked: it
      is an array, whose elements may be [null], or a plain object
      ([ParsedEvents]).  The fields of an element, and every other value,
      are taken at their declared TypeScript types.
    - A handler that ends by raising leaves the maps as they are at that
      point; the raise is recorded as the last effect of the run.
    - The outside world (text generation, [JSON.parse] of the model output,
      the calendar insert call, the clock) is a parameter of the handlers;
      the messages sent, the calendar inserts, the cache writes and the
      HTTP replies of a handler are recorded as [Effect]s.  Console logging
      is left out. *)

From Stdlib Require Import ZArith Ascii.
From stdpp Require Import base numbers list strings gmap pretty.

Local Open Scope Z_scope.

(** ** JavaScript strings *)

Module JsString.

Definition chr (n : nat) : string := String (ascii_of_nat n) "".

(** The double quote and the line feed, as one-character strings. *)
Definition DQ : string := chr 34.
Definition LF : string := chr 10.

Definition length (s : string) : Z := Z.of_nat (String.length s).

(** [s.indexOf(c)] for a one-character pattern: position of the first
    occurrence, [-1] when there is none. *)
Fixpoint indexOf_from (c : ascii) (s : string) (i : Z) : Z :=
  match s with
  | "" => -1
  | String a s' => if Ascii.eqb a c then i else indexOf_from c s' (i + 1)
  end.
Definition indexOf (s : string) (c : ascii) : Z := indexOf_from c s 0.

(** [s.lastIndexOf(c)]: position of the last occurrence, [-1] when there is
    none. *)
Fixpoint lastIndexOf_from (c : ascii) (s : string) (i found : Z) : Z :=
  match s with
  | "" => found
  | String a s' =>
      lastIndexOf_from c s' (i + 1) (if Ascii.eqb a c then i else found)
  end.
Definition lastIndexOf (s : string) (c : ascii) : Z :=
  lastIndexOf_from c s 0 (-1).

(** [s.substring(indexStart, indexEnd)]: both arguments are clamped to
    [0..length] and swapped when out of order. *)
Definition substring (s : string) (indexStart indexEnd : Z) : string :=
  let len := length s in
  let a := Z.min (Z.max indexStart 0) len in
  let b := Z.min (Z.max indexEnd 0) len in
  let from := Z.min a b in
  let to := Z.max a b in
  String.substring (Z.to_nat from) (Z.to_nat (to - from)) s.

(** [s.slice(n)] for [0 <= n]. *)
Fixpoint drop (n : nat) (s : string) : string :=
  match n, s with
  | O, _ => s
  | S n', String _ s' => drop n' s'
  | S _, "" => ""
  end.
Definition slice (s : string) (n : Z) : string := drop (Z.to_nat n) s.

Definition startsWith (s p : string) : bool := String.prefix p s.

(** White space and line terminators of ECMAScript among the code units
    U+0000..U+00FF: TAB, LF, VT, FF, CR, SP and NBSP. *)
Definition is_white (a : ascii) : bool :=
  let n := nat_of_ascii a in
  (Nat.eqb n 9 || Nat.eqb n 10 || Nat.eqb n 11 || Nat.eqb n 12
   || Nat.eqb n 13 || Nat.eqb n 32 || Nat.eqb n 160)%bool.

Fixpoint trimStart (s : string) : string :=
  match s with
  | "" => ""
  | String a s' => if is_white a then trimStart s' else s
  end.

(** Dropping trailing white space: a character is kept when it is not white
    or when something is kept after it. *)
Fixpoint trimEnd (s : string) : string :=
  match s with
  | "" => ""
  | String a s' =>
      match trimEnd s' with
      | "" => if is_white a then "" else String a ""
      | r => String a r
      end
  end.

Definition trim (s : string) : string := trimEnd (trimStart s).

(** [s.replace(pat, rep)] with a string pattern: the first occurrence only. *)
Fixpoint replace (s pat rep : string) : string :=
  if String.prefix pat s then rep +:+ drop (String.length pat) s
  else match s with
       | "" => ""
       | String a s' => String a (replace s' pat rep)
       end.

(** [s.split(' ')]: the pieces between single spaces, empty pieces kept. *)
Fixpoint split_go (cur : string) (s : string) : list string :=
  match s with
  | "" => [String.rev cur]
  | String a s' =>
      if Ascii.eqb a " "%char then String.rev cur :: split_go "" s'
      else split_go (String a cur) s'
  end.
Definition split_space (s : string) : list string := split_go "" s.

(** The occurrence predicate used by the specifications. *)
Fixpoint occurs (c : ascii) (s : string) : Prop :=
  match s with
  | "" => False
  | String a s' => a = c ∨ occurs c s'
  end.

(** Some opening character [o] of [s] has a closing character [c] to its
    right. *)
Definition has_pair (o c : ascii) (s : string) : Prop :=
  ∃ pre mid post, s = pre +:+ String o (mid +:+ String c post).

End JsString.

(** ** Proposal extraction: locating the JSON payload *)

Inductive ExtractionError :=
  | ExtractionExhausted
  | NoJSONFound
  | MalformedJSON.

Inductive result (A : Type) :=
  | Ok (a : A)
  | Throw (e : ExtractionError).
Arguments Ok {A} a.
Arguments Throw {A} e.

(** [extractJSON], src/index.ts:212-224. *)
Definition extractJSON (response : string) : result string :=
  let firstBracket := JsString.indexOf response "["%char in
  let lastBracket := JsString.lastIndexOf response "]"%char in
  if (negb (firstBracket =? -1) && negb (lastBracket =? -1)
      && (lastBracket >? firstBracket))%bool
  then Ok (JsString.substring response firstBracket (lastBracket + 1))
  else
    let firstBrace := JsString.indexOf response "{"%char in
    let lastBrace := JsString.lastIndexOf response "}"%char in
    if ((firstBrace =? -1) || (lastBrace =? -1)
        || (lastBrace <=? firstBrace))%bool
    then Throw NoJSONFound
    else Ok (JsString.substring response firstBrace (lastBrace + 1)).

(** ** JavaScript numbers *)

Inductive number :=
  | NaN
  | Num (z : Z).

Definition number_to_option (n : number) : option Z :=
  match n with NaN => None | Num z => Some z end.
Definition number_of_option (o : option Z) : number :=
  match o with None => NaN | Some z => Num z end.

Global Instance number_eq_dec : EqDecision number.
Proof. solve_decision. Defined.
Global Instance number_countable : Countable number :=
  inj_countable' number_to_option number_of_option
    (λ n, match n with NaN => eq_refl | Num _ => eq_refl end).

Definition isNaN (n : number) : bool :=
  match n with NaN => true | Num _ => false end.

(** [Number.MAX_SAFE_INTEGER] and [Number.isSafeInteger]: the integers on
    which the model's numbers, [toString] and [parseInt] are the
    language's. *)
Definition MAX_SAFE_INTEGER : Z := 2 ^ 53 - 1.
Definition isSafeInteger (n : number) : bool :=
  match n with
  | NaN => false
  | Num z => (- MAX_SAFE_INTEGER <=? z) && (z <=? MAX_SAFE_INTEGER)
  end.

(** [String(n)], the conversion behind template literals and property
    keys: decimal digits with a leading minus sign for negative integers.
    (For a safe integer; the language prints larger numbers with the
    shortest digits that read back, in exponent form from 1e21.) *)
Definition toString (n : number) : string :=
  match n with
  | NaN => "NaN"
  | Num z => pretty z
  end.

(** Value of a code unit as a digit, [0-9], [a-z] and [A-Z]. *)
Definition digit_value (a : ascii) : option Z :=
  let n := Z.of_nat (nat_of_ascii a) in
  if (48 <=? n) && (n <=? 57) then Some (n - 48)
  else if (97 <=? n) && (n <=? 122) then Some (n - 87)
  else if (65 <=? n) && (n <=? 90) then Some (n - 55)
  else None.

(** The longest prefix of [s] made of radix-[R] digits, as digit values. *)
Fixpoint digits_prefix (R : Z) (s : string) : list Z :=
  match s with
  | "" => []
  | String a s' =>
      match digit_value a with
      | Some d => if d <? R then d :: digits_prefix R s' else []
      | None => []
      end
  end.

Definition digits_value (R : Z) (ds : list Z) : Z :=
  fold_left (λ acc d, acc * R + d) ds 0.

(** [parseInt(s, radix)] after ECMAScript: leading white space is dropped,
    then an optional sign, then (radix 0 or 16) an optional [0x]/[0X];
    the digits that follow are read as far as they go and anything after
    them is ignored; no digit at all gives [NaN].  An absent radix is [0]. *)
Definition parse_magnitude (radix : Z) (S1 : string) : option Z :=
  let stripPrefix := (radix =? 0) || (radix =? 16) in
  let R0 := if radix =? 0 then 10 else radix in
  let hex := stripPrefix && (String.prefix "0x" S1 || String.prefix "0X" S1) in
  let R := if hex then 16 else R0 in
  let S2 := if hex then JsString.drop 2 S1 else S1 in
  match digits_prefix R S2 with
  | [] => None
  | ds => Some (digits_value R ds)
  end.

Definition parseInt (s : string) (radix : Z) : number :=
  let S0 := JsString.trimStart s in
  let sign := match S0 with String "-"%char _ => -1 | _ => 1 end in
  let S1 := match S0 with
            | String "+"%char r | String "-"%char r => r
            | _ => S0
            end in
  if negb (radix =? 0) && ((radix <? 2) || (36 <? radix)) then NaN
  else
    match parse_magnitude radix S1 with
    | None => NaN
    | Some mathInt => Num (sign * mathInt)
    end.

(** [rest] begins with the letter that marks a hexadecimal literal. *)
Definition starts_x (rest : string) : bool :=
  String.prefix "x" rest || String.prefix "X" rest.

(** ** Data model, src/index.ts:29-65 *)

Record CalendarEvent := {
  title : string;
  start_time : string;
  end_time : string;
  description : string;
  ev_accountId : option Z;      (* accountId; [None] when the field is absent *)
  calendar : option string;     (* optional calendar id *)
}.

(** What [JSON.parse] makes of an extracted payload, which the handlers
    store as [events] without looking at it.  The payload opens with a
    bracket or with a brace (see [extractJSON]), so the value is an array or
    a plain object.  An element of the array is [null], here [None], or a
    value that is read through its fields. *)
Inductive ParsedEvents :=
  | EventArray (items : list (option CalendarEvent))
  | PlainObject.

Record PendingEvents := {
  events : ParsedEvents;
  originalText : string;
  previousJSONProposal : option string;
  editHistory : option string;
}.

(** Token material of an account, opaque to this program. *)
Definition Credentials : Type := string.

(** The OAuth client of an account: its credentials. *)
Record OAuth2Client := { credentials : Credentials }.

Record CalendarEntry := { cal_id : string; summary : string }.

Record OAuthAccount := {
  accountId : Z;
  email : option string;
  oauth2Client : OAuth2Client;
  calendars : list CalendarEntry;
}.

Record PendingOAuth := {
  po_chatId : Z;
  po_oauth2Client : OAuth2Client;
}.

(** The four global maps of the process. *)
Record State := {
  pendingEvents : gmap Z PendingEvents;
  oauthAccounts : gmap number (list OAuthAccount);
  pendingOAuth : gmap string PendingOAuth;
  disabledCalendars : gmap number (gmap number (gset string));
}.

Definition empty_state : State :=
  {| pendingEvents := ∅; oauthAccounts := ∅;
     pendingOAuth := ∅; disabledCalendars := ∅ |}.

Definition set_pendingEvents (st : State) (m : gmap Z PendingEvents) : State :=
  {| pendingEvents := m; oauthAccounts := oauthAccounts st;
     pendingOAuth := pendingOAuth st;
     disabledCalendars := disabledCalendars st |}.
Definition set_oauthAccounts (st : State)
    (m : gmap number (list OAuthAccount)) : State :=
  {| pendingEvents := pendingEvents st; oauthAccounts := m;
     pendingOAuth := pendingOAuth st;
     disabledCalendars := disabledCalendars st |}.
Definition set_pendingOAuth (st : State) (m : gmap string PendingOAuth) : State :=
  {| pendingEvents := pendingEvents st; oauthAccounts := oauthAccounts st;
     pendingOAuth := m; disabledCalendars := disabledCalendars st |}.
Definition set_disabledCalendars (st : State)
    (m : gmap number (gmap number (gset string))) : State :=
  {| pendingEvents := pendingEvents st; oauthAccounts := oauthAccounts st;
     pendingOAuth := pendingOAuth st; disabledCalendars := m |}.

(** ** Calendar identity resolver, src/index.ts:130-158 *)

Record Resolved := {
  success : bool;
  realCalendarId : string;
  errorMsg : option string;
}.

(** What a call does: it returns, or it raises a [TypeError] (reading a
    property of [undefined]). *)
Inductive completion (A : Type) :=
  | Return (a : A)
  | TypeError.
Arguments Return {A} a.
Arguments TypeError {A}.

(** [accounts.find(acc => acc.accountId === accountId)] *)
Definition find_account (accounts : list OAuthAccount) (id : Z)
    : option OAuthAccount :=
  List.find (λ acc, accountId acc =? id) accounts.

(** [arr[i]] for a number [i]: [undefined] outside [0 .. length-1]. *)
Definition array_get {A} (arr : list A) (i : Z) : option A :=
  if i <? 0 then None else arr !! Z.to_nat i.

Definition resolveCalendarId (st : State) (chatId accountId : Z)
    (calendarIdentifier : string) (isStrict : bool)
    : completion Resolved :=
  match oauthAccounts st !! Num chatId with
  | None =>
      if isStrict then
        Return {| success := false; realCalendarId := "";
                  errorMsg := Some "No authenticated accounts found." |}
      else
        Return {| success := true; realCalendarId := calendarIdentifier;
                  errorMsg := None |}
  | Some accounts =>
      match find_account accounts accountId with
      | None =>
          if isStrict then
            Return {| success := false; realCalendarId := "";
                      errorMsg := Some ("Account " +:+ toString (Num accountId)
                                        +:+ " not found.") |}
          else
            Return {| success := true; realCalendarId := calendarIdentifier;
                      errorMsg := None |}
      | Some account =>
          let len := Z.of_nat (List.length (calendars account)) in
          match parseInt calendarIdentifier 0 with
          | NaN =>
              Return {| success := true; realCalendarId := calendarIdentifier;
                        errorMsg := None |}
          | Num calendarIndex =>
              if isStrict && ((calendarIndex <? 1) || (len <? calendarIndex))
              then
                Return {| success := false; realCalendarId := "";
                          errorMsg :=
                            Some ("Invalid calendar index. Please provide a number between 1 and "
                                  +:+ toString (Num len) +:+ ".") |}
              else if negb isStrict
                      || ((1 <=? calendarIndex) && (calendarIndex <=? len))
              then
                match array_get (calendars account) (calendarIndex - 1) with
                | Some cal =>
                    Return {| success := true; realCalendarId := cal_id cal;
                              errorMsg := None |}
                | None => TypeError
                end
              else
                Return {| success := true; realCalendarId := calendarIdentifier;
                          errorMsg := None |}
          end
      end
  end.

(** The three failures of strict resolution and the one success, by the
    names the specification gives them; each failure is the message the
    source returns for it. *)
Inductive ResolveError :=
  | NoAccounts
  | UnknownAccount (accountId : Z)
  | InvalidIndex (len : Z).

Definition error_message (e : ResolveError) : string :=
  match e with
  | NoAccounts => "No authenticated accounts found."
  | UnknownAccount accountId =>
      "Account " +:+ toString (Num accountId) +:+ " not found."
  | InvalidIndex len =>
      "Invalid calendar index. Please provide a number between 1 and "
      +:+ toString (Num len) +:+ "."
  end.

Definition failed (e : ResolveError) : Resolved :=
  {| success := false; realCalendarId := "";
     errorMsg := Some (error_message e) |}.

Definition resolved (calendarId : string) : Resolved :=
  {| success := true; realCalendarId := calendarId; errorMsg := None |}.

(** ** Persisted record, src/index.ts:71-93 *)

(** The JSON value written to [authCache.json].  An object is the list of
    its properties in enumeration order; [None] stands for a property that
    is absent (or, for the array of a disabled set, a value that is not an
    array). *)
Record AccountData := {
  ad_accountId : Z;
  ad_email : option string;
  ad_calendars : list CalendarEntry;
  ad_tokens : Credentials;
}.

Record ChatData := {
  cd_accounts : option (list AccountData);
  cd_disabledCalendars : option (list (string * option (list string)));
}.

Definition CacheData : Type := list (string * ChatData).

Definition account_data (account : OAuthAccount) : AccountData :=
  {| ad_accountId := accountId account;
     ad_email := email account;
     ad_calendars := calendars account;
     ad_tokens := credentials (oauth2Client account) |}.

(** [Object.entries(obj).map(([acctId, set]) => [acctId, Array.from(set)])] *)
Definition disabled_section (d : gmap number (gset string))
    : list (string * option (list string)) :=
  (λ e, (toString e.1, Some (elements e.2))) <$> map_to_list d.

Definition saveAuthCache (st : State) : CacheData :=
  (λ e,
     (toString e.1,
      {| cd_accounts := Some (account_data <$> e.2);
         cd_disabledCalendars :=
           Some (match disabledCalendars st !! e.1 with
                 | Some d => disabled_section d
                 | None => []
                 end) |}))
  <$> map_to_list (oauthAccounts st).

(** [loadAuthCache], src/index.ts:95-126, run on the parsed record; the
    argument is [None] when the file is missing or unreadable. *)
Definition load_account (accountData : AccountData) : OAuthAccount :=
  {| accountId := ad_accountId accountData;
     email := ad_email accountData;
     oauth2Client := {| credentials := ad_tokens accountData |};
     calendars := ad_calendars accountData |}.

Definition load_disabled (section : option (list (string * option (list string))))
    : gmap number (gset string) :=
  match section with
  | None => ∅
  | Some props =>
      fold_left
        (λ disabledForChat p,
           <[parseInt p.1 0 :=
               match p.2 with
               | Some arr => list_to_set arr
               | None => ∅
               end]> disabledForChat)
        props ∅
  end.

Definition load_chat (st : State) (p : string * ChatData) : State :=
  let chatId := parseInt p.1 10 in
  let accountsList := default [] (cd_accounts p.2) in
  {| pendingEvents := pendingEvents st;
     oauthAccounts := <[chatId := load_account <$> accountsList]> (oauthAccounts st);
     pendingOAuth := pendingOAuth st;
     disabledCalendars :=
       <[chatId := load_disabled (cd_disabledCalendars p.2)]>
         (disabledCalendars st) |}.

Definition loadAuthCache (st : State) (file : option CacheData) : State :=
  match file with
  | None => st
  | Some data => fold_left load_chat data st
  end.

(** What one property of the record, and one property of a disabled-set
    section, contribute to the maps. *)
Definition entry_accounts (p : string * ChatData) : number * list OAuthAccount :=
  (parseInt p.1 10, load_account <$> default [] (cd_accounts p.2)).

Definition entry_disabled (p : string * ChatData)
    : number * gmap number (gset string) :=
  (parseInt p.1 10, load_disabled (cd_disabledCalendars p.2)).

Definition section_entry (p : string * option (list string))
    : number * gset string :=
  (parseInt p.1 0,
   match p.2 with Some arr => list_to_set arr | None => ∅ end).

(** Two records are the same JSON value when they differ only in the order
    in which the properties of an object, or the members of a disabled
    set's array, are enumerated. *)
Definition same_props {V} (R : V → V → Prop) (l l' : list (string * V)) : Prop :=
  ∃ mid, l ≡ₚ mid ∧ Forall2 (λ e e', e.1 = e'.1 ∧ R e.2 e'.2) mid l'.

Definition same_array (a a' : option (list string)) : Prop :=
  option_Forall2 (≡ₚ) a a'.

Definition same_section (d d' : list (string * option (list string))) : Prop :=
  same_props same_array d d'.

Definition same_chat (c c' : ChatData) : Prop :=
  cd_accounts c = cd_accounts c'
  ∧ option_Forall2 same_section (cd_disabledCalendars c) (cd_disabledCalendars c').

Definition same_record (data data' : CacheData) : Prop :=
  same_props same_chat data data'.

(** ** The outside world and the observable actions *)

Record EventBody := {
  eb_summary : string;
  eb_description : string;
  start_dateTime : option string;
  end_dateTime : option string;
}.

Record Env := {
  DEFAULT_TIMEZONE : string;
  (** [moment().format('YYYY-MM-DD')] and [moment().format('dddd')] *)
  currentDate : string;
  currentDay : string;
  Date_now : Z;
  (** [groq.chat.completions.create] for a model and a prompt: the content
      of the first choice ([""] when there is none), [None] when the call
      throws *)
  chat_completion : string → string → option string;
  (** [JSON.parse] of the extracted text, [None] when it throws *)
  JSON_parse : string → option ParsedEvents;
  (** [moment.tz(t, zone).toISOString()], [None] for an invalid date *)
  toISOString : string → string → option string;
  (** [calendarApi.events.insert]: [false] when the call throws *)
  events_insert : OAuth2Client → string → EventBody → bool;
  generateAuthUrl : string → string;
}.

Inductive Keyboard :=
  | NoKeyboard
  | ConfirmEditKeyboard.

Inductive HttpBody :=
  | InvalidStateParameter
  | OAuthClientNotFound
  | SuccessHtml
  | ErrorHtml.

(** What a handler run does to the outside: the calls it makes, in order,
    and, last, [unhandledRejection] when the handler, an [async] function
    whose promise nobody awaits, ends by raising. *)
Inductive Effect :=
  | sendMessage (chatId : number) (text : string) (kb : Keyboard)
  | eventsInsert (client : OAuth2Client) (calendarId : string) (body : EventBody)
  | writeAuthCache (data : CacheData)
  | answerCallbackQuery (id : string)
  | resSend (body : HttpBody)
  | unhandledRejection.

(** [for (const eventData of events) { await body(eventData); }], for a
    body that reads a property of [eventData] before it does anything else
    (as [addEventToCalendar] does, src/index.ts:306): the effects made, and
    [true] when the loop ran to its end.  The body raises on a [null]
    element, which ends the loop. *)
Fixpoint for_each (body : CalendarEvent → list Effect)
    (items : list (option CalendarEvent)) : list Effect * bool :=
  match items with
  | [] => ([], true)
  | None :: _ => ([], false)
  | Some eventData :: rest =>
      let r := for_each body rest in
      (body eventData ++ r.1, r.2)
  end.

(** A plain object is not iterable: [for..of] raises at once. *)
Definition for_of (body : CalendarEvent → list Effect)
    (events : ParsedEvents) : list Effect * bool :=
  match events with
  | EventArray items => for_each body items
  | PlainObject => ([], false)
  end.

(** JavaScript truthiness of an optional string and of an optional number. *)
Definition truthy_string (o : option string) : bool :=
  match o with Some (String _ _) => true | _ => false end.
Definition truthy_number (o : option Z) : bool :=
  match o with Some z => negb (z =? 0) | None => false end.

(** [x || d] on an optional string. *)
Definition or_string (o : option string) (d : string) : string :=
  match o with Some (String a r) => String a r | _ => d end.

(** ** Rendering, src/index.ts:160-201 *)

Definition is_disabled (st : State) (chatId accountId : Z) (calId : string) : bool :=
  match disabledCalendars st !! Num chatId with
  | Some userDisabled =>
      match userDisabled !! Num accountId with
      | Some set => bool_decide (calId ∈ set)
      | None => false
      end
  | None => false
  end.

Definition calendar_line (st : State) (chatId : Z) (account : OAuthAccount)
    (showDisabled enabledOnly : bool) (index : nat) (cal : CalendarEntry) : string :=
  let disabled := is_disabled st chatId (accountId account) (cal_id cal) in
  if enabledOnly && disabled then ""
  else
    let line := "- " +:+ toString (Num (Z.of_nat index + 1)) +:+ ". "
                +:+ summary cal +:+ " (ID: " +:+ cal_id cal +:+ ")" in
    (if showDisabled && disabled then line +:+ " (Disabled)" else line)
    +:+ JsString.LF.

Definition account_block (st : State) (chatId : Z)
    (showDisabled enabledOnly : bool) (account : OAuthAccount) : string :=
  let accountLabel :=
    if truthy_string (email account)
    then "Account " +:+ toString (Num (accountId account)) +:+ " ("
         +:+ or_string (email account) "" +:+ ")"
    else "Account " +:+ toString (Num (accountId account)) in
  accountLabel +:+ ":" +:+ JsString.LF +:+
  match calendars account with
  | [] => "- No calendars found." +:+ JsString.LF
  | cals =>
      String.concat ""
        (imap (calendar_line st chatId account showDisabled enabledOnly) cals)
  end.

Definition buildAccountsAndCalendarsMessage (st : State)
    (accounts : list OAuthAccount) (chatId : Z)
    (showDisabled enabledOnly : bool) : string :=
  match accounts with
  | [] => "No accounts connected." +:+ JsString.LF
  | _ => String.concat ""
           (account_block st chatId showDisabled enabledOnly <$> accounts)
  end.

Definition show_accountId (o : option Z) : string :=
  match o with Some z => toString (Num z) | None => "undefined" end.

Definition event_block (index : nat) (evt : CalendarEvent) : string :=
  JsString.LF +:+ JsString.LF +:+ "Event "
  +:+ toString (Num (Z.of_nat index + 1)) +:+ ":"
  +:+ JsString.LF +:+ "Title: " +:+ title evt
  +:+ JsString.LF +:+ "Start: " +:+ start_time evt
  +:+ JsString.LF +:+ "End: " +:+ end_time evt
  +:+ JsString.LF +:+ "Description: " +:+ description evt
  +:+ JsString.LF +:+ "Account: " +:+ show_accountId (ev_accountId evt)
  +:+ JsString.LF +:+ "Calendar: " +:+ or_string (calendar evt) "primary".

(** [events.forEach((evt, index) => { reply += ... })]: the blocks of the
    elements from position [index] on.  Reading [evt.title] of a [null]
    element raises. *)
Fixpoint event_blocks (index : nat) (items : list (option CalendarEvent))
    : completion string :=
  match items with
  | [] => Return ""
  | None :: _ => TypeError
  | Some evt :: rest =>
      match event_blocks (S index) rest with
      | Return blocks => Return (event_block index evt +:+ blocks)
      | TypeError => TypeError
      end
  end.

(** A plain object has no [forEach]: the call raises. *)
Definition formatEventsReply (events : ParsedEvents)
    (confirmMessage : string) : completion string :=
  match events with
  | PlainObject => TypeError
  | EventArray items =>
      match event_blocks 0 items with
      | Return blocks =>
          Return ("Proposed events:" +:+ blocks
                  +:+ JsString.LF +:+ JsString.LF +:+ confirmMessage)
      | TypeError => TypeError
      end
  end.

(** ** Proposal extraction engine, src/index.ts:226-294 *)

Definition modelPriorityOrder : list string :=
  [ "deepseek-r1-distill-llama-70b-specdec";
    "deepseek-r1-distill-llama-70b";
    "deepseek-r1-distill-qwen-32b";
    "qwen-2.5-32b";
    "llama-3.3-70b-versatile" ].

Definition unlines (ls : list string) : string :=
  String.concat "" ((λ l, l +:+ JsString.LF) <$> ls).

Section Handlers.

Variable env : Env.

(** The prompt of one extraction; [previousProposalText] is the only part
    that comes from the session. *)
Definition build_prompt (accountInfo previousProposalText userText : string)
    : string :=
  let q := JsString.DQ in
  unlines
    [ "";
      "You are an assistant that extracts calendar event details from natural language.";
      "Current Date: " +:+ currentDate env +:+ " (" +:+ currentDay env +:+ ")";
      "Available accounts and calendars:";
      accountInfo;
      "Extract an array of JSON objects, where each object has the following fields:";
      "{";
      "  " +:+ q +:+ "title" +:+ q +:+ ": string,";
      "  " +:+ q +:+ "start_time" +:+ q +:+ ": string (ISO format),";
      "  " +:+ q +:+ "end_time" +:+ q +:+ ": string (ISO format),";
      "  " +:+ q +:+ "description" +:+ q +:+ ": string,";
      "  " +:+ q +:+ "accountId" +:+ q +:+ ": number,";
      "  " +:+ q +:+ "calendar" +:+ q
        +:+ ": string    // if it cannot be inferred from the user query, default to "
        +:+ q +:+ "primary" +:+ q +:+ ", other than " +:+ q +:+ "primary" +:+ q
        +:+ " you are are ONLY allowed to choose calendar ID values listed under Available accounts and calendars";
      "}";
      "If the time zone is not specified, assume the default timezone: "
        +:+ DEFAULT_TIMEZONE env +:+ ".";
      "";
      "When a user proposes relative dates (e.g. next week on Wednesday), make sure your date math is correct (if today is Tuesday 18th, then next week on Wednesday is the 26th, 7 days would be Tuesday 25th + 1 for Wednesday 26th).";
      "";
      "If the user indicates time zone (can be an informal remark like 'in NYC time') then use the ISO notation where the times the user specifies are used directly (e.g. 2pm) in the ISO format, and the ISO timezone suffix aligns with what the user specifies. E.g. if they say "
        +:+ q +:+ "NYC time" +:+ q
        +:+ " then the ISO timezone suffix is '-5:00' (depending on whether date/Daylight Savings Time is in effect). In that case, the default timezone is not used.";
      "";
      previousProposalText +:+ "Description: " +:+ userText ].

(** The model loop: the first model, in priority order, whose call returns
    a non-empty content. *)
Fixpoint first_response (models : list string) (prompt : string)
    : option string :=
  match models with
  | [] => None
  | model :: rest =>
      match chat_completion env model prompt with
      | Some (String a r) => Some (String a r)
      | _ => first_response rest prompt
      end
  end.

Definition previous_proposal_text (pending : option PendingEvents) : string :=
  match pending with
  | Some p =>
      if truthy_string (previousJSONProposal p)
      then "Previous JSON proposal: "
           +:+ or_string (previousJSONProposal p) "" +:+ JsString.LF
      else ""
  | None => ""
  end.

(** The [try] block of [parseEventDescription]: the model loop, the JSON
    scan and [JSON.parse]. *)
Definition generate_and_parse (prompt : string)
    : result (ParsedEvents * string) :=
  match first_response modelPriorityOrder prompt with
  | None => Throw ExtractionExhausted
  | Some rawResponse =>
      match extractJSON rawResponse with
      | Throw e => Throw e
      | Ok jsonString =>
          match JSON_parse env jsonString with
          | None => Throw MalformedJSON
          | Some events => Ok (events, jsonString)
          end
      end
  end.

Definition parseEventDescription (st : State) (userText : string) (chatId : Z)
    : result (ParsedEvents * string) :=
  let accounts := default [] (oauthAccounts st !! Num chatId) in
  let accountInfo :=
    buildAccountsAndCalendarsMessage st accounts chatId false true in
  let pending := pendingEvents st !! chatId in
  let prompt :=
    build_prompt accountInfo (previous_proposal_text pending) userText in
  generate_and_parse prompt.

(** ** Commit executor, src/index.ts:296-344.  It reads the registry and
    never writes it, so it yields effects only. *)
Definition target_account (st : State) (chatId : Z) (eventData : CalendarEvent)
    : option OAuthAccount :=
  let accounts := oauthAccounts st !! Num chatId in
  let oauthAccount :=
    if truthy_number (ev_accountId eventData)
    then accounts ≫= λ accs,
           find_account accs (default 0 (ev_accountId eventData))
    else None in
  match oauthAccount with
  | Some acc => Some acc
  | None =>
      match accounts with
      | Some (first :: _) => Some first
      | _ => None
      end
  end.

Definition event_body (eventData : CalendarEvent) : EventBody :=
  {| eb_summary := title eventData;
     eb_description := description eventData;
     start_dateTime :=
       toISOString env (start_time eventData) (DEFAULT_TIMEZONE env);
     end_dateTime :=
       toISOString env (end_time eventData) (DEFAULT_TIMEZONE env) |}.

Definition addEventToCalendar (st : State) (chatId : Z)
    (eventData : CalendarEvent) : list Effect :=
  match target_account st chatId eventData with
  | None =>
      [sendMessage (Num chatId)
         "No authenticated Google account found. Use /auth to authenticate."
         NoKeyboard]
  | Some oauthAccount =>
      let calendarIdToUse := or_string (calendar eventData) "primary" in
      if is_disabled st chatId (accountId oauthAccount) calendarIdToUse then
        [sendMessage (Num chatId)
           ("Calendar " +:+ calendarIdToUse +:+ " for Account "
            +:+ toString (Num (accountId oauthAccount))
            +:+ " is currently disabled. Skipping event: " +:+ title eventData)
           NoKeyboard]
      else
        let event := event_body eventData in
        eventsInsert (oauth2Client oauthAccount) calendarIdToUse event ::
        (if events_insert env (oauth2Client oauthAccount) calendarIdToUse event
         then
           [sendMessage (Num chatId)
              ("Event added to calendar (" +:+ calendarIdToUse
               +:+ ") for Account " +:+ toString (Num (accountId oauthAccount))
               +:+ ": " +:+ title eventData)
              NoKeyboard]
         else
           [sendMessage (Num chatId)
              "There was an error adding the event. Please try again."
              NoKeyboard])
  end.

(** The executor on a list of candidates, one after the other. *)
Definition add_all (st : State) (chatId : Z) (evs : list CalendarEvent)
    : list Effect :=
  concat (addEventToCalendar st chatId <$> evs).

(** ** The message handler, src/index.ts:347-547 *)

Definition say (chatId : Z) (text : string) : Effect :=
  sendMessage (Num chatId) text NoKeyboard.

(** [args.split(' ').filter(x => x.trim().length > 0)] *)
Definition command_parts (args : string) : list string :=
  List.filter (λ x, negb (String.eqb (JsString.trim x) ""))
    (JsString.split_space args).

(** [userDisabled[accountId].add(realCalendarId)], creating the set when it
    is missing. *)
Definition disable_in (userDisabled : gmap number (gset string))
    (accountId : Z) (realCalendarId : string) : gmap number (gset string) :=
  <[Num accountId :=
      {[realCalendarId]} ∪ default ∅ (userDisabled !! Num accountId)]>
    userDisabled.

(** [/disable <account_id> <calendar_id>], src/index.ts:353-384 *)
Definition on_disable (st : State) (chatId : Z) (text : string)
    : completion (State * list Effect) :=
  let usage :=
    "Invalid format. Please use: /disable <account_id> <calendar_id>" in
  let args := JsString.trim (JsString.slice text 8) in
  if JsString.length args =? 0 then Return (st, [say chatId usage])
  else
    match command_parts args with
    | part0 :: part1 :: _ =>
        match parseInt part0 0 with
        | NaN => Return (st, [say chatId "Invalid account id provided."])
        | Num accountId =>
            match resolveCalendarId st chatId accountId part1 true with
            | TypeError => TypeError
            | Return result =>
                if negb (success result) then
                  Return (st, [say chatId (or_string (errorMsg result)
                                             "Error resolving calendar id")])
                else
                  let realCalendarId := realCalendarId result in
                  let userDisabled :=
                    default ∅ (disabledCalendars st !! Num chatId) in
                  let st' :=
                    set_disabledCalendars st
                      (<[Num chatId :=
                           disable_in userDisabled accountId realCalendarId]>
                         (disabledCalendars st)) in
                  Return (st',
                          [say chatId ("Calendar " +:+ realCalendarId
                                       +:+ " for account "
                                       +:+ toString (Num accountId)
                                       +:+ " has been disabled.");
                           writeAuthCache (saveAuthCache st')])
            end
        end
    | _ => Return (st, [say chatId usage])
    end.

(** [/enable <account_id> <calendar_id>], src/index.ts:387-419 *)
Definition on_enable (st : State) (chatId : Z) (text : string)
    : completion (State * list Effect) :=
  let usage :=
    "Invalid format. Please use: /enable <account_id> <calendar_id>" in
  let args := JsString.trim (JsString.slice text 7) in
  if JsString.length args =? 0 then Return (st, [say chatId usage])
  else
    match command_parts args with
    | part0 :: part1 :: _ =>
        match parseInt part0 0 with
        | NaN => Return (st, [say chatId "Invalid account id provided."])
        | Num accountId =>
            match resolveCalendarId st chatId accountId part1 true with
            | TypeError => TypeError
            | Return result =>
                if negb (success result) then
                  Return (st, [say chatId (or_string (errorMsg result)
                                             "Error resolving calendar id")])
                else
                  let realCalendarId := realCalendarId result in
                  let userDisabled :=
                    default ∅ (disabledCalendars st !! Num chatId) in
                  let was_disabled :=
                    match userDisabled !! Num accountId with
                    | Some set => bool_decide (realCalendarId ∈ set)
                    | None => false
                    end in
                  let userDisabled' :=
                    if was_disabled
                    then <[Num accountId :=
                             default ∅ (userDisabled !! Num accountId)
                             ∖ {[realCalendarId]}]> userDisabled
                    else userDisabled in
                  let st' :=
                    set_disabledCalendars st
                      (<[Num chatId := userDisabled']> (disabledCalendars st)) in
                  Return (st',
                          [say chatId ("Calendar " +:+ realCalendarId
                                       +:+ " for account "
                                       +:+ toString (Num accountId)
                                       +:+ (if was_disabled
                                            then " has been enabled."
                                            else " is not disabled."));
                           writeAuthCache (saveAuthCache st')])
            end
        end
    | _ => Return (st, [say chatId usage])
    end.

Definition start_text : string :=
  "Welcome! Send me a description of your calendar event and I'll help add it to your Google Calendar."
  +:+ JsString.LF +:+ JsString.LF +:+ "Commands:" +:+ JsString.LF
  +:+ "/auth - Authenticate with Google Calendar" +:+ JsString.LF
  +:+ "/confirm - Confirm adding the proposed event(s)" +:+ JsString.LF
  +:+ "/edit <new description> - Edit the proposed event(s)".

(** [/auth], src/index.ts:428-452 *)
Definition on_auth (st : State) (chatId : Z) : State * list Effect :=
  let oauth2Client := {| credentials := "" |} in
  let uniqueId := toString (Num (Date_now env)) in
  let state := toString (Num chatId) +:+ ":" +:+ uniqueId in
  let authUrl := generateAuthUrl env state in
  (set_pendingOAuth st
     (<[state := {| po_chatId := chatId; po_oauth2Client := oauth2Client |}]>
        (pendingOAuth st)),
   [say chatId
      ("Please authenticate with Google Calendar by visiting this URL: "
       +:+ authUrl)]).

(** [/confirm], src/index.ts:455-463: the command only asks for the
    confirmation button to be pressed. *)
Definition on_confirm (st : State) (chatId : Z) : State * list Effect :=
  match pendingEvents st !! chatId with
  | None =>
      (st, [say chatId "No pending events. Send an event description first."])
  | Some _ =>
      (st, [sendMessage (Num chatId) "Please confirm your events:"
              ConfirmEditKeyboard])
  end.

(** [/edit <delta>], src/index.ts:466-500.  The session is set before the
    reply is formatted; when [formatEventsReply] raises, the [catch] of the
    handler sends the error notice and the session stays set. *)
Definition latest_edit (text : string) : string :=
  JsString.trim (JsString.replace text "/edit" "").

Definition combined_description (pending : PendingEvents)
    (latestEdit : string) : string :=
  let previousEdits := or_string (editHistory pending) "" in
  "Original description: " +:+ originalText pending +:+ JsString.LF
  +:+ "User requested changes:" +:+ JsString.LF
  +:+ "Latest edit: " +:+ latestEdit +:+ JsString.LF
  +:+ (if String.eqb previousEdits "" then ""
       else "Previously requested changes: " +:+ previousEdits
            +:+ JsString.LF).

Definition edited_session (pending : PendingEvents) (latestEdit : string)
    (events : ParsedEvents) (jsonProposal : string) : PendingEvents :=
  let previousEdits := or_string (editHistory pending) "" in
  let newEditHistory :=
    if String.eqb previousEdits "" then latestEdit
    else previousEdits +:+ JsString.LF +:+ latestEdit in
  let newPreviousJSONProposal :=
    if truthy_string (previousJSONProposal pending)
    then or_string (previousJSONProposal pending) ""
         +:+ JsString.LF +:+ jsonProposal
    else jsonProposal in
  {| events := events;
     originalText := originalText pending;
     previousJSONProposal := Some newPreviousJSONProposal;
     editHistory := Some newEditHistory |}.

Definition on_edit (st : State) (chatId : Z) (text : string)
    : State * list Effect :=
  let latestEdit := latest_edit text in
  if String.eqb latestEdit "" then
    (st, [say chatId
            "Please provide the update changes after the /edit command."])
  else
    match pendingEvents st !! chatId with
    | None =>
        (st, [say chatId
                "No pending events available to edit. Please provide an event description first."])
    | Some pending =>
        match parseEventDescription st
                (combined_description pending latestEdit) chatId with
        | Ok (events, jsonProposal) =>
            (set_pendingEvents st
               (<[chatId := edited_session pending latestEdit events jsonProposal]>
                  (pendingEvents st)),
             [match formatEventsReply events
                      "If these look good, type /confirm to add the events."
              with
              | Return reply =>
                  sendMessage (Num chatId) reply ConfirmEditKeyboard
              | TypeError =>
                  say chatId
                    "Error parsing updated event description. Please try again."
              end])
        | Throw _ =>
            (st, [say chatId
                    "Error parsing updated event description. Please try again."])
        end
    end.

(** [/clear], src/index.ts:503-509 *)
Definition on_clear (st : State) (chatId : Z) : State * list Effect :=
  let st' :=
    {| pendingEvents := pendingEvents st;
       oauthAccounts := delete (Num chatId) (oauthAccounts st);
       pendingOAuth := pendingOAuth st;
       disabledCalendars := delete (Num chatId) (disabledCalendars st) |} in
  (st', [writeAuthCache (saveAuthCache st');
         say chatId
           "All authenticated accounts have been cleared. Use /auth to authenticate again."]).

(** [/calendars], src/index.ts:511-528 *)
Definition on_calendars (st : State) (chatId : Z) (text : string)
    : State * list Effect :=
  match oauthAccounts st !! Num chatId with
  | None | Some [] =>
      (st, [say chatId
              "No authenticated calendars found. Please use /auth to connect your Google Calendar."])
  | Some accounts =>
      let args := JsString.trim (JsString.slice text 10) in
      if String.eqb args "enabled" then
        (st, [say chatId
                ("Enabled Calendars:" +:+ JsString.LF +:+
                 buildAccountsAndCalendarsMessage st accounts chatId true true)])
      else
        (st, [say chatId
                ("Authenticated Calendars and Accounts:" +:+ JsString.LF +:+
                 buildAccountsAndCalendarsMessage st accounts chatId true false)])
  end.

(** A new event description, src/index.ts:536-546.  As for [/edit], the
    session is set before the reply is formatted. *)
Definition fresh_session (text : string) (events : ParsedEvents)
    (jsonProposal : string) : PendingEvents :=
  {| events := events;
     originalText := text;
     previousJSONProposal := Some jsonProposal;
     editHistory := Some "" |}.

Definition on_description (st : State) (chatId : Z) (text : string)
    : State * list Effect :=
  let st1 := set_pendingEvents st (delete chatId (pendingEvents st)) in
  match parseEventDescription st1 text chatId with
  | Ok (events, jsonProposal) =>
      (set_pendingEvents st1
         (<[chatId := fresh_session text events jsonProposal]>
            (pendingEvents st1)),
       [match formatEventsReply events
                "If these look good, type /confirm to add the events, or /edit to modify."
        with
        | Return reply => sendMessage (Num chatId) reply ConfirmEditKeyboard
        | TypeError =>
            say chatId
              "Error parsing event description. Please ensure your description is clear and try again."
        end])
  | Throw _ =>
      (st1, [say chatId
               "Error parsing event description. Please ensure your description is clear and try again."])
  end.

(** [bot.on('message', ...)]: the commands are tried in the order of the
    source; [text] is [""] for a message without text. *)
Definition on_message (st : State) (chatId : Z) (text : string)
    : completion (State * list Effect) :=
  if String.eqb text "" then Return (st, [])
  else if JsString.startsWith text "/disable" then on_disable st chatId text
  else if JsString.startsWith text "/enable" then on_enable st chatId text
  else if JsString.startsWith text "/start" then
    Return (st, [say chatId start_text])
  else if JsString.startsWith text "/auth" then Return (on_auth st chatId)
  else if JsString.startsWith text "/confirm" then Return (on_confirm st chatId)
  else if JsString.startsWith text "/edit" then Return (on_edit st chatId text)
  else if JsString.startsWith text "/clear" then Return (on_clear st chatId)
  else if JsString.startsWith text "/calendars" then
    Return (on_calendars st chatId text)
  else if JsString.startsWith text "/" then
    Return (st, [say chatId
                   "Unrecognized command. Please send an event description or use a valid command."])
  else Return (on_description st chatId text).

(** ** The inline-button handler, src/index.ts:550-570.  [data] is the
    button's action, [message] the chat of the message the button sits on.
    When the loop of the Confirm action raises, the handler ends there: the
    session is not deleted, no closing message is sent and the query is not
    answered. *)
Definition on_callback_query (st : State) (id : string) (data : option string)
    (message : option Z) : State * list Effect :=
  match message with
  | None => (st, [])
  | Some chatId =>
      if bool_decide (data = Some "confirm") then
        match pendingEvents st !! chatId with
        | None => (st, [say chatId "No pending events to confirm."])
        | Some pending =>
            let loop := for_of (addEventToCalendar st chatId) (events pending) in
            if loop.2 then
              (set_pendingEvents st (delete chatId (pendingEvents st)),
               loop.1
               ++ [say chatId "Events confirmed and added to your calendar.";
                   answerCallbackQuery id])
            else (st, loop.1 ++ [unhandledRejection])
        end
      else if bool_decide (data = Some "edit") then
        (st, [say chatId
                "Please send your updated event description using /edit command.";
              answerCallbackQuery id])
      else (st, [answerCallbackQuery id])
  end.

End Handlers.

(** ** Account registration, src/index.ts:573-650 *)

(** What the three awaited calls of the route produced: the token exchange
    failed; or it succeeded and a later call failed; or all succeeded with
    the tokens, the calendar roster and the e-mail address (if any). *)
Inductive OAuthOutcome :=
  | TokenExchangeFailed
  | FetchFailed (tokens : Credentials)
  | Authorized (tokens : Credentials) (cals : list CalendarEntry)
      (mail : option string).

(** [state.split(':')]: the pieces between colons. *)
Fixpoint split_colon_go (cur : string) (s : string) : list string :=
  match s with
  | "" => [String.rev cur]
  | String a s' =>
      if Ascii.eqb a ":"%char then String.rev cur :: split_colon_go "" s'
      else split_colon_go (String a cur) s'
  end.
Definition split_colon (s : string) : list string := split_colon_go "" s.

(** [pending.oauth2Client.setCredentials(tokens)]: the client object is the
    one held by [pendingOAuth], so the entry sees the new credentials. *)
Definition set_client_credentials (st : State) (state : string)
    (pending : PendingOAuth) (tokens : Credentials) : State :=
  set_pendingOAuth st
    (<[state := {| po_chatId := po_chatId pending;
                   po_oauth2Client := {| credentials := tokens |} |}]>
       (pendingOAuth st)).

Definition on_oauth2callback (st : State) (state : string)
    (outcome : OAuthOutcome) : State * list Effect :=
  match split_colon state with
  | part0 :: _ :: _ =>
      let chatId := parseInt part0 10 in
      match pendingOAuth st !! state with
      | None => (st, [resSend OAuthClientNotFound])
      | Some pending =>
          let failed :=
            [resSend ErrorHtml;
             sendMessage chatId
               "There was an error during Google Calendar authentication. Please try again."
               NoKeyboard] in
          match outcome with
          | TokenExchangeFailed => (st, failed)
          | FetchFailed tokens =>
              (set_client_credentials st state pending tokens, failed)
          | Authorized tokens cals mail =>
              let existingAccounts :=
                default [] (oauthAccounts st !! chatId) in
              let newAccount :=
                {| accountId := Z.of_nat (List.length existingAccounts) + 1;
                   email := Some (or_string mail "Unknown Email");
                   oauth2Client := {| credentials := tokens |};
                   calendars := cals |} in
              let st1 :=
                set_oauthAccounts st
                  (<[chatId := existingAccounts ++ [newAccount]]>
                     (oauthAccounts st)) in
              let st2 :=
                set_pendingOAuth st1 (delete state (pendingOAuth st1)) in
              (st2, [writeAuthCache (saveAuthCache st1); resSend SuccessHtml])
          end
      end
  | _ => (st, [resSend InvalidStateParameter])
  end.

(** ** The process as a transition system *)

Inductive Input :=
  | Message (chatId : Z) (text : string)
  | CallbackQuery (id : string) (data : option string) (message : option Z)
  | OAuth2Callback (state : string) (outcome : OAuthOutcome).

(** One handler run.  A handler that raises leaves the maps as they were:
    the raises are in [resolveCalendarId] and in the loop of the Confirm
    action, both before any write. *)
Definition step (env : Env) (st : State) (i : Input) : State * list Effect :=
  match i with
  | Message chatId text =>
      match on_message env st chatId text with
      | Return r => r
      | TypeError => (st, [unhandledRejection])
      end
  | CallbackQuery id data message => on_callback_query env st id data message
  | OAuth2Callback state outcome => on_oauth2callback st state outcome
  end.

(** The states the process can be in: it starts from the empty maps, or
    from what [loadAuthCache] makes of a record a reachable state wrote;
    every handler run is under an environment of its own. *)
Inductive reachable : State → Prop :=
  | reachable_empty : reachable empty_state
  | reachable_step env st i :
      reachable st → reachable (step env st i).1
  | reachable_restart st data :
      reachable st → same_record data (saveAuthCache st) →
      reachable (loadAuthCache empty_state (Some data)).

(** ** Vocabulary of the specifications *)

(** The candidates a loop over the stored value hands to its body: the
    elements of an array up to its first [null]; none for a plain
    object. *)
Fixpoint before_null (items : list (option CalendarEvent))
    : list CalendarEvent :=
  match items with
  | Some eventData :: rest => eventData :: before_null rest
  | _ => []
  end.

Definition candidates (events : ParsedEvents) : list CalendarEvent :=
  match events with
  | EventArray items => before_null items
  | PlainObject => []
  end.

(** A loop over the stored value runs to its end: the value is an array
    and none of its elements is [null]. *)
Definition iterable (events : ParsedEvents) : bool :=
  match events with
  | EventArray items => forallb (λ item, bool_decide (is_Some item)) items
  | PlainObject => false
  end.

(** The array of the given candidates. *)
Definition array_of (evs : list CalendarEvent) : ParsedEvents :=
  EventArray (Some <$> evs).

(** The insert calls among the effects of a run, in order. *)
Definition attempts (effects : list Effect)
    : list (OAuth2Client * string * EventBody) :=
  omap (λ e, match e with
             | eventsInsert client calendarId body =>
                 Some (client, calendarId, body)
             | _ => None
             end) effects.

(** The chat messages among the effects of a run, in order. *)
Definition notices (effects : list Effect) : list string :=
  omap (λ e, match e with
             | sendMessage _ text _ => Some text
             | _ => None
             end) effects.

(** The set the commit-time guard looks into for an account. *)
Definition disabled_set (st : State) (chatId accountId : Z) : gset string :=
  default ∅ (default ∅ (disabledCalendars st !! Num chatId) !! Num accountId).

(** The insert a candidate calls for: none without a target account or
    with a calendar string found in the disabled set. *)
Definition insert_attempt (env : Env) (st : State) (chatId : Z)
    (eventData : CalendarEvent) : option (OAuth2Client * string * EventBody) :=
  match target_account st chatId eventData with
  | None => None
  | Some account =>
      let literal := or_string (calendar eventData) "primary" in
      if bool_decide (literal ∈ disabled_set st chatId (accountId account))
      then None
      else Some (oauth2Client account, literal, event_body env eventData)
  end.

(** The same environment with another outcome of the insert calls. *)
Definition with_events_insert (env : Env)
    (outcome : OAuth2Client → string → EventBody → bool) : Env :=
  {| DEFAULT_TIMEZONE := DEFAULT_TIMEZONE env;
     currentDate := currentDate env;
     currentDay := currentDay env;
     Date_now := Date_now env;
     chat_completion := chat_completion env;
     JSON_parse := JSON_parse env;
     toISOString := toISOString env;
     events_insert := outcome;
     generateAuthUrl := generateAuthUrl env |}.

(** Account ids that count up from 1 along the list. *)
Definition well_numbered (accounts : list OAuthAccount) : Prop :=
  ∀ i account, accounts !! i = Some account →
               accountId account = Z.of_nat i + 1.

Definition registry_numbered (st : State) : Prop :=
  ∀ c accounts, oauthAccounts st !! c = Some accounts → well_numbered accounts.

(** Disabled sets are kept only for conversations that have accounts. *)
Definition disabled_within_accounts (st : State) : Prop :=
  ∀ c, is_Some (disabledCalendars st !! c) → is_Some (oauthAccounts st !! c).

(** What a handler does to the two registry maps: nothing; or it writes the
    disabled sets of a conversation that has accounts; or it deletes the
    conversation from both maps. *)
Definition registry_change (st st' : State) (chatId : Z) : Prop :=
  (oauthAccounts st' = oauthAccounts st
   ∧ (disabledCalendars st' = disabledCalendars st
      ∨ is_Some (oauthAccounts st !! Num chatId)
        ∧ ∃ d, disabledCalendars st'
               = <[Num chatId := d]> (disabledCalendars st)))
  ∨ (oauthAccounts st' = delete (Num chatId) (oauthAccounts st)
     ∧ disabledCalendars st' = delete (Num chatId) (disabledCalendars st)).

(** A run of handlers, one after the other. *)
Definition run (env : Env) (st : State) (inputs : list Input) : State :=
  fold_left (λ s i, (step env s i).1) inputs st.

(** ** Sample data for the examples *)

Definition demo_calendars : list CalendarEntry :=
  [ {| cal_id := "ada@example.com"; summary := "Ada" |};
    {| cal_id := "team@group.calendar.example"; summary := "Team" |} ].

Definition demo_account : OAuthAccount :=
  {| accountId := 1; email := Some "ada@example.com";
     oauth2Client := {| credentials := "token-1" |};
     calendars := demo_calendars |}.

Definition demo_event : CalendarEvent :=
  {| title := "Lunch"; start_time := "2025-02-20T12:00:00";
     end_time := "2025-02-20T13:00:00"; description := "Lunch with Bob";
     ev_accountId := Some 1; calendar := None |}.

Definition demo_session : PendingEvents :=
  {| events := array_of [demo_event];
     originalText := "lunch with Bob tomorrow at noon";
     previousJSONProposal := Some "[old]";
     editHistory := Some "" |}.

(** Chat 7 has one account with two calendars, the first of which (the
    account's primary calendar) is disabled, and a pending proposal. *)
Definition demo_state : State :=
  {| pendingEvents := {[ 7 := demo_session ]};
     oauthAccounts := {[ Num 7 := [demo_account] ]};
     pendingOAuth := ∅;
     disabledCalendars := {[ Num 7 := {[ Num 1 := {[ "ada@example.com" ]} ]} ]} |}.

(** An environment whose models all fail and whose calendar calls all
    succeed. *)
Definition demo_env : Env :=
  {| DEFAULT_TIMEZONE := "UTC";
     currentDate := "2025-02-19";
     currentDay := "Wednesday";
     Date_now := 1739960000000;
     chat_completion := λ _ _, None;
     JSON_parse := λ _, None;
     toISOString := λ t _, Some t;
     events_insert := λ _ _ _, true;
     generateAuthUrl := λ state, "https://accounts.example/auth?state=" +:+ state |}.

(** An environment whose first model answers with a JSON array wrapped in
    prose, parsed as one event. *)
Definition demo_env_ok : Env :=
  {| DEFAULT_TIMEZONE := "UTC";
     currentDate := "2025-02-19";
     currentDay := "Wednesday";
     Date_now := 1739960000000;
     chat_completion := λ _ _, Some "Here you go: [new] Anything else?";
     JSON_parse := λ json, if String.eqb json "[new]" then Some (array_of [demo_event]) else None;
     toISOString := λ t _, Some t;
     events_insert := λ _ _ _, true;
     generateAuthUrl := λ state, "https://accounts.example/auth?state=" +:+ state |}.

(** An environment whose first model answers with a JSON object in
    braces. *)
Definition demo_env_object : Env :=
  {| DEFAULT_TIMEZONE := "UTC";
     currentDate := "2025-02-19";
     currentDay := "Wednesday";
     Date_now := 1739960000000;
     chat_completion := λ _ _, Some "Here you go: {new}";
     JSON_parse := λ json, if String.eqb json "{new}" then Some PlainObject else None;
     toISOString := λ t _, Some t;
     events_insert := λ _ _ _, true;
     generateAuthUrl := λ state, "https://accounts.example/auth?state=" +:+ state |}.

(** The session that answer leaves behind, and the sample state with it. *)
Definition demo_object_session : PendingEvents :=
  {| events := PlainObject;
     originalText := "dinner on friday at 7pm";
     previousJSONProposal := Some "{new}";
     editHistory := Some "" |}.

Definition demo_object_state : State :=
  set_pendingEvents demo_state {[ 7 := demo_object_session ]}.

Definition demo_second : OAuthAccount :=
  {| accountId := 2; email := Some "Unknown Email";
     oauth2Client := {| credentials := "token-2" |};
     calendars := [] |}.

(** Two authorizations in chat 7, one after the other. *)
Definition demo_inputs : list Input :=
  [ Message 7 "/auth";
    OAuth2Callback "7:1739960000000"
      (Authorized "token-1" demo_calendars (Some "ada@example.com"));
    Message 7 "/auth";
    OAuth2Callback "7:1739960000000" (Authorized "token-2" [] None) ].

(** The sample state after [/disable 1 primary]: the disabled set of
    account 1 now holds the string ["primary"] as well. *)
Definition demo_primary_disabled : State :=
  (step demo_env demo_state (Message 7 "/disable 1 primary")).1.

(** ** Vocabulary of the further properties *)

(** A model call that gives nothing to work with: it throws, or its content
    is empty. *)
Definition no_answer (env : Env) (prompt model : string) : Prop :=
  chat_completion env model prompt = None
  ∨ chat_completion env model prompt = Some "".

(** An environment whose first model throws, whose second answers with
    nothing and whose third answers. *)
Definition demo_env_fallback : Env :=
  {| DEFAULT_TIMEZONE := "UTC";
     currentDate := "2025-02-19";
     currentDay := "Wednesday";
     Date_now := 1739960000000;
     chat_completion := λ model _,
       if String.eqb model "deepseek-r1-distill-llama-70b-specdec" then None
       else if String.eqb model "deepseek-r1-distill-llama-70b" then Some ""
       else Some ("third: [new]" +:+ model);
     JSON_parse := λ json, if String.eqb json "[new]" then Some (array_of [demo_event]) else None;
     toISOString := λ t _, Some t;
     events_insert := λ _ _ _, false;
     generateAuthUrl := λ state, state |}.

(** A handler run for one chat leaves the session, the accounts and the
    disabled sets of every other chat as they were. *)
Definition other_chats_untouched (st st' : State) (chatId : Z) : Prop :=
  ∀ other, other ≠ chatId →
    pendingEvents st' !! other = pendingEvents st !! other
    ∧ oauthAccounts st' !! Num other = oauthAccounts st !! Num other
    ∧ disabledCalendars st' !! Num other = disabledCalendars st !! Num other.

(** Every chat message among the effects goes to [chatId]. *)
Definition addressed_to (chatId : Z) (effects : list Effect) : Prop :=
  Forall (λ e, match e with
               | sendMessage c _ _ => c = Num chatId
               | _ => True
               end) effects.

(** What a [/disable] or [/enable] text acts on: the account id and the
    resolved calendar id, or nothing when the command is refused (missing
    or malformed arguments, or a strict resolution that fails).  [skip] is
    the length of the command word. *)
Definition command_target (st : State) (chatId : Z) (text : string) (skip : Z)
    : option (Z * string) :=
  let args := JsString.trim (JsString.slice text skip) in
  if JsString.length args =? 0 then None
  else
    match command_parts args with
    | part0 :: part1 :: _ =>
        match parseInt part0 0 with
        | NaN => None
        | Num accountId =>
            match resolveCalendarId st chatId accountId part1 true with
            | Return result =>
                if success result then Some (accountId, realCalendarId result)
                else None
            | TypeError => None
            end
        end
    | _ => None
    end.

(** The cache writes among the effects of a run. *)
Definition cache_writes (effects : list Effect) : list CacheData :=
  omap (λ e, match e with writeAuthCache data => Some data | _ => None end)
    effects.

(** Disabled sets are kept only under the account ids of accounts the
    conversation has. *)
Definition disabled_accounts_exist (st : State) : Prop :=
  ∀ c d a X,
    disabledCalendars st !! c = Some d → d !! a = Some X →
    ∃ accounts account,
      oauthAccounts st !! c = Some accounts
      ∧ account ∈ accounts ∧ a = Num (accountId account).

(** One successful [/edit]: its delta, the candidates and the payload the
    extraction returned. *)
Record EditStep := {
  es_delta : string;
  es_events : ParsedEvents;
  es_json : string;
}.

(** The session after a description and a series of successful edits. *)
Definition session_after (text : string) (events0 : ParsedEvents)
    (json0 : string) (edits : list EditStep) : PendingEvents :=
  fold_left (λ s e, edited_session s (es_delta e) (es_events e) (es_json e))
    edits (fresh_session text events0 json0).

(** ** The calendar roster fetch, src/index.ts:203-210 *)

(** An item of the calendar list as the provider returns it. *)
Record CalendarListItem := {
  item_id : option string;
  item_summary : option string;
}.

(** [fetchCalendars] on the provider's answer: [items] is [None] when the
    answer has no item list. *)
Definition fetchCalendars (items : option (list CalendarListItem))
    : list CalendarEntry :=
  (λ item, {| cal_id := or_string (item_id item) "";
              summary := or_string (item_summary item) "No Title" |})
  <$> default [] items.

(** ** The earlier draft, src/index.ts:662-1101: no enable/disable layer,
    and [/confirm] commits at once.  The draft has no disabled sets; its
    handlers below leave that field of the state alone. *)

(** [addEventToCalendar] of the draft, src/index.ts:878-921: no look into
    the disabled sets. *)
Definition addEventToCalendar_draft (env : Env) (st : State) (chatId : Z)
    (eventData : CalendarEvent) : list Effect :=
  match target_account st chatId eventData with
  | None =>
      [sendMessage (Num chatId)
         "No authenticated Google account found. Use /auth to authenticate."
         NoKeyboard]
  | Some oauthAccount =>
      let calendarId := or_string (calendar eventData) "primary" in
      let event := event_body env eventData in
      eventsInsert (oauth2Client oauthAccount) calendarId event ::
      (if events_insert env (oauth2Client oauthAccount) calendarId event
       then
         [sendMessage (Num chatId)
            ("Event added to calendar (" +:+ calendarId
             +:+ ") for Account " +:+ toString (Num (accountId oauthAccount))
             +:+ ": " +:+ title eventData)
            NoKeyboard]
       else
         [sendMessage (Num chatId)
            "There was an error adding the event. Please try again."
            NoKeyboard])
  end.

(** [/confirm] of the draft, src/index.ts:962-973.  When the loop raises,
    the message handler ends there and the session is not deleted. *)
Definition on_confirm_draft (env : Env) (st : State) (chatId : Z)
    : State * list Effect :=
  match pendingEvents st !! chatId with
  | None =>
      (st, [say chatId "No pending events. Send an event description first."])
  | Some pending =>
      let loop :=
        for_of (addEventToCalendar_draft env st chatId) (events pending) in
      if loop.2 then
        (set_pendingEvents st (delete chatId (pendingEvents st)), loop.1)
      else (st, loop.1 ++ [unhandledRejection])
  end.

(** The insert a candidate calls for in the draft: that of its target
    account, whenever there is one. *)
Definition direct_attempt (env : Env) (st : State) (chatId : Z)
    (eventData : CalendarEvent) : option (OAuth2Client * string * EventBody) :=
  (λ account, (oauth2Client account,
               or_string (calendar eventData) "primary",
               event_body env eventData))
  <$> target_account st chatId eventData.

(** * Properties *)

(** ** Facts about strings *)

Module JsStringFacts.
Import JsString.

Local Arguments String.append !_ _ / : simpl nomatch.

Lemma app_nil_r (s : string) : s +:+ "" = s.
Proof. induction s as [|a s IH]; simpl; [done | by rewrite IH]. Qed.

Lemma app_assoc (s t u : string) : (s +:+ t) +:+ u = s +:+ (t +:+ u).
Proof. induction s as [|a s IH]; simpl; [done | by rewrite IH]. Qed.

Lemma app_cons (a : ascii) (s t : string) : String a s +:+ t = String a (s +:+ t).
Proof. done. Qed.

Lemma length_app (s t : string) :
  String.length (s +:+ t) = (String.length s + String.length t)%nat.
Proof. induction s as [|a s IH]; simpl; [done | by rewrite IH]. Qed.

Lemma occurs_app (c : ascii) (s t : string) :
  occurs c (s +:+ t) ↔ occurs c s ∨ occurs c t.
Proof. induction s as [|a s IH]; simpl; [tauto | rewrite IH; tauto]. Qed.

Lemma eqb_false (a c : ascii) : a ≠ c → Ascii.eqb a c = false.
Proof. intros H. by apply Ascii.eqb_neq. Qed.

(** The first occurrence: where it is, and when there is none. *)
Lemma indexOf_from_first (c : ascii) (pre r : string) (i : Z) :
  ¬ occurs c pre →
  indexOf_from c (pre +:+ String c r) i = i + length pre.
Proof.
  revert i. induction pre as [|a pre IH]; intros i Hno; simpl.
  - rewrite Ascii.eqb_refl. unfold length. simpl. lia.
  - simpl in Hno. rewrite eqb_false by tauto.
    rewrite IH by tauto. unfold length. simpl String.length. lia.
Qed.

Lemma indexOf_from_none (c : ascii) (s : string) (i : Z) :
  ¬ occurs c s → indexOf_from c s i = -1.
Proof.
  revert i. induction s as [|a s IH]; intros i Hno; simpl; [done|].
  simpl in Hno. rewrite eqb_false by tauto. apply IH. tauto.
Qed.

Lemma indexOf_from_split (c : ascii) (s : string) (i : Z) :
  0 ≤ i →
  indexOf_from c s i = -1 ∧ ¬ occurs c s
  ∨ ∃ pre r, s = pre +:+ String c r ∧ ¬ occurs c pre
             ∧ indexOf_from c s i = i + length pre.
Proof.
  revert i. induction s as [|a s IH]; intros i Hi; simpl.
  - left. tauto.
  - destruct (Ascii.eqb_spec a c) as [->|Hne].
    + right. exists "", s. unfold length. simpl. split_and!; [done|tauto|lia].
    + destruct (IH (i + 1)) as [[-> Hno]|(pre & r & -> & Hno & ->)]; [lia|..].
      * left. tauto.
      * right. exists (String a pre), r. unfold length. simpl String.length.
        split_and!; [done|simpl; tauto|lia].
Qed.

(** The last occurrence. *)
Lemma lastIndexOf_from_none (c : ascii) (s : string) (i found : Z) :
  ¬ occurs c s → lastIndexOf_from c s i found = found.
Proof.
  revert i found. induction s as [|a s IH]; intros i found Hno; simpl; [done|].
  simpl in Hno. rewrite eqb_false by tauto. apply IH. tauto.
Qed.

Lemma lastIndexOf_from_last (c : ascii) (x post : string) (i found : Z) :
  ¬ occurs c post →
  lastIndexOf_from c (x +:+ String c post) i found = i + length x.
Proof.
  revert i found. induction x as [|a x IH]; intros i found Hno; simpl.
  - rewrite Ascii.eqb_refl, lastIndexOf_from_none by done.
    unfold length. simpl. lia.
  - rewrite IH by done. unfold length. simpl String.length. lia.
Qed.

Lemma lastIndexOf_from_split (c : ascii) (s : string) (i found : Z) :
  lastIndexOf_from c s i found = found ∧ ¬ occurs c s
  ∨ ∃ x post, s = x +:+ String c post ∧ ¬ occurs c post
              ∧ lastIndexOf_from c s i found = i + length x.
Proof.
  revert i found. induction s as [|a s IH]; intros i found; simpl.
  - left. tauto.
  - destruct (IH (i + 1) (if Ascii.eqb a c then i else found))
      as [[Heq Hno]|(x & post & -> & Hno & Heq)].
    + destruct (Ascii.eqb_spec a c) as [->|Hne].
      * right. exists "", s. unfold length. simpl.
        split_and!; [done|done|lia].
      * left. split; [done|tauto].
    + right. exists (String a x), post. unfold length in *.
      simpl String.length. split_and!; [done|done|lia].
Qed.

(** Reading a middle part back with [substring]. *)
Lemma substring_skip (pre s : string) (m : nat) :
  String.substring (String.length pre) m (pre +:+ s) = String.substring 0 m s.
Proof. induction pre as [|a pre IH]; simpl; [done | apply IH]. Qed.

Lemma substring_take (mid post : string) :
  String.substring 0 (String.length mid) (mid +:+ post) = mid.
Proof.
  induction mid as [|a mid IH]; simpl.
  - by destruct post.
  - by rewrite IH.
Qed.

Lemma substring_middle (pre mid post : string) :
  substring (pre +:+ mid +:+ post) (length pre) (length pre + length mid) = mid.
Proof.
  unfold substring, length. rewrite !length_app.
  set (p := String.length pre). set (m := String.length mid).
  set (q := String.length post).
  replace (Z.min (Z.max (Z.of_nat p) 0) (Z.of_nat (p + (m + q))))
    with (Z.of_nat p) by lia.
  replace (Z.min (Z.max (Z.of_nat p + Z.of_nat m) 0) (Z.of_nat (p + (m + q))))
    with (Z.of_nat p + Z.of_nat m) by lia.
  replace (Z.to_nat (Z.min (Z.of_nat p) (Z.of_nat p + Z.of_nat m))) with p by lia.
  replace (Z.to_nat (Z.max (Z.of_nat p) (Z.of_nat p + Z.of_nat m)
                     - Z.min (Z.of_nat p) (Z.of_nat p + Z.of_nat m)))
    with m by lia.
  subst p m. rewrite substring_skip. apply substring_take.
Qed.

(** Two ways of cutting one string, the first cut lying further left. *)
Lemma app_cut (pre r x post : string) (c c' : ascii) :
  pre +:+ String c r = x +:+ String c' post →
  (String.length pre < String.length x)%nat →
  ∃ mid, x = pre +:+ String c mid ∧ r = mid +:+ String c' post.
Proof.
  revert x. induction pre as [|a pre IH]; intros [|b x] Heq Hlt;
    simpl in *; try lia.
  - injection Heq as -> ->. by exists x.
  - injection Heq as -> Heq. destruct (IH x Heq) as (mid & -> & ->); [lia|].
    by exists mid.
Qed.

Lemma pair_indices (o c : ascii) (pre mid post : string) :
  ¬ occurs o pre → ¬ occurs c post →
  let s := pre +:+ String o (mid +:+ String c post) in
  indexOf s o = length pre
  ∧ lastIndexOf s c = length pre + 1 + length mid
  ∧ substring s (indexOf s o) (lastIndexOf s c + 1)
    = String o (mid +:+ String c "").
Proof.
  intros Hpre Hpost s.
  assert (Hi : indexOf s o = length pre).
  { unfold indexOf, s. rewrite indexOf_from_first by done. lia. }
  assert (Hj : lastIndexOf s c = length pre + 1 + length mid).
  { unfold lastIndexOf, s.
    replace (pre +:+ String o (mid +:+ String c post))
      with ((pre +:+ String o mid) +:+ String c post)
      by (by rewrite app_assoc).
    rewrite lastIndexOf_from_last by done.
    unfold length. rewrite length_app. simpl String.length. lia. }
  split_and!; [done..|].
  rewrite Hi, Hj. unfold s.
  replace (String o (mid +:+ String c post))
    with (String o (mid +:+ String c "") +:+ post)
    by (simpl; by rewrite app_assoc).
  replace (length pre + 1 + length mid + 1)
    with (length pre + length (String o (mid +:+ String c ""))).
  - apply substring_middle.
  - unfold length. simpl String.length. rewrite length_app. simpl. lia.
Qed.

Lemma indices_pair (o c : ascii) (s : string) :
  indexOf s o ≠ -1 → lastIndexOf s c ≠ -1 →
  indexOf s o < lastIndexOf s c →
  ∃ pre mid post, s = pre +:+ String o (mid +:+ String c post)
                  ∧ ¬ occurs o pre ∧ ¬ occurs c post.
Proof.
  unfold indexOf, lastIndexOf. intros Hi Hj Hlt.
  destruct (indexOf_from_split o s 0) as [[? _]|(pre & r & Hs & Hpre & Ei)];
    [lia|done|].
  destruct (lastIndexOf_from_split c s 0 (-1))
    as [[? _]|(x & post & Hs' & Hpost & Ej)]; [done|].
  rewrite Ei, Ej in Hlt. unfold length in Hlt.
  destruct (app_cut pre r x post o c) as (mid & -> & ->);
    [congruence|lia|].
  exists pre, mid, post. by rewrite Hs.
Qed.

Lemma no_pair_indices (o c : ascii) (s : string) :
  ¬ has_pair o c s →
  indexOf s o = -1 ∨ lastIndexOf s c = -1 ∨ lastIndexOf s c ≤ indexOf s o.
Proof.
  intros Hno.
  destruct (decide (indexOf s o = -1)) as [|Hi]; [tauto|].
  destruct (decide (lastIndexOf s c = -1)) as [|Hj]; [tauto|].
  destruct (decide (lastIndexOf s c ≤ indexOf s o)) as [|Hlt]; [tauto|].
  destruct (indices_pair o c s) as (pre & mid & post & ? & _); [done|done|lia|].
  destruct Hno. by exists pre, mid, post.
Qed.

Lemma indexOf_from_le (c : ascii) (pre r : string) (i : Z) :
  0 ≤ i →
  i ≤ indexOf_from c (pre +:+ String c r) i ≤ i + length pre.
Proof.
  revert i. induction pre as [|a pre IH]; intros i Hi; simpl.
  - rewrite Ascii.eqb_refl. unfold length. simpl. lia.
  - unfold length in *. simpl String.length.
    destruct (Ascii.eqb a c); [lia|]. specialize (IH (i + 1)). lia.
Qed.

Lemma lastIndexOf_from_ge (c : ascii) (s : string) (i found : Z) :
  found < i → found ≤ lastIndexOf_from c s i found.
Proof.
  intros Hlt.
  destruct (lastIndexOf_from_split c s i found)
    as [[-> _]|(x & post & _ & _ & ->)]; unfold length; lia.
Qed.

Lemma lastIndexOf_from_le (c : ascii) (x post : string) (i found : Z) :
  found < i →
  i + length x ≤ lastIndexOf_from c (x +:+ String c post) i found.
Proof.
  revert i found. induction x as [|a x IH]; intros i found Hlt; simpl.
  - rewrite Ascii.eqb_refl. unfold length. simpl.
    pose proof (lastIndexOf_from_ge c post (i + 1) i). lia.
  - unfold length in *. simpl String.length.
    specialize (IH (i + 1) (if Ascii.eqb a c then i else found)).
    destruct (Ascii.eqb a c); lia.
Qed.

Lemma has_pair_indices (o c : ascii) (s : string) :
  has_pair o c s →
  indexOf s o ≠ -1 ∧ lastIndexOf s c ≠ -1 ∧ indexOf s o < lastIndexOf s c.
Proof.
  intros (pre & mid & post & ->). unfold indexOf, lastIndexOf.
  pose proof (indexOf_from_le o pre (mid +:+ String c post) 0 ltac:(lia)) as Hf.
  pose proof (lastIndexOf_from_le c (pre +:+ String o mid) post 0 (-1)
                ltac:(lia)) as Hl.
  unfold length in *. rewrite length_app in Hl. simpl String.length in Hl.
  rewrite app_assoc in Hl. rewrite app_cons in Hl. lia.
Qed.

End JsStringFacts.

(** ** Locating the JSON payload *)

Section ExtractJSON.
Import JsString JsStringFacts.

Lemma extractJSON_array (response : string) :
  indexOf response "[" ≠ -1 → lastIndexOf response "]" ≠ -1 →
  indexOf response "[" < lastIndexOf response "]" →
  extractJSON response
  = Ok (substring response (indexOf response "[")
          (lastIndexOf response "]" + 1)).
Proof.
  intros Hi Hj Hlt. unfold extractJSON.
  destruct (Z.eqb_spec (indexOf response "[") (-1)); [done|].
  destruct (Z.eqb_spec (lastIndexOf response "]") (-1)); [done|].
  rewrite Z.gtb_ltb. destruct (Z.ltb_spec (indexOf response "[")
                                 (lastIndexOf response "]")); [done|lia].
Qed.

Lemma extractJSON_no_array (response : string) :
  ¬ has_pair "[" "]" response →
  extractJSON response
  = let firstBrace := indexOf response "{" in
    let lastBrace := lastIndexOf response "}" in
    if ((firstBrace =? -1) || (lastBrace =? -1)
        || (lastBrace <=? firstBrace))%bool
    then Throw NoJSONFound
    else Ok (substring response firstBrace (lastBrace + 1)).
Proof.
  intros Hno. unfold extractJSON.
  destruct (no_pair_indices _ _ _ Hno) as [Hi|[Hj|Hle]].
  - by rewrite Hi.
  - rewrite Hj. by rewrite andb_false_r.
  - rewrite Z.gtb_ltb.
    destruct (Z.ltb_spec (indexOf response "[") (lastIndexOf response "]"));
      [lia|]. by rewrite andb_false_r.
Qed.

(** C6.  The JSON-extraction step returns the span from the first '[' to
    the last ']' whenever some '[' has a ']' to its right; otherwise the span
    from the first '{' to the last '}' whenever some '{' has a '}' to its
    right; otherwise it fails with NoJSONFound.  The three inputs of the
    specification behave as it says. *)
Theorem extractJSON_outermost_span (response : string) :
  (∀ pre mid post,
     response = pre +:+ String "[" (mid +:+ String "]" post) →
     ¬ occurs "[" pre → ¬ occurs "]" post →
     extractJSON response = Ok (String "[" (mid +:+ "]")))
  ∧ (has_pair "[" "]" response →
     ∃ pre mid post,
       response = pre +:+ String "[" (mid +:+ String "]" post)
       ∧ ¬ occurs "[" pre ∧ ¬ occurs "]" post)
  ∧ (¬ has_pair "[" "]" response →
     ∀ pre mid post,
       response = pre +:+ String "{" (mid +:+ String "}" post) →
       ¬ occurs "{" pre → ¬ occurs "}" post →
       extractJSON response = Ok (String "{" (mid +:+ "}")))
  ∧ (¬ has_pair "[" "]" response → has_pair "{" "}" response →
     ∃ pre mid post,
       response = pre +:+ String "{" (mid +:+ String "}" post)
       ∧ ¬ occurs "{" pre ∧ ¬ occurs "}" post)
  ∧ (¬ has_pair "[" "]" response → ¬ has_pair "{" "}" response →
     extractJSON response = Throw NoJSONFound)
  ∧ extractJSON ("blah [ {" +:+ DQ +:+ "a" +:+ DQ +:+ ":1} ] blah")
    = Ok ("[ {" +:+ DQ +:+ "a" +:+ DQ +:+ ":1} ]")
  ∧ extractJSON ("{" +:+ DQ +:+ "a" +:+ DQ +:+ ":1}")
    = Ok ("{" +:+ DQ +:+ "a" +:+ DQ +:+ ":1}")
  ∧ extractJSON "] [" = Throw NoJSONFound.
Proof.
  split_and!; try reflexivity.
  - intros pre mid post -> Hpre Hpost.
    destruct (pair_indices "[" "]" pre mid post Hpre Hpost) as (Hi & Hj & Hsub).
    rewrite extractJSON_array; [by rewrite Hsub|..];
      rewrite ?Hi, ?Hj; unfold length; lia.
  - intros Hp. destruct (has_pair_indices _ _ _ Hp) as (? & ? & ?).
    by apply indices_pair.
  - intros Hno pre mid post Hs Hpre Hpost.
    rewrite extractJSON_no_array by done. subst response.
    destruct (pair_indices "{" "}" pre mid post Hpre Hpost) as (Hi & Hj & Hsub).
    cbv zeta. rewrite Hsub, Hi, Hj.
    destruct (Z.eqb_spec (length pre) (-1)); [unfold length in *; lia|].
    destruct (Z.eqb_spec (length pre + 1 + length mid) (-1));
      [unfold length in *; lia|].
    destruct (Z.leb_spec (length pre + 1 + length mid) (length pre));
      [unfold length in *; lia|done].
  - intros _ Hp. destruct (has_pair_indices _ _ _ Hp) as (? & ? & ?).
    by apply indices_pair.
  - intros Hno Hno'. rewrite extractJSON_no_array by done.
    destruct (no_pair_indices _ _ _ Hno') as [Hi|[Hj|Hle]]; cbv zeta.
    + by rewrite Hi.
    + rewrite Hj. by rewrite orb_true_r.
    + destruct (Z.leb_spec (lastIndexOf response "}") (indexOf response "{"));
        [by rewrite orb_true_r|lia].
Qed.

Lemma extractJSON_outermost_span_witness :
  extractJSON ("see [1, [2]] ok]?")
  = Ok (String "[" ("1, [2]] ok" +:+ "]")).
Proof.
  apply (proj1 (extractJSON_outermost_span "see [1, [2]] ok]?")
           "see " "1, [2]] ok" "?").
  - reflexivity.
  - simpl. intros H. repeat destruct H as [H|H]; try discriminate H; done.
  - simpl. intros H. repeat destruct H as [H|H]; try discriminate H; done.
Defined.

End ExtractJSON.

(** ** Numbers and their decimal rendering *)

Section ParseInt.
Import JsString JsStringFacts.

Local Arguments String.append !_ _ / : simpl nomatch.

Lemma prefix_cons (a b : ascii) (p s : string) :
  String.prefix (String a p) (String b s)
  = if ascii_dec a b then String.prefix p s else false.
Proof. reflexivity. Qed.

Lemma digit_value_pretty_char (d : N) :
  (d < 10)%N → digit_value (pretty_N_char d) = Some (Z.of_N d).
Proof.
  intros Hd.
  assert (d = 0 ∨ d = 1 ∨ d = 2 ∨ d = 3 ∨ d = 4 ∨ d = 5 ∨ d = 6 ∨ d = 7
          ∨ d = 8 ∨ d = 9)%N as Hcases by lia.
  repeat destruct Hcases as [->|Hcases]; try reflexivity.
  by subst.
Qed.

(** A non-zero decimal digit is no white space, no sign and not ['0']. *)
Lemma pretty_char_plain (d : N) :
  (0 < d < 10)%N →
  is_white (pretty_N_char d) = false
  ∧ pretty_N_char d ≠ "-"%char ∧ pretty_N_char d ≠ "+"%char
  ∧ pretty_N_char d ≠ "0"%char.
Proof.
  intros Hd.
  assert (d = 1 ∨ d = 2 ∨ d = 3 ∨ d = 4 ∨ d = 5 ∨ d = 6 ∨ d = 7
          ∨ d = 8 ∨ d = 9)%N as Hcases by lia.
  repeat destruct Hcases as [->|Hcases]; try (by split_and!).
  subst. by split_and!.
Qed.

Lemma pretty_N_go_append (x : N) (s : string) :
  pretty_N_go x s = pretty_N_go x "" +:+ s.
Proof.
  revert s. induction (N.lt_wf_0 x) as [x _ IH]; intros s.
  destruct (decide (x = 0)%N) as [->|Hx]; [done|].
  rewrite !(pretty_N_go_step x) by lia.
  rewrite (IH (x `div` 10)%N) by (apply N.div_lt; lia).
  rewrite (IH (x `div` 10)%N ltac:(apply N.div_lt; lia) (String _ "")).
  by rewrite app_assoc.
Qed.

Lemma pretty_N_go_head (x : N) (s : string) :
  (0 < x)%N →
  ∃ d r, (0 < d < 10)%N ∧ pretty_N_go x s = String (pretty_N_char d) r.
Proof.
  revert s. induction (N.lt_wf_0 x) as [x _ IH]; intros s Hx.
  rewrite pretty_N_go_step by done.
  destruct (decide (x `div` 10 = 0)%N) as [Hz|Hz].
  - rewrite Hz, pretty_N_go_0. exists x, s.
    apply N.div_small_iff in Hz; [|done].
    rewrite (N.mod_small x 10) by done. split; [lia|done].
  - apply IH; [apply N.div_lt; lia | by apply N.neq_0_lt_0].
Qed.

Lemma digits_value_snoc (R : Z) (ds : list Z) (d : Z) :
  digits_value R (ds ++ [d]) = digits_value R ds * R + d.
Proof. unfold digits_value. by rewrite fold_left_app. Qed.

Lemma pretty_N_go_digits (x : N) :
  (0 < x)%N →
  ∃ ds, ds ≠ [] ∧ digits_value 10 ds = Z.of_N x
        ∧ ∀ s, digits_prefix 10 (pretty_N_go x s) = ds ++ digits_prefix 10 s.
Proof.
  induction (N.lt_wf_0 x) as [x _ IH]; intros Hx.
  assert (Hd : (x `mod` 10 < 10)%N) by (apply N.mod_lt; lia).
  assert (Hstep : ∀ s, digits_prefix 10 (String (pretty_N_char (x `mod` 10)) s)
                       = Z.of_N (x `mod` 10) :: digits_prefix 10 s).
  { intros s. simpl. rewrite digit_value_pretty_char by done.
    destruct (Z.ltb_spec (Z.of_N (x `mod` 10)) 10); [done|lia]. }
  destruct (decide (x `div` 10 = 0)%N) as [Hz|Hz].
  - exists [Z.of_N (x `mod` 10)]. split_and!; [done|..].
    + unfold digits_value. simpl.
      apply N.div_small_iff in Hz; [|done]. rewrite N.mod_small by done. lia.
    + intros s. rewrite pretty_N_go_step by done.
      by rewrite Hz, pretty_N_go_0, Hstep.
  - destruct (IH (x `div` 10)%N) as (ds & Hne & Hval & Hpre);
      [apply N.div_lt; lia|by apply N.neq_0_lt_0|].
    exists (ds ++ [Z.of_N (x `mod` 10)]). split_and!.
    + by destruct ds.
    + rewrite digits_value_snoc, Hval.
      pose proof (N.div_mod x 10 ltac:(done)). lia.
    + intros s. rewrite pretty_N_go_step by done.
      by rewrite Hpre, Hstep, <- List.app_assoc.
Qed.

(** The digits of a positive number, followed by something that is no
    digit, read back as that number, in radix 10 and with no radix. *)
Lemma parse_magnitude_pretty (x : N) (rest : string) (radix : Z) :
  (0 < x)%N → radix = 0 ∨ radix = 10 →
  digits_prefix 10 rest = [] →
  parse_magnitude radix (pretty_N_go x rest) = Some (Z.of_N x).
Proof.
  intros Hx Hradix Hrest.
  destruct (pretty_N_go_head x rest Hx) as (d & r & Hd & Hhead).
  destruct (pretty_char_plain d Hd) as (_ & _ & _ & Hzero).
  destruct (pretty_N_go_digits x Hx) as (ds & Hne & Hval & Hpre).
  unfold parse_magnitude.
  assert (Hhex : (String.prefix "0x" (pretty_N_go x rest)
                  || String.prefix "0X" (pretty_N_go x rest)) = false).
  { rewrite Hhead, !prefix_cons.
    destruct (ascii_dec "0" (pretty_N_char d)) as [E|_]; [by destruct Hzero|done]. }
  rewrite Hhex, andb_false_r.
  replace (if radix =? 0 then 10 else radix) with 10
    by (by destruct Hradix as [-> | ->]).
  rewrite Hpre, Hrest, List.app_nil_r.
  destruct ds as [|d0 ds']; [done|]. by rewrite Hval.
Qed.

Lemma pretty_pos (p : positive) (rest : string) :
  pretty (Z.pos p) +:+ rest = pretty_N_go (N.pos p) rest.
Proof. by rewrite (pretty_N_go_append _ rest). Qed.

Lemma pretty_neg (p : positive) (rest : string) :
  pretty (Z.neg p) +:+ rest = String "-" (pretty_N_go (N.pos p) rest).
Proof. by rewrite (pretty_N_go_append _ rest). Qed.

(** [parseInt] reads back the decimal rendering of an integer, whatever
    follows it, as long as what follows does not continue the numeral. *)
Lemma parseInt_pretty (z : Z) (rest : string) (radix : Z) :
  radix = 0 ∨ radix = 10 →
  digits_prefix 10 rest = [] →
  (z = 0 → radix = 0 → starts_x rest = false) →
  parseInt (pretty z +:+ rest) radix = Num z.
Proof.
  intros Hradix Hrest Hx.
  assert (Hok : (negb (radix =? 0) && ((radix <? 2) || (36 <? radix))) = false)
    by (by destruct Hradix as [-> | ->]).
  destruct z as [|p|p].
  - unfold parseInt. change (pretty 0 +:+ rest) with (String "0" rest).
    simpl trimStart. rewrite Hok. unfold parse_magnitude.
    assert (Hhex : ((radix =? 0) || (radix =? 16))
                   && (String.prefix "0x" (String "0" rest)
                       || String.prefix "0X" (String "0" rest)) = false).
    { destruct Hradix as [-> | ->]; [|done].
      specialize (Hx eq_refl eq_refl). unfold starts_x in Hx.
      rewrite !prefix_cons. by destruct (ascii_dec "0" "0"). }
    rewrite Hhex.
    replace (if radix =? 0 then 10 else radix) with 10
      by (by destruct Hradix as [-> | ->]).
    simpl. by rewrite Hrest.
  - rewrite pretty_pos.
    destruct (pretty_N_go_head (N.pos p) rest) as (d & r & Hd & Hhead); [lia|].
    destruct (pretty_char_plain d Hd) as (Hw & Hminus & Hplus & _).
    pose proof (parse_magnitude_pretty (N.pos p) rest radix) as Hmag.
    unfold parseInt. rewrite Hhead in *. simpl trimStart. rewrite Hw, Hok.
    assert (Hs1 : match String (pretty_N_char d) r with
                  | String "+"%char r0 | String "-"%char r0 => r0
                  | _ => String (pretty_N_char d) r
                  end = String (pretty_N_char d) r).
    { destruct (pretty_N_char d) as [[] [] [] [] [] [] [] []]; done. }
    assert (Hsg : match String (pretty_N_char d) r with
                  | String "-"%char _ => -1
                  | _ => 1
                  end = 1).
    { destruct (pretty_N_char d) as [[] [] [] [] [] [] [] []]; done. }
    rewrite Hs1, Hsg, Hmag by (done || lia). f_equal; lia.
  - rewrite pretty_neg. unfold parseInt. simpl trimStart. rewrite Hok.
    rewrite parse_magnitude_pretty by (done || lia). f_equal; lia.
Qed.

End ParseInt.

(** ** Calendar identity resolver *)

Section Resolver.

Variables (st : State) (chatId acctId : Z).

Lemma array_get_in_range {A} (arr : list A) (k : Z) :
  1 ≤ k ≤ Z.of_nat (List.length arr) →
  ∃ x, arr !! Z.to_nat (k - 1) = Some x ∧ array_get arr (k - 1) = Some x.
Proof.
  intros Hk. unfold array_get.
  destruct (Z.ltb_spec (k - 1) 0); [lia|].
  destruct (lookup_lt_is_Some_2 arr (Z.to_nat (k - 1))) as [x Hx]; [lia|].
  by exists x.
Qed.

Lemma array_get_out_of_range {A} (arr : list A) (k : Z) :
  k < 1 ∨ Z.of_nat (List.length arr) < k → array_get arr (k - 1) = None.
Proof.
  intros Hk. unfold array_get.
  destruct (Z.ltb_spec (k - 1) 0); [done|].
  apply lookup_ge_None_2. lia.
Qed.

Lemma find_account_None (accounts : list OAuthAccount) (id : Z) :
  (∀ acc, acc ∈ accounts → accountId acc ≠ id) →
  find_account accounts id = None.
Proof.
  intros Hall. unfold find_account.
  induction accounts as [|a accounts IH]; simpl; [done|].
  destruct (Z.eqb_spec (accountId a) id) as [E|_].
  - destruct (Hall a); [by left|done].
  - apply IH. intros acc Hin. apply Hall. by right.
Qed.

(** How an identifier that [parseInt] reads as [k] is resolved against an
    account that exists. *)
Lemma resolve_index (accounts : list OAuthAccount) (account : OAuthAccount)
    (ident : string) (k : Z) (isStrict : bool) :
  oauthAccounts st !! Num chatId = Some accounts →
  find_account accounts acctId = Some account →
  parseInt ident 0 = Num k →
  let n := Z.of_nat (List.length (calendars account)) in
  (1 ≤ k ≤ n →
   ∃ cal, calendars account !! Z.to_nat (k - 1) = Some cal
          ∧ resolveCalendarId st chatId acctId ident isStrict
            = Return (resolved (cal_id cal)))
  ∧ (k < 1 ∨ n < k →
     resolveCalendarId st chatId acctId ident isStrict
     = if isStrict then Return (failed (InvalidIndex n)) else TypeError).
Proof.
  intros Hacc Hfind Hparse n. unfold resolveCalendarId.
  rewrite Hacc, Hfind, Hparse. fold n. split.
  - intros Hk. destruct (array_get_in_range (calendars account) k Hk)
      as (cal & Hcal & Hget).
    exists cal. split; [done|]. rewrite Hget.
    destruct (Z.ltb_spec k 1); [lia|]. destruct (Z.ltb_spec n k); [lia|].
    destruct (Z.leb_spec 1 k); [|lia]. destruct (Z.leb_spec k n); [|lia].
    by destruct isStrict.
  - intros Hk. rewrite (array_get_out_of_range (calendars account) k Hk).
    destruct isStrict; simpl; [|done].
    destruct (Z.ltb_spec k 1); [done|]. destruct (Z.ltb_spec n k); [done|lia].
Qed.

Lemma resolve_not_numeric (accounts : list OAuthAccount)
    (account : OAuthAccount) (ident : string) (isStrict : bool) :
  oauthAccounts st !! Num chatId = Some accounts →
  find_account accounts acctId = Some account →
  parseInt ident 0 = NaN →
  resolveCalendarId st chatId acctId ident isStrict
  = Return (resolved ident).
Proof.
  intros Hacc Hfind Hparse. unfold resolveCalendarId.
  by rewrite Hacc, Hfind, Hparse.
Qed.

(** C3.  Strict resolution of the decimal string of [k] against an account
    with calendars [c1..cn] gives [ck.id] for [1 <= k <= n] and the
    InvalidIndex error, naming the range 1..n, for every other integer
    (["0"] and ["n+1"] among them); an account id that no account of the
    conversation has gives UnknownAccount; a conversation without registry
    entry gives NoAccounts. *)
Theorem resolveCalendarId_strict :
  (∀ accounts account (k : Z),
     oauthAccounts st !! Num chatId = Some accounts →
     find_account accounts acctId = Some account →
     let n := Z.of_nat (List.length (calendars account)) in
     (1 ≤ k ≤ n →
      ∃ cal, calendars account !! Z.to_nat (k - 1) = Some cal
             ∧ resolveCalendarId st chatId acctId (toString (Num k)) true
               = Return (resolved (cal_id cal)))
     ∧ (k < 1 ∨ n < k →
        resolveCalendarId st chatId acctId (toString (Num k)) true
        = Return (failed (InvalidIndex n)))
     ∧ resolveCalendarId st chatId acctId "0" true
       = Return (failed (InvalidIndex n))
     ∧ resolveCalendarId st chatId acctId (toString (Num (n + 1))) true
       = Return (failed (InvalidIndex n))
     ∧ error_message (InvalidIndex n)
       = "Invalid calendar index. Please provide a number between 1 and "
         +:+ toString (Num n) +:+ ".")
  ∧ (∀ accounts ident,
       oauthAccounts st !! Num chatId = Some accounts →
       (∀ acc, acc ∈ accounts → accountId acc ≠ acctId) →
       resolveCalendarId st chatId acctId ident true
       = Return (failed (UnknownAccount acctId)))
  ∧ (∀ ident,
       oauthAccounts st !! Num chatId = None →
       resolveCalendarId st chatId acctId ident true
       = Return (failed NoAccounts)).
Proof.
  split_and!.
  - intros accounts account k Hacc Hfind n.
    assert (Hparse : ∀ z, parseInt (toString (Num z)) 0 = Num z).
    { intros z. rewrite <- (JsStringFacts.app_nil_r (toString (Num z))).
      apply parseInt_pretty; auto. }
    pose proof (λ z, resolve_index accounts account (toString (Num z)) z true
                       Hacc Hfind (Hparse z)) as Hres.
    split_and!.
    + apply (Hres k).
    + apply (Hres k).
    + apply (Hres 0). lia.
    + apply (Hres (n + 1)). fold n. lia.
    + done.
  - intros accounts ident Hacc Hnone. unfold resolveCalendarId.
    by rewrite Hacc, find_account_None.
  - intros ident Hacc. unfold resolveCalendarId. by rewrite Hacc.
Qed.

End Resolver.

Lemma resolveCalendarId_strict_witness :
  ∃ cal, calendars demo_account !! Z.to_nat (2 - 1) = Some cal
         ∧ resolveCalendarId demo_state 7 1 (toString (Num 2)) true
           = Return (resolved (cal_id cal)).
Proof.
  apply (proj1 (resolveCalendarId_strict demo_state 7 1) [demo_account]
           demo_account 2).
  - reflexivity.
  - reflexivity.
  - simpl. lia.
Defined.

(** C10.  An identifier counts as an index exactly when [parseInt] reads a
    number off its front: read as [k], it resolves to the [k]-th calendar
    for [1 <= k <= n] and is rejected as InvalidIndex by strict resolution
    otherwise; read as [NaN], it passes through unchanged.  [parseInt]
    reads the decimal numeral [k] off the front of any identifier that
    starts with it, as in ["2abc"]. *)
Theorem resolveCalendarId_numeric_prefix (st : State) (chatId acctId : Z)
    (accounts : list OAuthAccount) (account : OAuthAccount) (ident : string) :
  oauthAccounts st !! Num chatId = Some accounts →
  find_account accounts acctId = Some account →
  let n := Z.of_nat (List.length (calendars account)) in
  (∀ k, parseInt ident 0 = Num k →
     (1 ≤ k ≤ n →
      ∃ cal, calendars account !! Z.to_nat (k - 1) = Some cal
             ∧ ∀ isStrict,
                 resolveCalendarId st chatId acctId ident isStrict
                 = Return (resolved (cal_id cal)))
     ∧ (k < 1 ∨ n < k →
        resolveCalendarId st chatId acctId ident true
        = Return (failed (InvalidIndex n))))
  ∧ (parseInt ident 0 = NaN →
     ∀ isStrict,
       resolveCalendarId st chatId acctId ident isStrict
       = Return (resolved ident))
  ∧ (∀ k rest,
       digits_prefix 10 rest = [] → (k = 0 → starts_x rest = false) →
       parseInt (toString (Num k) +:+ rest) 0 = Num k)
  ∧ parseInt "2abc" 0 = Num 2.
Proof.
  intros Hacc Hfind n. split_and!.
  - intros k Hparse. split.
    + intros Hk.
      destruct (proj1 (resolve_index st chatId acctId accounts account ident k
                         true Hacc Hfind Hparse) Hk) as (cal & Hcal & _).
      exists cal. split; [done|]. intros isStrict.
      destruct (proj1 (resolve_index st chatId acctId accounts account ident k
                         isStrict Hacc Hfind Hparse) Hk) as (cal' & Hcal' & ->).
      congruence.
    + intros Hk.
      apply (proj2 (resolve_index st chatId acctId accounts account ident k
                      true Hacc Hfind Hparse) Hk).
  - intros Hparse isStrict. by apply resolve_not_numeric with accounts account.
  - intros k rest Hrest Hx. apply parseInt_pretty; auto.
  - reflexivity.
Qed.

Lemma resolveCalendarId_numeric_prefix_witness :
  ∃ cal, calendars demo_account !! Z.to_nat (2 - 1) = Some cal
         ∧ ∀ isStrict,
             resolveCalendarId demo_state 7 1 "2abc" isStrict
             = Return (resolved (cal_id cal)).
Proof.
  apply (proj1 (resolveCalendarId_numeric_prefix demo_state 7 1 [demo_account]
                  demo_account "2abc" eq_refl eq_refl) 2).
  - reflexivity.
  - simpl. lia.
Defined.

(** C4 (the claim fails on the code).  Non-strict resolution of an index
    outside the account's calendar range reads [.id] of [undefined] and
    raises, where the claim has it return the identifier; the other
    fallbacks of non-strict mode (unknown account, no registry entry,
    identifier that is no number) do return the identifier. *)
Theorem resolveCalendarId_nonstrict_raises :
  resolveCalendarId demo_state 7 1 "5" false = TypeError
  ∧ resolveCalendarId demo_state 7 1 "0" false = TypeError
  ∧ resolveCalendarId demo_state 7 2 "5" false = Return (resolved "5")
  ∧ resolveCalendarId demo_state 8 1 "5" false = Return (resolved "5")
  ∧ resolveCalendarId demo_state 7 1 "work" false = Return (resolved "work").
Proof. by split_and!. Qed.

(** What non-strict resolution does in general: it returns the identifier
    when the registry entry or the account is missing or the identifier is
    no number, and raises on every index out of range. *)
Lemma resolveCalendarId_nonstrict (st : State) (chatId acctId : Z)
    (ident : string) :
  match oauthAccounts st !! Num chatId ≫= λ accounts,
          find_account accounts acctId with
  | None =>
      resolveCalendarId st chatId acctId ident false = Return (resolved ident)
  | Some account =>
      match parseInt ident 0 with
      | NaN =>
          resolveCalendarId st chatId acctId ident false
          = Return (resolved ident)
      | Num k =>
          (k < 1 ∨ Z.of_nat (List.length (calendars account)) < k) →
          resolveCalendarId st chatId acctId ident false = TypeError
      end
  end.
Proof.
  destruct (oauthAccounts st !! Num chatId) as [accounts|] eqn:Hacc; simpl.
  - destruct (find_account accounts acctId) as [account|] eqn:Hfind.
    + destruct (parseInt ident 0) as [|k] eqn:Hparse.
      * by apply resolve_not_numeric with accounts account.
      * intros Hk.
        apply (proj2 (resolve_index st chatId acctId accounts account ident k
                        false Hacc Hfind Hparse) Hk).
    + unfold resolveCalendarId. by rewrite Hacc, Hfind.
  - unfold resolveCalendarId. by rewrite Hacc.
Qed.

(** ** The session state machine *)

Section Session.

Variable env : Env.

(** Which handler a message reaches. *)
Lemma prefix_split (p s : string) :
  String.prefix p s = true → ∃ rest, s = p +:+ rest.
Proof.
  revert s. induction p as [|a p IH]; intros s Hp.
  - by exists s.
  - destruct s as [|b s]; [done|]. rewrite prefix_cons in Hp.
    destruct (ascii_dec a b) as [->|]; [|done].
    destruct (IH s Hp) as [rest ->]. by exists rest.
Qed.

Lemma on_message_edit (st : State) (chatId : Z) (text : string) :
  JsString.startsWith text "/edit" = true →
  on_message env st chatId text = Return (on_edit env st chatId text).
Proof.
  intros Hp. destruct (prefix_split _ _ Hp) as [rest ->].
  unfold on_message, JsString.startsWith. cbv [String.append].
  rewrite !prefix_cons. simpl. by destruct rest.
Qed.


Lemma on_message_description (st : State) (chatId : Z) (text : string) :
  text ≠ "" → JsString.startsWith text "/" = false →
  on_message env st chatId text = Return (on_description env st chatId text).
Proof.
  intros Hne Hp. destruct text as [|a r]; [done|].
  unfold JsString.startsWith in Hp. rewrite prefix_cons in Hp.
  unfold on_message, JsString.startsWith. rewrite !prefix_cons.
  destruct (ascii_dec "/" a); [by destruct r|done].
Qed.

(** C5.  [/edit] with an empty delta leaves every map as it was and sends
    the notice asking for the changes; [/edit] with a delta whose
    extraction fails leaves every map as it was, the session with its
    candidates, original text, trace and edit history included, and sends
    an error notice.  The maps change only when the extraction succeeds. *)
Theorem edit_is_atomic (st : State) (chatId : Z) (text : string) :
  JsString.startsWith text "/edit" = true →
  (latest_edit text = "" →
   on_message env st chatId text
   = Return (st, [say chatId
                    "Please provide the update changes after the /edit command."]))
  ∧ (∀ pending e,
       latest_edit text ≠ "" →
       pendingEvents st !! chatId = Some pending →
       parseEventDescription env st
         (combined_description pending (latest_edit text)) chatId = Throw e →
       on_message env st chatId text
       = Return (st, [say chatId
                        "Error parsing updated event description. Please try again."]))
  ∧ (∀ st' effects,
       on_message env st chatId text = Return (st', effects) →
       st' = st
       ∨ ∃ pending events jsonProposal,
           pendingEvents st !! chatId = Some pending
           ∧ latest_edit text ≠ ""
           ∧ parseEventDescription env st
               (combined_description pending (latest_edit text)) chatId
             = Ok (events, jsonProposal)
           ∧ st' = set_pendingEvents st
                     (<[chatId := edited_session pending (latest_edit text)
                                    events jsonProposal]> (pendingEvents st))).
Proof.
  intros Hp. rewrite on_message_edit by done. unfold on_edit. split_and!.
  - intros ->. done.
  - intros pending e Hne Hpending Hthrow.
    destruct (String.eqb_spec (latest_edit text) ""); [done|].
    by rewrite Hpending, Hthrow.
  - intros st' effects.
    destruct (String.eqb_spec (latest_edit text) "") as [|Hne].
    { intros [= <- _]. by left. }
    destruct (pendingEvents st !! chatId) as [pending|] eqn:Hpending.
    2: { intros [= <- _]. by left. }
    destruct (parseEventDescription env st _ chatId) as [[events json]|e]
      eqn:Hparse.
    + intros [= <- _]. right. by exists pending, events, json.
    + intros [= <- _]. by left.
Qed.

(** C2.  A message that does not start with ['/'], arriving while a session
    exists: the extraction is run on the maps without that session, so
    its prompt carries no previous proposal; when the extraction succeeds
    the session becomes the new candidates with the new text, an empty
    edit history and the new JSON alone as trace; and the outcome does
    not depend on what the old session held. *)
Theorem description_replaces_session (st : State) (chatId : Z) (text : string)
    (old : PendingEvents) :
  text ≠ "" → JsString.startsWith text "/" = false →
  pendingEvents st !! chatId = Some old →
  let st1 := set_pendingEvents st (delete chatId (pendingEvents st)) in
  parseEventDescription env st1 text chatId
  = generate_and_parse env
      (build_prompt env
         (buildAccountsAndCalendarsMessage st
            (default [] (oauthAccounts st !! Num chatId)) chatId false true)
         "" text)
  ∧ (∀ events jsonProposal,
       parseEventDescription env st1 text chatId = Ok (events, jsonProposal) →
       ∃ st' effects,
         on_message env st chatId text = Return (st', effects)
         ∧ pendingEvents st' !! chatId
           = Some {| events := events; originalText := text;
                     previousJSONProposal := Some jsonProposal;
                     editHistory := Some "" |}
         ∧ (∀ other, other ≠ chatId →
              pendingEvents st' !! other = pendingEvents st !! other)
         ∧ oauthAccounts st' = oauthAccounts st
         ∧ disabledCalendars st' = disabledCalendars st
         ∧ pendingOAuth st' = pendingOAuth st)
  ∧ (∀ e,
       parseEventDescription env st1 text chatId = Throw e →
       on_message env st chatId text
       = Return (st1, [say chatId
                         "Error parsing event description. Please ensure your description is clear and try again."])
       ∧ pendingEvents st1 !! chatId = None)
  ∧ (∀ other_old,
       on_message env
         (set_pendingEvents st (<[chatId := other_old]> (pendingEvents st)))
         chatId text
       = on_message env st chatId text).
Proof.
  intros Hne Hp Hold st1. split_and!.
  - unfold parseEventDescription, st1. simpl.
    by rewrite lookup_delete_eq.
  - intros events json Hparse. rewrite on_message_description by done.
    unfold on_description. fold st1. rewrite Hparse.
    eexists _, _. split; [done|]. simpl. split_and!; try done.
    + by rewrite lookup_insert_eq.
    + intros other Hother.
      by rewrite lookup_insert_ne, lookup_delete_ne.
  - intros e Hparse. rewrite on_message_description by done.
    unfold on_description. fold st1. rewrite Hparse.
    split; [done|]. apply lookup_delete_eq.
  - intros other_old. rewrite !on_message_description by done.
    unfold on_description, set_pendingEvents. simpl.
    by rewrite delete_insert_eq.
Qed.

End Session.

Lemma edit_is_atomic_witness :
  on_message demo_env demo_state 7 "/edit make it 1pm"
  = Return (demo_state,
            [say 7 "Error parsing updated event description. Please try again."]).
Proof.
  apply (proj1 (proj2 (edit_is_atomic demo_env demo_state 7 "/edit make it 1pm"
                         eq_refl)) demo_session ExtractionExhausted).
  - discriminate.
  - reflexivity.
  - reflexivity.
Defined.

Lemma description_replaces_session_witness :
  ∃ st' effects,
    on_message demo_env_ok demo_state 7 "dinner on friday at 7pm"
    = Return (st', effects)
    ∧ pendingEvents st' !! 7
      = Some {| events := array_of [demo_event];
                originalText := "dinner on friday at 7pm";
                previousJSONProposal := Some "[new]";
                editHistory := Some "" |}
    ∧ (∀ other, other ≠ 7 →
         pendingEvents st' !! other = pendingEvents demo_state !! other)
    ∧ oauthAccounts st' = oauthAccounts demo_state
    ∧ disabledCalendars st' = disabledCalendars demo_state
    ∧ pendingOAuth st' = pendingOAuth demo_state.
Proof.
  apply (proj1 (proj2 (description_replaces_session demo_env_ok demo_state 7
                         "dinner on friday at 7pm" demo_session
                         ltac:(discriminate) eq_refl eq_refl))).
  vm_compute. reflexivity.
Defined.

(** ** Persistence *)

Section Persistence.

Lemma fold_left_insert {K V A} `{Countable K} (f : A → K * V) (l : list A)
    (m0 : gmap K V) :
  fold_left (λ m p, <[(f p).1 := (f p).2]> m) l m0
  = list_to_map (reverse (f <$> l)) ∪ m0.
Proof.
  revert m0. induction l as [|a l IH]; intros m0; simpl.
  - by rewrite (left_id_L ∅ (∪)).
  - rewrite IH, reverse_cons, list_to_map_app.
    destruct (f a) as [k v]. simpl.
    rewrite <- (assoc_L (∪)). f_equal.
    by rewrite insert_empty, <- insert_union_singleton_l.
Qed.

Lemma fold_left_insert_perm {K V A} `{Countable K} (f : A → K * V)
    (l : list A) (m : gmap K V) :
  f <$> l ≡ₚ map_to_list m →
  fold_left (λ m p, <[(f p).1 := (f p).2]> m) l ∅ = m.
Proof.
  intros Hperm. rewrite fold_left_insert, (right_id_L ∅ (∪)).
  rewrite <- (list_to_map_to_list m). symmetry.
  apply list_to_map_proper; [apply NoDup_fst_map_to_list|].
  by rewrite reverse_Permutation.
Qed.

Lemma load_chat_accounts (data : CacheData) (st : State) :
  oauthAccounts (fold_left load_chat data st)
  = fold_left (λ m p, <[(entry_accounts p).1 := (entry_accounts p).2]> m)
      data (oauthAccounts st).
Proof. revert st. induction data as [|p data IH]; intros st; [done|apply IH]. Qed.

Lemma load_chat_disabled (data : CacheData) (st : State) :
  disabledCalendars (fold_left load_chat data st)
  = fold_left (λ m p, <[(entry_disabled p).1 := (entry_disabled p).2]> m)
      data (disabledCalendars st).
Proof. revert st. induction data as [|p data IH]; intros st; [done|apply IH]. Qed.

Lemma load_chat_sessions (data : CacheData) (st : State) :
  pendingEvents (fold_left load_chat data st) = pendingEvents st
  ∧ pendingOAuth (fold_left load_chat data st) = pendingOAuth st.
Proof.
  revert st. induction data as [|p data IH]; intros st; [done|].
  simpl. by destruct (IH (load_chat st p)) as [-> ->].
Qed.

(** Rendering a key and parsing it back. *)
Lemma parseInt_toString (n : number) (radix : Z) :
  radix = 0 ∨ radix = 10 → parseInt (toString n) radix = n.
Proof.
  intros Hradix. destruct n as [|z].
  - by destruct Hradix as [-> | ->].
  - unfold toString. rewrite <- (JsStringFacts.app_nil_r (pretty z)).
    by apply parseInt_pretty.
Qed.

Lemma load_account_data (account : OAuthAccount) :
  load_account (account_data account) = account.
Proof. by destruct account as [? ? [?] ?]. Qed.

Lemma fmap_Forall2_eq {A B C} (f : A → C) (g : B → C) (l : list A)
    (k : list B) :
  Forall2 (λ x y, f x = g y) l k → f <$> l = g <$> k.
Proof. induction 1 as [|x y l k E _ IH]; [done|]. by rewrite !fmap_cons, E, IH. Qed.

(** A section that is the saved image of a disabled set, up to order, loads
    back as that set. *)
Lemma load_section (d : gmap number (gset string))
    (section : list (string * option (list string))) :
  same_section section (disabled_section d) →
  load_disabled (Some section) = d.
Proof.
  intros (mid & Hperm & Hall). unfold load_disabled.
  apply (fold_left_insert_perm section_entry).
  rewrite Hperm.
  rewrite (fmap_Forall2_eq section_entry section_entry mid (disabled_section d)).
  - apply reflexive_eq. unfold disabled_section. rewrite <- list_fmap_compose.
    rewrite <- (list_fmap_id (map_to_list d)) at 2.
    apply list_fmap_ext. intros i [a X] _. simpl.
    unfold section_entry. simpl.
    by rewrite parseInt_toString, list_to_set_elements_L by auto.
  - eapply Forall2_impl; [exact Hall|]. intros [k a] [k' a'] [Hk Ha].
    simpl in *. subst k'. unfold section_entry. simpl. f_equal.
    destruct Ha as [arr arr' Harr|]; [|done]. by rewrite Harr.
Qed.

Lemma same_props_nil {V} (R : V → V → Prop) (l : list (string * V)) :
  same_props R l [] → l = [].
Proof.
  intros (mid & Hperm & Hall). apply Forall2_nil_inv_r in Hall. subst mid.
  by apply Permutation_nil_r.
Qed.

Lemma same_props_refl {V} (R : V → V → Prop) (l : list (string * V)) :
  (∀ v, R v v) → same_props R l l.
Proof.
  intros HR. exists l. split; [done|].
  apply Forall_Forall2_diag, Forall_forall. auto.
Qed.

Lemma same_record_refl (data : CacheData) : same_record data data.
Proof.
  apply same_props_refl. intros c. split; [done|].
  destruct (cd_disabledCalendars c) as [section|]; constructor.
  apply same_props_refl. intros [arr|]; by constructor.
Qed.

(** The entries of a record that is the saved image of a state, up to
    order, are the entries of the state's maps. *)
Lemma saved_entries (st : State) (data : CacheData) :
  same_record data (saveAuthCache st) →
  entry_accounts <$> data ≡ₚ map_to_list (oauthAccounts st)
  ∧ entry_disabled <$> data
    ≡ₚ (λ e, (e.1, default ∅ (disabledCalendars st !! e.1)))
       <$> map_to_list (oauthAccounts st).
Proof.
  intros (mid & Hperm & Hall). rewrite Hperm. unfold saveAuthCache in Hall.
  apply Forall2_fmap_r in Hall. split.
  - rewrite (fmap_Forall2_eq entry_accounts id mid
               (map_to_list (oauthAccounts st))); [by rewrite list_fmap_id|].
    eapply Forall2_impl; [exact Hall|].
    intros [k cd] [c accs] (Hk & Hacc & _). simpl in *. subst k.
    unfold entry_accounts. simpl. rewrite Hacc. simpl.
    rewrite parseInt_toString by auto. f_equal.
    rewrite <- list_fmap_compose. rewrite <- (list_fmap_id accs) at 2.
    apply list_fmap_ext. intros i a _. apply load_account_data.
  - apply reflexive_eq, fmap_Forall2_eq.
    eapply Forall2_impl; [exact Hall|].
    intros [k cd] [c accs] (Hk & _ & Hsec). simpl in *. subst k.
    unfold entry_disabled. simpl. rewrite parseInt_toString by auto. f_equal.
    inversion Hsec as [section saved Hsame Hcd Hsaved|]; subst.
    destruct (disabledCalendars st !! c) as [d|]; simpl.
    + by apply load_section.
    + by rewrite (same_props_nil _ _ Hsame).
Qed.

(** Loading, into a process that holds nothing, a record that a state
    wrote: the accounts come back as they were, and every conversation
    with accounts gets the disabled sets it had. *)
Lemma load_saved (st : State) (data : CacheData) :
  same_record data (saveAuthCache st) →
  let st' := loadAuthCache empty_state (Some data) in
  oauthAccounts st' = oauthAccounts st
  ∧ (∀ c, disabledCalendars st' !! c
          = (λ _, default ∅ (disabledCalendars st !! c))
            <$> oauthAccounts st !! c)
  ∧ pendingEvents st' = ∅ ∧ pendingOAuth st' = ∅.
Proof.
  intros Hsame st'. destruct (saved_entries st data Hsame) as [Hacc Hdis].
  unfold st', loadAuthCache.
  destruct (load_chat_sessions data empty_state) as [-> ->].
  rewrite load_chat_accounts, load_chat_disabled.
  change (oauthAccounts empty_state)
    with (∅ : gmap number (list OAuthAccount)).
  change (disabledCalendars empty_state)
    with (∅ : gmap number (gmap number (gset string))).
  split_and!; try done.
  - by apply (fold_left_insert_perm entry_accounts).
  - intros c. rewrite (fold_left_insert entry_disabled), (right_id_L ∅ (∪)).
    set (f := λ e : number * list OAuthAccount,
                (e.1, default ∅ (disabledCalendars st !! e.1))) in *.
    assert (Hkeys : (f <$> map_to_list (oauthAccounts st)).*1
                    = (map_to_list (oauthAccounts st)).*1).
    { rewrite <- list_fmap_compose. by apply list_fmap_ext. }
    rewrite (list_to_map_proper _ (f <$> map_to_list (oauthAccounts st))).
    2: { rewrite reverse_Permutation, Hdis, Hkeys.
         apply NoDup_fst_map_to_list. }
    2: { by rewrite reverse_Permutation. }
    destruct (oauthAccounts st !! c) as [accs|] eqn:Hc; simpl.
    + apply elem_of_list_to_map; [rewrite Hkeys; apply NoDup_fst_map_to_list|].
      apply list_elem_of_fmap. exists (c, accs). split; [done|].
      by apply elem_of_map_to_list.
    + apply not_elem_of_list_to_map. rewrite Hkeys.
      intros Hin. apply list_elem_of_fmap in Hin as ([c' accs] & -> & Hin).
      apply elem_of_map_to_list in Hin. simpl in Hc. congruence.
Qed.

Lemma fold_left_insert_other {K V A} `{Countable K} (f : A → K * V)
    (l : list A) (m0 : gmap K V) (k : K) :
  (∀ p, p ∈ l → (f p).1 ≠ k) →
  fold_left (λ m p, <[(f p).1 := (f p).2]> m) l m0 !! k = m0 !! k.
Proof.
  revert m0. induction l as [|a l IH]; intros m0 Hall; simpl; [done|].
  rewrite IH by (intros p Hp; apply Hall; by right).
  apply lookup_insert_ne, Hall. by left.
Qed.

End Persistence.

(** ** Confirmation and the commit executor *)

Section Commit.

Variable env : Env.

Lemma is_disabled_spec (st : State) (chatId acctId : Z) (calId : string) :
  is_disabled st chatId acctId calId
  = bool_decide (calId ∈ disabled_set st chatId acctId).
Proof.
  unfold is_disabled, disabled_set.
  destruct (disabledCalendars st !! Num chatId) as [userDisabled|]; simpl.
  - destruct (userDisabled !! Num acctId) as [set|]; simpl; [done|].
    symmetry. by apply bool_decide_eq_false_2, not_elem_of_empty.
  - rewrite lookup_empty. simpl.
    symmetry. by apply bool_decide_eq_false_2, not_elem_of_empty.
Qed.

(** One candidate: the insert it leads to, and its one notice. *)
Lemma addEventToCalendar_attempts (st : State) (chatId : Z)
    (eventData : CalendarEvent) :
  attempts (addEventToCalendar env st chatId eventData)
  = option_list (insert_attempt env st chatId eventData)
  ∧ ∃ notice, notices (addEventToCalendar env st chatId eventData) = [notice].
Proof.
  unfold addEventToCalendar, insert_attempt.
  destruct (target_account st chatId eventData) as [account|]; [|by eauto].
  rewrite is_disabled_spec.
  destruct (bool_decide _); [by eauto|].
  destruct (events_insert env _ _ _); by eauto.
Qed.

Lemma attempts_app (l k : list Effect) :
  attempts (l ++ k) = attempts l ++ attempts k.
Proof. apply omap_app. Qed.

Lemma add_all_attempts (st : State) (chatId : Z) (evs : list CalendarEvent) :
  attempts (add_all env st chatId evs)
  = omap (insert_attempt env st chatId) evs.
Proof.
  unfold add_all. induction evs as [|ev evs IH]; [done|].
  rewrite fmap_cons. simpl concat. rewrite attempts_app, IH.
  rewrite (proj1 (addEventToCalendar_attempts st chatId ev)). simpl.
  by destruct (insert_attempt env st chatId ev).
Qed.

End Commit.

(** ** Loops over the stored candidates *)

Section Loops.

Lemma for_each_spec (body : CalendarEvent → list Effect)
    (items : list (option CalendarEvent)) :
  for_each body items
  = (concat (body <$> before_null items),
     forallb (λ item, bool_decide (is_Some item)) items).
Proof.
  induction items as [|[eventData|] items IH]; [done| |done].
  simpl. by rewrite IH.
Qed.

Lemma for_of_spec (body : CalendarEvent → list Effect)
    (events : ParsedEvents) :
  for_of body events = (concat (body <$> candidates events), iterable events).
Proof. destruct events as [items|]; [apply for_each_spec|done]. Qed.

Lemma before_null_array (evs : list CalendarEvent) :
  before_null (Some <$> evs) = evs.
Proof.
  induction evs as [|ev evs IH]; [done|]. rewrite fmap_cons. simpl.
  by rewrite IH.
Qed.

Lemma candidates_array (evs : list CalendarEvent) :
  candidates (array_of evs) = evs.
Proof. apply before_null_array. Qed.

Lemma iterable_array (evs : list CalendarEvent) :
  iterable (array_of evs) = true.
Proof.
  unfold array_of. simpl. induction evs as [|ev evs IH]; [done|].
  by rewrite fmap_cons.
Qed.

Lemma before_null_split (before : list CalendarEvent)
    (after : list (option CalendarEvent)) :
  before_null ((Some <$> before) ++ None :: after) = before.
Proof.
  induction before as [|ev evs IH]; [done|]. rewrite fmap_cons. simpl.
  by rewrite IH.
Qed.

Lemma not_iterable_split (before : list CalendarEvent)
    (after : list (option CalendarEvent)) :
  iterable (EventArray ((Some <$> before) ++ None :: after)) = false.
Proof.
  simpl. induction before as [|ev evs IH]; [done|]. by rewrite fmap_cons.
Qed.



Lemma formatEventsReply_returns (events : ParsedEvents) (message : string) :
  iterable events = true ↔ ∃ reply, formatEventsReply events message = Return reply.
Proof.
  destruct events as [items|]; simpl.
  2: { split; [done|]. by intros [? ?]. }
  assert (H : ∀ index,
            forallb (λ item, bool_decide (is_Some item)) items = true
            ↔ ∃ blocks, event_blocks index items = Return blocks).
  { induction items as [|[evt|] items IH]; intros index; simpl.
    - split; [by eauto|done].
    - rewrite (IH (S index)).
      destruct (event_blocks (S index) items); split; intros [? ?];
        by eauto.
    - split; [done|]. by intros [? ?]. }
  rewrite (H 0%nat). destruct (event_blocks 0 items); split; intros [? ?];
    by eauto.
Qed.

(** The Confirm action on a session, by what the loop does. *)
Lemma confirm_action (env : Env) (st : State) (chatId : Z) (id : string)
    (pending : PendingEvents) :
  pendingEvents st !! chatId = Some pending →
  on_callback_query env st id (Some "confirm") (Some chatId)
  = if iterable (events pending)
    then (set_pendingEvents st (delete chatId (pendingEvents st)),
          add_all env st chatId (candidates (events pending))
          ++ [say chatId "Events confirmed and added to your calendar.";
              answerCallbackQuery id])
    else (st, add_all env st chatId (candidates (events pending))
              ++ [unhandledRejection]).
Proof.
  intros Hpending. unfold on_callback_query. simpl. rewrite Hpending.
  by rewrite for_of_spec.
Qed.

Lemma confirm_action_attempts (env : Env) (st : State) (chatId : Z)
    (id : string) (pending : PendingEvents) :
  pendingEvents st !! chatId = Some pending →
  attempts (on_callback_query env st id (Some "confirm") (Some chatId)).2
  = omap (insert_attempt env st chatId) (candidates (events pending)).
Proof.
  intros Hpending. rewrite (confirm_action env st chatId id pending Hpending).
  destruct (iterable (events pending)); simpl;
    rewrite attempts_app, add_all_attempts; simpl; apply List.app_nil_r.
Qed.

End Loops.




(** C9.  The commit-time guard looks up the candidate's calendar string as
    it stands, ["primary"] when the field is unset, in the account's
    disabled set: the candidate is skipped exactly when that string is in
    the set.  A candidate with no calendar, or with ["primary"], is
    therefore inserted into ["primary"] whatever real calendar ids the set
    holds, as long as it does not hold the string ["primary"]. *)
Theorem disabled_guard_is_literal (env : Env) (st : State) (chatId : Z)
    (eventData : CalendarEvent) (account : OAuthAccount) :
  target_account st chatId eventData = Some account →
  let literal := or_string (calendar eventData) "primary" in
  let disabledSet := disabled_set st chatId (accountId account) in
  (literal ∈ disabledSet →
   addEventToCalendar env st chatId eventData
   = [say chatId ("Calendar " +:+ literal +:+ " for Account "
                  +:+ toString (Num (accountId account))
                  +:+ " is currently disabled. Skipping event: "
                  +:+ title eventData)])
  ∧ (literal ∉ disabledSet →
     attempts (addEventToCalendar env st chatId eventData)
     = [(oauth2Client account, literal, event_body env eventData)])
  ∧ (calendar eventData = None ∨ calendar eventData = Some "primary" →
     "primary" ∉ disabledSet →
     attempts (addEventToCalendar env st chatId eventData)
     = [(oauth2Client account, "primary", event_body env eventData)]).
Proof.
  intros Htarget literal disabledSet.
  assert (Hskip : literal ∈ disabledSet →
                  addEventToCalendar env st chatId eventData
                  = [say chatId ("Calendar " +:+ literal +:+ " for Account "
                                 +:+ toString (Num (accountId account))
                                 +:+ " is currently disabled. Skipping event: "
                                 +:+ title eventData)]).
  { intros Hin. unfold addEventToCalendar. rewrite Htarget, is_disabled_spec.
    fold literal disabledSet. by rewrite bool_decide_eq_true_2. }
  assert (Hgo : literal ∉ disabledSet →
                attempts (addEventToCalendar env st chatId eventData)
                = [(oauth2Client account, literal, event_body env eventData)]).
  { intros Hout.
    rewrite (proj1 (addEventToCalendar_attempts env st chatId eventData)).
    unfold insert_attempt. rewrite Htarget. fold literal disabledSet.
    by rewrite bool_decide_eq_false_2. }
  split_and!; [done..|].
  intros Hcal Hprimary.
  assert (literal = "primary") as Hlit
    by (unfold literal; by destruct Hcal as [-> | ->]).
  rewrite Hlit in Hgo. by apply Hgo.
Qed.

Lemma disabled_guard_is_literal_witness :
  (cal_id <$> head (calendars demo_account)) = Some "ada@example.com"
  ∧ "ada@example.com" ∈ disabled_set demo_state 7 1
  ∧ attempts (addEventToCalendar demo_env demo_state 7 demo_event)
    = [(oauth2Client demo_account, "primary", event_body demo_env demo_event)].
Proof.
  split; [reflexivity|]. split; [by vm_compute|].
  apply (proj2 (proj2 (disabled_guard_is_literal demo_env demo_state 7
                         demo_event demo_account eq_refl))).
  - by left.
  - by vm_compute.
Defined.

(** C9 as the claim words it does not hold for every candidate: once
    [/disable 1 primary] has put the string ["primary"] into the set, a
    candidate with no calendar is skipped. *)
Lemma primary_itself_disabled :
  on_message demo_env demo_state 7 "/disable 1 primary"
  = Return (demo_primary_disabled,
            [say 7 "Calendar primary for account 1 has been disabled.";
             writeAuthCache (saveAuthCache demo_primary_disabled)])
  ∧ target_account demo_primary_disabled 7 demo_event = Some demo_account
  ∧ calendar demo_event = None
  ∧ addEventToCalendar demo_env demo_primary_disabled 7 demo_event
    = [say 7 "Calendar primary for Account 1 is currently disabled. Skipping event: Lunch"]
  ∧ ¬ (∀ env st chatId eventData account,
         target_account st chatId eventData = Some account →
         calendar eventData = None ∨ calendar eventData = Some "primary" →
         attempts (addEventToCalendar env st chatId eventData)
         = [(oauth2Client account, "primary", event_body env eventData)]).
Proof.
  split_and!; [by vm_compute..|].
  intros Hclaim.
  specialize (Hclaim demo_env demo_primary_disabled 7 demo_event demo_account
                eq_refl (or_introl eq_refl)).
  vm_compute in Hclaim. discriminate Hclaim.
Qed.

(** ** Account numbering *)

Section Numbering.

Lemma well_numbered_snoc (accounts : list OAuthAccount) (new : OAuthAccount) :
  well_numbered accounts →
  accountId new = Z.of_nat (List.length accounts) + 1 →
  well_numbered (accounts ++ [new]).
Proof.
  intros Hwn Hid i account Hi.
  destruct (decide (i < List.length accounts)%nat) as [Hlt|Hge].
  - rewrite lookup_app_l in Hi by done. by apply Hwn.
  - rewrite lookup_app_r in Hi by lia.
    destruct (i - List.length accounts)%nat as [|j] eqn:Hj; [|done].
    injection Hi as <-. rewrite Hid. f_equal. lia.
Qed.

(** What a message does to the accounts: nothing, or [/clear]. *)
Lemma on_message_accounts (env : Env) (st st' : State) (chatId : Z)
    (text : string) (effects : list Effect) :
  on_message env st chatId text = Return (st', effects) →
  oauthAccounts st' = oauthAccounts st
  ∨ oauthAccounts st' = delete (Num chatId) (oauthAccounts st).
Proof.
  unfold on_message, on_disable, on_enable, on_auth, on_confirm, on_edit,
    on_clear, on_calendars, on_description.
  intros Hrun. repeat case_match; simplify_eq; auto.
Qed.

Lemma on_callback_query_accounts (env : Env) (st : State) (id : string)
    (data : option string) (message : option Z) :
  oauthAccounts (on_callback_query env st id data message).1
  = oauthAccounts st.
Proof. unfold on_callback_query. by repeat case_match. Qed.

(** What the authorization callback does to the accounts: nothing, or one
    more account at the end of the conversation's list, numbered one past
    the number of accounts there were. *)
Lemma on_oauth2callback_accounts (st : State) (state : string)
    (outcome : OAuthOutcome) :
  oauthAccounts (on_oauth2callback st state outcome).1 = oauthAccounts st
  ∨ ∃ chatId new,
      oauthAccounts (on_oauth2callback st state outcome).1
      = <[chatId := default [] (oauthAccounts st !! chatId) ++ [new]]>
          (oauthAccounts st)
      ∧ accountId new
        = Z.of_nat (List.length (default [] (oauthAccounts st !! chatId))) + 1.
Proof.
  unfold on_oauth2callback.
  destruct (split_colon state) as [|part0 [|part1 parts]]; [by left..|].
  destruct (pendingOAuth st !! state) as [pending|]; [|by left].
  destruct outcome as [|tokens|tokens cals mail]; [by left..|].
  right. by eexists _, _.
Qed.

Lemma step_numbered (env : Env) (st : State) (i : Input) :
  registry_numbered st → registry_numbered (step env st i).1.
Proof.
  intros Hst c accounts. destruct i as [chatId text|id data message|state outcome];
    simpl.
  - destruct (on_message env st chatId text) as [[st' effects]|] eqn:Hrun;
      simpl; [|apply Hst].
    destruct (on_message_accounts _ _ _ _ _ _ Hrun) as [-> | ->].
    + apply Hst.
    + intros Hc. apply lookup_delete_Some in Hc as [_ Hc]. by eapply Hst.
  - rewrite on_callback_query_accounts. apply Hst.
  - destruct (on_oauth2callback_accounts st state outcome)
      as [-> | (chatId & new & -> & Hid)]; [apply Hst|].
    destruct (decide (chatId = c)) as [->|Hne].
    + rewrite lookup_insert_eq. intros [= <-].
      apply well_numbered_snoc; [|done].
      destruct (oauthAccounts st !! c) as [existing|] eqn:Hc; simpl.
      * by eapply Hst.
      * intros i account Hi. by rewrite lookup_nil in Hi.
    + rewrite lookup_insert_ne by done. apply Hst.
Qed.

Lemma reachable_numbered (st : State) :
  reachable st → registry_numbered st.
Proof.
  induction 1 as [|env st i _ IH|st data _ IH Hsame].
  - intros c accounts Hc. simpl in Hc. by rewrite lookup_empty in Hc.
  - by apply step_numbered.
  - intros c accounts.
    destruct (load_saved st data Hsame) as (-> & _). apply IH.
Qed.

Lemma reachable_run (env : Env) (st : State) (inputs : list Input) :
  reachable st → reachable (run env st inputs).
Proof.
  revert st. induction inputs as [|i inputs IH]; intros st Hst; [done|].
  apply IH. by constructor.
Qed.

End Numbering.

(** C8.  Every registration appends an account numbered one past the
    number of accounts the conversation has; and in every state the
    process can reach, by any sequence of messages, button presses,
    registrations and restarts, the account at position [i] (from 0) of a
    conversation's list has account id [i + 1]. *)
Theorem account_ids_sequential :
  (∀ st state pending tokens cals mail part0 part1 parts,
     split_colon state = part0 :: part1 :: parts →
     pendingOAuth st !! state = Some pending →
     let chatId := parseInt part0 10 in
     let existing := default [] (oauthAccounts st !! chatId) in
     ∃ new,
       oauthAccounts
         (on_oauth2callback st state (Authorized tokens cals mail)).1
       !! chatId = Some (existing ++ [new])
       ∧ accountId new = Z.of_nat (List.length existing) + 1)
  ∧ (∀ st, reachable st →
       ∀ c accounts (i : nat) account,
         oauthAccounts st !! c = Some accounts →
         accounts !! i = Some account →
         accountId account = Z.of_nat i + 1).
Proof.
  split.
  - intros st state pending tokens cals mail part0 part1 parts Hsplit Hpending
      chatId existing.
    unfold on_oauth2callback. rewrite Hsplit, Hpending. simpl.
    eexists. split; [apply lookup_insert_eq|done].
  - intros st Hreach c accounts i account Hc Hi.
    by apply (reachable_numbered st Hreach c accounts).
Qed.

Lemma account_ids_sequential_witness :
  oauthAccounts (run demo_env empty_state demo_inputs) !! Num 7
  = Some [demo_account; demo_second]
  ∧ accountId demo_second = Z.of_nat 1 + 1.
Proof.
  split; [by vm_compute|].
  apply (proj2 account_ids_sequential (run demo_env empty_state demo_inputs)
           (reachable_run _ _ _ reachable_empty) (Num 7)
           [demo_account; demo_second] 1%nat demo_second).
  - by vm_compute.
  - reflexivity.
Defined.

(** ** The registry across handlers *)

Section Registry.

Lemma resolve_success_registry (st : State) (chatId acctId : Z)
    (ident : string) (result : Resolved) :
  resolveCalendarId st chatId acctId ident true = Return result →
  success result = true →
  is_Some (oauthAccounts st !! Num chatId).
Proof.
  unfold resolveCalendarId.
  destruct (oauthAccounts st !! Num chatId) as [accounts|]; [by eauto|].
  by intros [= <-].
Qed.

Lemma on_disable_registry (st st' : State) (chatId : Z) (text : string)
    (effects : list Effect) :
  on_disable st chatId text = Return (st', effects) →
  registry_change st st' chatId.
Proof.
  unfold on_disable. intros Hrun. left.
  repeat case_match; simplify_eq; simpl; try (split; [done|by left]).
  split; [done|]. right. split; [|by eexists].
  eapply resolve_success_registry; [done|].
  by destruct (success _).
Qed.

Lemma on_enable_registry (st st' : State) (chatId : Z) (text : string)
    (effects : list Effect) :
  on_enable st chatId text = Return (st', effects) →
  registry_change st st' chatId.
Proof.
  unfold on_enable. intros Hrun. left.
  repeat case_match; simplify_eq; simpl; try (split; [done|by left]).
  all: split; [done|]; right; split; [|by eexists].
  all: eapply resolve_success_registry; [done|]; by destruct (success _).
Qed.

Lemma on_message_registry (env : Env) (st st' : State) (chatId : Z)
    (text : string) (effects : list Effect) :
  on_message env st chatId text = Return (st', effects) →
  registry_change st st' chatId.
Proof.
  unfold on_message. intros Hrun.
  repeat case_match; simplify_eq;
    eauto using on_disable_registry, on_enable_registry.
  all: try (left; split; [done|by left]).
  all: unfold on_auth, on_confirm, on_edit, on_clear, on_calendars,
         on_description in *;
       repeat case_match; simplify_eq; simpl;
       try (left; split; [done|by left]).
  right. by split.
Qed.

Lemma step_disabled_within (env : Env) (st : State) (i : Input) :
  disabled_within_accounts st → disabled_within_accounts (step env st i).1.
Proof.
  intros Hst c. destruct i as [chatId text|id data message|state outcome];
    simpl.
  - destruct (on_message env st chatId text) as [[st' effects]|] eqn:Hrun;
      simpl; [|apply Hst].
    destruct (on_message_registry _ _ _ _ _ _ Hrun)
      as [[-> [-> |[Hsome [d ->]]]]|[-> ->]].
    + apply Hst.
    + destruct (decide (Num chatId = c)) as [<-|Hne].
      * done.
      * rewrite lookup_insert_ne by done. apply Hst.
    + destruct (decide (Num chatId = c)) as [<-|Hne].
      * by rewrite lookup_delete_eq; intros [? ?].
      * rewrite !lookup_delete_ne by done. apply Hst.
  - unfold on_callback_query. repeat case_match; simpl; apply Hst.
  - unfold on_oauth2callback.
    repeat case_match; simpl; try apply Hst.
    intros Hsome. destruct (decide (parseInt s 10 = c)) as [<-|Hne].
    + by rewrite lookup_insert_eq.
    + rewrite lookup_insert_ne by done. by apply Hst.
Qed.

Lemma reachable_disabled_within (st : State) :
  reachable st → disabled_within_accounts st.
Proof.
  induction 1 as [|env st i _ IH|st data _ IH Hsame].
  - intros c [d Hd]. simpl in Hd. by rewrite lookup_empty in Hd.
  - by apply step_disabled_within.
  - intros c. destruct (load_saved st data Hsame) as (-> & -> & _).
    by destruct (oauthAccounts st !! c); intros [? ?].
Qed.

End Registry.

(** ** The persistence round trip *)

(** C7.  Saving a state and loading the record into a process that holds
    nothing gives back, for every conversation that had accounts, the same
    account list (account ids, e-mail addresses, calendars and token
    material) and the same disabled sets, in whatever order the record
    lists its properties; in a state the process can reach these are all
    the conversations that had any state; and a conversation whose
    persisted entry has no disabled-set section is loaded with an empty
    one. *)
Theorem save_load_round_trip :
  (∀ st data,
     same_record data (saveAuthCache st) →
     let st' := loadAuthCache empty_state (Some data) in
     ∀ c accounts,
       oauthAccounts st !! c = Some accounts →
       oauthAccounts st' !! c = Some accounts
       ∧ default ∅ (disabledCalendars st' !! c)
         = default ∅ (disabledCalendars st !! c))
  ∧ (∀ st,
       let st' := loadAuthCache empty_state (Some (saveAuthCache st)) in
       oauthAccounts st' = oauthAccounts st
       ∧ ∀ c, is_Some (oauthAccounts st !! c) →
              default ∅ (disabledCalendars st' !! c)
              = default ∅ (disabledCalendars st !! c))
  ∧ (∀ st,
       reachable st →
       let st' := loadAuthCache empty_state (Some (saveAuthCache st)) in
       oauthAccounts st' = oauthAccounts st
       ∧ ∀ c, default ∅ (disabledCalendars st' !! c)
              = default ∅ (disabledCalendars st !! c))
  ∧ (∀ before key chatData after,
       cd_disabledCalendars chatData = None →
       (∀ p, p ∈ after → parseInt p.1 10 ≠ parseInt key 10) →
       disabledCalendars
         (loadAuthCache empty_state
            (Some (before ++ (key, chatData) :: after)))
       !! parseInt key 10 = Some ∅).
Proof.
  split_and!.
  - intros st data Hsame st' c accounts Hc.
    destruct (load_saved st data Hsame) as (Hacc & Hdis & _).
    fold st' in Hacc, Hdis. by rewrite Hacc, Hdis, Hc.
  - intros st st'.
    destruct (load_saved st _ (same_record_refl (saveAuthCache st)))
      as (Hacc & Hdis & _).
    fold st' in Hacc, Hdis. split; [done|].
    intros c [accounts Hc]. by rewrite Hdis, Hc.
  - intros st Hreach st'.
    destruct (load_saved st _ (same_record_refl (saveAuthCache st)))
      as (Hacc & Hdis & _).
    fold st' in Hacc, Hdis. split; [done|].
    intros c. rewrite Hdis.
    destruct (oauthAccounts st !! c) as [accounts|] eqn:Hc; [done|]. simpl.
    destruct (disabledCalendars st !! c) as [d|] eqn:Hd; [|done].
    destruct (reachable_disabled_within st Hreach c) as [accounts Hsome];
      [by rewrite Hd|congruence].
  - intros before key chatData after Hnone Hafter.
    unfold loadAuthCache. rewrite load_chat_disabled, fold_left_app. simpl.
    rewrite (fold_left_insert_other entry_disabled) by done.
    by rewrite lookup_insert_eq, Hnone.
Qed.

Lemma save_load_round_trip_witness :
  let st' := loadAuthCache empty_state (Some (saveAuthCache demo_state)) in
  oauthAccounts st' !! Num 7 = Some [demo_account]
  ∧ default ∅ (disabledCalendars st' !! Num 7)
    = default ∅ (disabledCalendars demo_state !! Num 7).
Proof.
  apply (proj1 save_load_round_trip demo_state (saveAuthCache demo_state)
           (same_record_refl _) (Num 7) [demo_account]).
  reflexivity.
Defined.


(** ** Worked examples *)

Example parseInt_examples :
  parseInt "42" 0 = Num 42
  ∧ parseInt "  -7 days" 0 = Num (-7)
  ∧ parseInt "+3" 0 = Num 3
  ∧ parseInt "0x1f" 0 = Num 31
  ∧ parseInt "0x1f" 10 = Num 0
  ∧ parseInt "1e3" 0 = Num 1
  ∧ parseInt "primary" 0 = NaN
  ∧ parseInt "" 0 = NaN
  ∧ parseInt "-" 0 = NaN.
Proof. by split_and!. Qed.

(** [/disable 1 1] stores the id of the account's first calendar, not the
    index. *)
Example disable_by_index_stores_id :
  disabled_set
    (step demo_env (set_disabledCalendars demo_state ∅)
       (Message 7 "/disable 1 1")).1 7 1
  = {[ "ada@example.com" ]}.
Proof. by vm_compute. Qed.

(** An index past the roster is refused by [/disable] with the range. *)
Example disable_out_of_range :
  step demo_env demo_state (Message 7 "/disable 1 3")
  = (demo_state,
     [say 7 "Invalid calendar index. Please provide a number between 1 and 2."]).
Proof. by vm_compute. Qed.

(** A first description in a chat without session, then the Confirm
    button: one insert into ["primary"], and the session is gone. *)
Example propose_then_confirm :
  let st0 := set_pendingEvents (set_disabledCalendars demo_state ∅) ∅ in
  let st1 := (step demo_env_ok st0 (Message 7 "lunch with Bob")).1 in
  let r := step demo_env_ok st1 (CallbackQuery "q1" (Some "confirm") (Some 7)) in
  pendingEvents st1 !! 7
  = Some (fresh_session "lunch with Bob" (array_of [demo_event]) "[new]")
  ∧ attempts r.2
    = [(oauth2Client demo_account, "primary", event_body demo_env_ok demo_event)]
  ∧ pendingEvents r.1 !! 7 = None.
Proof. by vm_compute. Qed.

(** A description the model answers with an object in braces: the session
    is set, the chat is told that the description could not be parsed, and
    the Confirm button then raises and leaves the session where it is. *)
Example object_answer_then_confirm :
  step demo_env_object demo_state (Message 7 "dinner on friday at 7pm")
  = (demo_object_state,
     [say 7 "Error parsing event description. Please ensure your description is clear and try again."])
  ∧ step demo_env demo_object_state
      (CallbackQuery "q1" (Some "confirm") (Some 7))
    = (demo_object_state, [unhandledRejection]).
Proof. by vm_compute. Qed.

(** * Further properties *)

(** ** The model loop and the extraction pipeline *)

Section Extraction.
Import JsString JsStringFacts.

Variable env : Env.

Lemma first_response_skip (pre rest : list string) (prompt : string) :
  Forall (no_answer env prompt) pre →
  first_response env (pre ++ rest) prompt = first_response env rest prompt.
Proof.
  induction 1 as [|model pre Hno _ IH]; [done|]. simpl.
  by destruct Hno as [-> | ->].
Qed.

Lemma first_response_None (models : list string) (prompt : string) :
  first_response env models prompt = None
  ↔ Forall (no_answer env prompt) models.
Proof.
  induction models as [|model models IH]; simpl; [by split|].
  rewrite Forall_cons. unfold no_answer at 1.
  destruct (chat_completion env model prompt) as [[|a r]|] eqn:Hc.
  - rewrite IH. split; [by auto|by intros [_ ?]].
  - split; [done|]. by intros [[|] _].
  - rewrite IH. split; [by auto|by intros [_ ?]].
Qed.

(** X1.  Model fallback.  The loop takes the answer of the first model, in the
    order of the list, whose call returns a non-empty content: models that
    throw or answer with nothing before it are skipped, and the models
    after it play no part.  It comes back empty-handed exactly when every
    model throws or answers with nothing. *)
Theorem first_response_fallback (prompt : string) :
  (∀ pre model post answer,
     Forall (no_answer env prompt) pre →
     chat_completion env model prompt = Some answer → answer ≠ "" →
     first_response env (pre ++ model :: post) prompt = Some answer)
  ∧ (∀ models,
       first_response env models prompt = None
       ↔ Forall (no_answer env prompt) models)
  ∧ (∀ models answer,
       first_response env models prompt = Some answer →
       answer ≠ ""
       ∧ ∃ pre model post,
           models = pre ++ model :: post
           ∧ Forall (no_answer env prompt) pre
           ∧ chat_completion env model prompt = Some answer).
Proof.
  split_and!.
  - intros pre model post answer Hpre Hc Hne.
    rewrite first_response_skip by done. simpl. rewrite Hc.
    by destruct answer.
  - intros models. apply first_response_None.
  - induction models as [|model models IH]; intros answer; simpl; [done|].
    destruct (chat_completion env model prompt) as [[|a r]|] eqn:Hc.
    + intros Hrest. destruct (IH _ Hrest) as (Hne & pre & m & post & -> & ? & ?).
      split; [done|]. exists (model :: pre), m, post.
      split_and!; [done| |done]. constructor; [by right|done].
    + intros [= <-]. split; [done|]. by exists [], model, models.
    + intros Hrest. destruct (IH _ Hrest) as (Hne & pre & m & post & -> & ? & ?).
      split; [done|]. exists (model :: pre), m, post.
      split_and!; [done| |done]. constructor; [by left|done].
Qed.

Lemma extractJSON_Throw (response : string) (e : ExtractionError) :
  extractJSON response = Throw e → e = NoJSONFound.
Proof. unfold extractJSON. repeat case_match; congruence. Qed.

(** X2.  The three ways an extraction fails, by stage: ExtractionExhausted
    exactly when no model of the priority list answers; NoJSONFound when
    the answer holds no bracket or brace pair; MalformedJSON when the
    payload does not parse.  A success returns what [JSON.parse] makes of
    the payload cut out of the first answer, together with that payload. *)
Theorem generate_and_parse_outcomes (prompt : string) :
  (generate_and_parse env prompt = Throw ExtractionExhausted
   ↔ Forall (no_answer env prompt) modelPriorityOrder)
  ∧ (∀ answer,
       first_response env modelPriorityOrder prompt = Some answer →
       generate_and_parse env prompt
       = match extractJSON answer with
         | Throw _ => Throw NoJSONFound
         | Ok jsonString =>
             match JSON_parse env jsonString with
             | None => Throw MalformedJSON
             | Some events => Ok (events, jsonString)
             end
         end).
Proof.
  unfold generate_and_parse. split.
  - rewrite <- first_response_None.
    destruct (first_response env modelPriorityOrder prompt) as [answer|];
      [|done].
    split; [|done].
    destruct (extractJSON answer) as [json|e] eqn:He.
    + by destruct (JSON_parse env json).
    + apply extractJSON_Throw in He. by subst.
  - intros answer ->. destruct (extractJSON answer) as [json|e] eqn:He; [done|].
    apply extractJSON_Throw in He. by subst.
Qed.

End Extraction.

Lemma first_response_fallback_witness :
  first_response demo_env_fallback
    ([ "deepseek-r1-distill-llama-70b-specdec";
       "deepseek-r1-distill-llama-70b" ]
     ++ "deepseek-r1-distill-qwen-32b"
        :: [ "qwen-2.5-32b"; "llama-3.3-70b-versatile" ]) "p"
  = Some "third: [new]deepseek-r1-distill-qwen-32b".
Proof.
  apply (proj1 (first_response_fallback demo_env_fallback "p")).
  - apply Forall_cons. split; [by left|].
    apply Forall_cons. split; [by right|]. constructor.
  - reflexivity.
  - discriminate.
Defined.

Lemma generate_and_parse_outcomes_witness :
  generate_and_parse demo_env_ok "p" = Ok (array_of [demo_event], "[new]").
Proof.
  rewrite (proj2 (generate_and_parse_outcomes demo_env_ok "p")
             "Here you go: [new] Anything else?" eq_refl).
  reflexivity.
Defined.

(** ** The shape of the extracted payload *)

Section Payload.
Import JsString JsStringFacts.

Local Arguments String.append !_ _ / : simpl nomatch.

Lemma extractJSON_Ok_inv (response json : string) :
  extractJSON response = Ok json →
  ∃ pre mid post,
    (response = pre +:+ String "[" (mid +:+ String "]" post)
     ∧ ¬ occurs "[" pre ∧ ¬ occurs "]" post
     ∧ json = String "[" (mid +:+ "]"))
    ∨ (response = pre +:+ String "{" (mid +:+ String "}" post)
       ∧ ¬ occurs "{" pre ∧ ¬ occurs "}" post
       ∧ ¬ has_pair "[" "]" response
       ∧ json = String "{" (mid +:+ "}")).
Proof.
  destruct (decide (indexOf response "[" ≠ -1 ∧ lastIndexOf response "]" ≠ -1
                    ∧ indexOf response "[" < lastIndexOf response "]"))
    as [(Hi & Hj & Hlt)|Hno].
  - rewrite extractJSON_array by done.
    destruct (indices_pair "[" "]" response Hi Hj Hlt)
      as (pre & mid & post & -> & Hpre & Hpost).
    destruct (pair_indices "[" "]" pre mid post Hpre Hpost) as (_ & _ & ->).
    intros [= <-]. exists pre, mid, post. by left.
  - assert (Hnp : ¬ has_pair "[" "]" response).
    { intros Hp. by apply Hno, has_pair_indices. }
    rewrite extractJSON_no_array by done. cbv zeta.
    destruct (Z.eqb_spec (indexOf response "{") (-1)) as [|Hi]; [done|].
    destruct (Z.eqb_spec (lastIndexOf response "}") (-1)) as [|Hj]; [done|].
    destruct (Z.leb_spec (lastIndexOf response "}") (indexOf response "{"))
      as [|Hlt]; [done|]. simpl.
    destruct (indices_pair "{" "}" response Hi Hj Hlt)
      as (pre & mid & post & Hs & Hpre & Hpost).
    pose proof (pair_indices "{" "}" pre mid post Hpre Hpost) as (_ & _ & Hsub).
    rewrite <- Hs in Hsub. rewrite Hsub.
    intros [= <-]. exists pre, mid, post. by right.
Qed.

Lemma extractJSON_span (o c : ascii) (mid : string) :
  (o = "["%char ∧ c = "]"%char)
  ∨ (o = "{"%char ∧ c = "}"%char
     ∧ ¬ has_pair "[" "]" (String o (mid +:+ String c ""))) →
  extractJSON (String o (mid +:+ String c ""))
  = Ok (String o (mid +:+ String c "")).
Proof.
  intros Hcase.
  pose proof (pair_indices o c "" mid "" ltac:(simpl; tauto) ltac:(simpl; tauto))
    as (Hi & Hj & Hsub).
  simpl in Hi, Hj, Hsub. unfold length in *. simpl in Hi, Hj.
  destruct Hcase as [[-> ->]|(-> & -> & Hnp)].
  - rewrite extractJSON_array; [by rewrite Hsub|lia..].
  - rewrite extractJSON_no_array by done. cbv zeta. rewrite Hsub, Hi, Hj.
    change (Z.of_nat 0) with 0.
    destruct (Z.eqb_spec (0 + 1 + Z.of_nat (String.length mid)) (-1)); [lia|].
    destruct (Z.leb_spec (0 + 1 + Z.of_nat (String.length mid)) 0); [lia|].
    done.
Qed.

(** X3.  The payload is a piece of the answer, it opens with ['['] and closes
    with [']'], or opens with ['{'] and closes with ['}'], and scanning the
    payload again gives the payload back. *)
Theorem extractJSON_payload (response json : string) :
  extractJSON response = Ok json →
  (∃ pre post, response = pre +:+ json +:+ post)
  ∧ ((∃ mid, json = String "[" (mid +:+ "]"))
     ∨ (∃ mid, json = String "{" (mid +:+ "}")))
  ∧ extractJSON json = Ok json.
Proof.
  intros Hok.
  destruct (extractJSON_Ok_inv _ _ Hok)
    as (pre & mid & post & [(-> & _ & _ & ->)|(Hs & _ & _ & Hnp & ->)]).
  - split_and!.
    + exists pre, post. simpl. by rewrite app_assoc.
    + left. by exists mid.
    + apply extractJSON_span. by left.
  - split_and!.
    + exists pre, post. rewrite Hs. simpl. by rewrite app_assoc.
    + right. by exists mid.
    + apply extractJSON_span. right. split_and!; [done..|].
      intros (p' & m' & q' & Hj). apply Hnp.
      exists (pre +:+ p'), m', (q' +:+ post). rewrite Hs.
      replace (String "{" (mid +:+ String "}" post))
        with (String "{" (mid +:+ String "}" "") +:+ post)
        by (simpl; by rewrite app_assoc).
      rewrite Hj. rewrite !app_assoc. simpl. by rewrite app_assoc.
Qed.

End Payload.

Lemma extractJSON_payload_witness :
  extractJSON "[new]" = Ok "[new]".
Proof.
  apply (proj2 (proj2 (extractJSON_payload
                         "Here you go: [new] Anything else?" "[new]" eq_refl))).
Defined.

(** ** Strict resolution and the handlers that use it *)

Section NeverRaises.

Lemma resolve_strict_cases (st : State) (chatId acctId : Z)
    (ident : string) :
  ∃ result,
    resolveCalendarId st chatId acctId ident true = Return result
    ∧ (success result = false →
       realCalendarId result = "" ∧ is_Some (errorMsg result))
    ∧ (success result = true →
       ∃ accounts account,
         oauthAccounts st !! Num chatId = Some accounts
         ∧ find_account accounts acctId = Some account
         ∧ match parseInt ident 0 with
           | NaN => realCalendarId result = ident
           | Num k =>
               ∃ cal, calendars account !! Z.to_nat (k - 1) = Some cal
                      ∧ 1 ≤ k
                      ∧ realCalendarId result = cal_id cal
           end).
Proof.
  destruct (oauthAccounts st !! Num chatId) as [accounts|] eqn:Hacc.
  2: { eexists. unfold resolveCalendarId. rewrite Hacc.
       split_and!; [done|by eauto|done]. }
  destruct (find_account accounts acctId) as [account|] eqn:Hfind.
  2: { eexists. unfold resolveCalendarId. rewrite Hacc, Hfind.
       split_and!; [done|by eauto|done]. }
  destruct (parseInt ident 0) as [|k] eqn:Hparse.
  { eexists. rewrite (resolve_not_numeric st chatId acctId accounts account)
      by done.
    split_and!; [done|done|]. intros _. by exists accounts, account. }
  pose proof (resolve_index st chatId acctId accounts account ident k true
                Hacc Hfind Hparse) as [Hin Hout].
  destruct (decide (1 ≤ k ≤ Z.of_nat (List.length (calendars account))))
    as [Hk|Hk].
  - destruct (Hin Hk) as (cal & Hcal & ->). eexists.
    split_and!; [done|done|]. intros _. exists accounts, account.
    split_and!; [done..|]. exists cal.
    split_and!; [done|lia|done].
  - rewrite Hout by lia. eexists. split_and!; [done|by eauto|done].
Qed.

(** X4.  Strict resolution always returns.  When it succeeds on an identifier
    that [parseInt] reads as a number, the id it returns is the id of a
    calendar in the roster of the account with that account id; on any
    other identifier it returns the identifier; when it fails it returns
    an empty id and a message. *)
Theorem resolveCalendarId_strict_returns (st : State) (chatId acctId : Z)
    (ident : string) :
  ∃ result,
    resolveCalendarId st chatId acctId ident true = Return result
    ∧ (success result = false →
       realCalendarId result = "" ∧ is_Some (errorMsg result))
    ∧ (success result = true →
       ∃ accounts account,
         oauthAccounts st !! Num chatId = Some accounts
         ∧ find_account accounts acctId = Some account
         ∧ match parseInt ident 0 with
           | NaN => realCalendarId result = ident
           | Num k =>
               ∃ cal, calendars account !! Z.to_nat (k - 1) = Some cal
                      ∧ 1 ≤ k
                      ∧ realCalendarId result = cal_id cal
           end).
Proof. apply resolve_strict_cases. Qed.




End NeverRaises.

(** ** Handlers stay in their chat *)

Section Isolation.

Variable env : Env.

Lemma addEventToCalendar_addressed (st : State) (chatId : Z)
    (eventData : CalendarEvent) :
  addressed_to chatId (addEventToCalendar env st chatId eventData).
Proof.
  unfold addEventToCalendar, addressed_to.
  repeat case_match; repeat constructor.
Qed.

Lemma add_all_addressed (st : State) (chatId : Z) (evs : list CalendarEvent) :
  addressed_to chatId (add_all env st chatId evs).
Proof.
  unfold add_all, addressed_to. induction evs as [|ev evs IH]; [constructor|].
  rewrite fmap_cons. simpl. apply Forall_app. split; [|done].
  apply addEventToCalendar_addressed.
Qed.

Lemma on_disable_local (st st' : State) (chatId : Z) (text : string)
    (effects : list Effect) :
  on_disable st chatId text = Return (st', effects) →
  other_chats_untouched st st' chatId ∧ addressed_to chatId effects.
Proof.
  unfold on_disable, other_chats_untouched, addressed_to, say. intros Hrun.
  repeat case_match; simplify_eq; simpl;
    (split; [|by repeat constructor]); intros other Hother;
    rewrite ?lookup_insert_ne by congruence; done.
Qed.

Lemma on_enable_local (st st' : State) (chatId : Z) (text : string)
    (effects : list Effect) :
  on_enable st chatId text = Return (st', effects) →
  other_chats_untouched st st' chatId ∧ addressed_to chatId effects.
Proof.
  unfold on_enable, other_chats_untouched, addressed_to, say. intros Hrun.
  repeat case_match; simplify_eq; simpl;
    (split; [|by repeat constructor]); intros other Hother;
    rewrite ?lookup_insert_ne by congruence; done.
Qed.

(** X6.  A message or a button press in one chat changes nothing that belongs
    to another chat (its session, its accounts, its disabled sets), and
    every chat message it sends goes to the chat it came from. *)
Theorem handlers_stay_in_their_chat (st : State) (chatId : Z) :
  (∀ text st' effects,
     on_message env st chatId text = Return (st', effects) →
     other_chats_untouched st st' chatId ∧ addressed_to chatId effects)
  ∧ (∀ id data,
       other_chats_untouched st
         (on_callback_query env st id data (Some chatId)).1 chatId
       ∧ addressed_to chatId
           (on_callback_query env st id data (Some chatId)).2).
Proof.
  split.
  - intros text st' effects. unfold on_message. intros Hrun.
    repeat case_match; simplify_eq;
      eauto using on_disable_local, on_enable_local.
    all: unfold on_auth, on_confirm, on_edit, on_clear, on_calendars,
           on_description, other_chats_untouched, addressed_to, say in *;
         repeat case_match; simplify_eq; simpl;
         (split; [|by repeat constructor]); intros other Hother;
         rewrite ?lookup_insert_ne, ?lookup_delete_ne by congruence; done.
  - intros id data. unfold on_callback_query.
    repeat case_match; rewrite ?for_of_spec; simpl; split;
      try (intros other Hother; simpl;
           rewrite ?lookup_delete_ne by congruence; done).
    all: try (by repeat constructor).
    all: apply Forall_app; split;
           [apply add_all_addressed|by repeat constructor].
Qed.

End Isolation.

Lemma handlers_stay_in_their_chat_witness :
  other_chats_untouched demo_state demo_primary_disabled 7
  ∧ addressed_to 7
      [say 7 "Calendar primary for account 1 has been disabled.";
       writeAuthCache (saveAuthCache demo_primary_disabled)].
Proof.
  apply (proj1 (handlers_stay_in_their_chat demo_env demo_state 7)
           "/disable 1 primary").
  by vm_compute.
Defined.

(** ** Disabling and enabling calendars *)

Section EnableDisable.

Variable env : Env.

Lemma on_message_disable (st : State) (chatId : Z) (text : string) :
  JsString.startsWith text "/disable" = true →
  on_message env st chatId text = on_disable st chatId text.
Proof.
  intros Hp. destruct (prefix_split _ _ Hp) as [rest ->].
  unfold on_message, JsString.startsWith. cbv [String.append].
  rewrite !prefix_cons. simpl. by destruct rest.
Qed.

Lemma on_message_enable (st : State) (chatId : Z) (text : string) :
  JsString.startsWith text "/enable" = true →
  on_message env st chatId text = on_enable st chatId text.
Proof.
  intros Hp. destruct (prefix_split _ _ Hp) as [rest ->].
  unfold on_message, JsString.startsWith. cbv [String.append].
  rewrite !prefix_cons. simpl. by destruct rest.
Qed.

Lemma resolve_ext (st st' : State) (chatId acctId : Z) (ident : string)
    (isStrict : bool) :
  oauthAccounts st' = oauthAccounts st →
  resolveCalendarId st' chatId acctId ident isStrict
  = resolveCalendarId st chatId acctId ident isStrict.
Proof. intros Heq. unfold resolveCalendarId. by rewrite Heq. Qed.

Lemma command_target_ext (st st' : State) (chatId : Z) (text : string)
    (skip : Z) :
  oauthAccounts st' = oauthAccounts st →
  command_target st' chatId text skip = command_target st chatId text skip.
Proof.
  intros Heq. unfold command_target.
  destruct (JsString.length _ =? 0); [done|].
  destruct (command_parts _) as [|part0 [|part1 parts]]; try done.
  destruct (parseInt part0 0); [done|]. by rewrite (resolve_ext st st').
Qed.

Lemma was_disabled_spec (userDisabled : gmap number (gset string)) (a : Z)
    (calId : string) :
  match userDisabled !! Num a with
  | Some set => bool_decide (calId ∈ set)
  | None => false
  end = bool_decide (calId ∈ default ∅ (userDisabled !! Num a)).
Proof.
  destruct (userDisabled !! Num a); simpl; [done|].
  symmetry. by apply bool_decide_eq_false_2, not_elem_of_empty.
Qed.

Lemma disabled_set_insert (st : State) (chatId a : Z)
    (d : gmap number (gset string)) :
  disabled_set
    (set_disabledCalendars st (<[Num chatId := d]> (disabledCalendars st)))
    chatId a
  = default ∅ (d !! Num a).
Proof. unfold disabled_set. simpl. by rewrite lookup_insert_eq. Qed.

Lemma on_disable_sets (st : State) (chatId : Z) (text : string) :
  (∀ a calId,
     command_target st chatId text 8 = Some (a, calId) →
     ∃ st',
       on_disable st chatId text
       = Return (st',
                 [say chatId ("Calendar " +:+ calId +:+ " for account "
                              +:+ toString (Num a) +:+ " has been disabled.");
                  writeAuthCache (saveAuthCache st')])
       ∧ disabled_set st' chatId a = {[calId]} ∪ disabled_set st chatId a
       ∧ (∀ a', a' ≠ a →
            disabled_set st' chatId a' = disabled_set st chatId a')
       ∧ oauthAccounts st' = oauthAccounts st
       ∧ pendingEvents st' = pendingEvents st)
  ∧ (command_target st chatId text 8 = None →
     ∃ notice, on_disable st chatId text = Return (st, [say chatId notice])).
Proof.
  unfold command_target, on_disable. split.
  - intros a calId Htarget. repeat case_match; simplify_eq.
    eexists. split; [done|]. split_and!; try done.
    + rewrite disabled_set_insert. unfold disable_in.
      by rewrite lookup_insert_eq.
    + intros a' Hne. rewrite disabled_set_insert.
      unfold disable_in. rewrite lookup_insert_ne by congruence. done.
  - intros Htarget. repeat case_match; simplify_eq; eauto.
    match goal with
    | H : resolveCalendarId ?s ?c ?a ?i true = TypeError |- _ =>
        destruct (resolve_strict_cases s c a i) as (? & ? & _);
        congruence
    end.
Qed.

Lemma on_enable_sets (st : State) (chatId : Z) (text : string) (a : Z)
    (calId : string) :
  command_target st chatId text 7 = Some (a, calId) →
  ∃ st',
    on_enable st chatId text
    = Return (st',
              [say chatId ("Calendar " +:+ calId +:+ " for account "
                           +:+ toString (Num a)
                           +:+ (if bool_decide (calId ∈ disabled_set st chatId a)
                                then " has been enabled."
                                else " is not disabled."));
               writeAuthCache (saveAuthCache st')])
    ∧ disabled_set st' chatId a = disabled_set st chatId a ∖ {[calId]}
    ∧ (∀ a', a' ≠ a →
         disabled_set st' chatId a' = disabled_set st chatId a')
    ∧ oauthAccounts st' = oauthAccounts st
    ∧ pendingEvents st' = pendingEvents st.
Proof.
  unfold command_target, on_enable. intros Htarget.
  destruct (JsString.length _ =? 0); [done|].
  destruct (command_parts _) as [|part0 [|part1 parts]]; try done.
  destruct (parseInt part0 0) as [|a0]; [done|].
  destruct (resolveCalendarId st chatId a0 part1 true) as [r|]; [|done].
  destruct (success r) eqn:Hs; [|done]. injection Htarget as -> <-. simpl.
  rewrite was_disabled_spec.
  change (default ∅ (default ∅ (disabledCalendars st !! Num chatId) !! Num a))
    with (disabled_set st chatId a).
  eexists. split; [done|]. split_and!; [..|done|done].
  - rewrite disabled_set_insert.
    destruct (bool_decide _) eqn:Hb.
    + by rewrite lookup_insert_eq.
    + apply bool_decide_eq_false in Hb.
      change (default ∅ (default ∅ (disabledCalendars st !! Num chatId) !! Num a))
        with (disabled_set st chatId a).
      symmetry. apply difference_disjoint_L. by apply disjoint_singleton_r.
  - intros a' Hne. rewrite disabled_set_insert.
    destruct (bool_decide _); [|done].
    by rewrite lookup_insert_ne by congruence.
Qed.

Lemma disable_in_idem (userDisabled : gmap number (gset string)) (a : Z)
    (calId : string) :
  disable_in (disable_in userDisabled a calId) a calId
  = disable_in userDisabled a calId.
Proof.
  unfold disable_in. rewrite lookup_insert_eq, insert_insert_eq. simpl.
  by rewrite (assoc_L (∪)), (idemp_L (∪)).
Qed.

Lemma on_disable_again (st st1 : State) (chatId : Z) (text : string)
    (e1 : list Effect) :
  on_disable st chatId text = Return (st1, e1) →
  on_disable st1 chatId text = Return (st1, e1).
Proof.
  unfold on_disable.
  destruct (JsString.length _ =? 0); [by intros [= <- <-]|].
  destruct (command_parts _) as [|part0 [|part1 parts]];
    [by intros [= <- <-]..|].
  destruct (parseInt part0 0) as [|a]; [by intros [= <- <-]|].
  destruct (resolveCalendarId st chatId a part1 true) as [r|] eqn:Hres;
    [|done].
  destruct (success r) eqn:Hs; simpl.
  2: { intros [= <- <-]. by rewrite Hres, Hs. }
  intros [= <- <-]. rewrite (resolve_ext st) by done. rewrite Hres, Hs. simpl.
  rewrite lookup_insert_eq, insert_insert_eq. simpl.
  by rewrite disable_in_idem.
Qed.

(** X7.  [/disable] that goes through adds the resolved id to the set of the
    account it names, and to no other set; it leaves accounts and sessions
    alone, says so and writes the cache once.  [/disable] that is refused
    changes nothing and writes nothing. *)
Theorem disable_adds_to_one_set (st : State) (chatId : Z) (text : string) :
  JsString.startsWith text "/disable" = true →
  (∀ a calId,
     command_target st chatId text 8 = Some (a, calId) →
     ∃ st',
       on_message env st chatId text
       = Return (st',
                 [say chatId ("Calendar " +:+ calId +:+ " for account "
                              +:+ toString (Num a) +:+ " has been disabled.");
                  writeAuthCache (saveAuthCache st')])
       ∧ disabled_set st' chatId a = {[calId]} ∪ disabled_set st chatId a
       ∧ (∀ a', a' ≠ a →
            disabled_set st' chatId a' = disabled_set st chatId a')
       ∧ oauthAccounts st' = oauthAccounts st
       ∧ pendingEvents st' = pendingEvents st)
  ∧ (command_target st chatId text 8 = None →
     ∃ notice, on_message env st chatId text = Return (st, [say chatId notice])).
Proof.
  intros Hp. rewrite on_message_disable by done. apply on_disable_sets.
Qed.

(** X8.  [/enable] that goes through takes the resolved id out of the set of the
    account it names, leaves every other set alone, and tells whether the
    calendar was disabled; it writes the cache in both cases. *)
Theorem enable_removes_from_one_set (st : State) (chatId : Z) (text : string) :
  JsString.startsWith text "/enable" = true →
  ∀ a calId,
    command_target st chatId text 7 = Some (a, calId) →
    ∃ st',
      on_message env st chatId text
      = Return (st',
                [say chatId ("Calendar " +:+ calId +:+ " for account "
                             +:+ toString (Num a)
                             +:+ (if bool_decide (calId ∈ disabled_set st chatId a)
                                  then " has been enabled."
                                  else " is not disabled."));
                 writeAuthCache (saveAuthCache st')])
      ∧ disabled_set st' chatId a = disabled_set st chatId a ∖ {[calId]}
      ∧ (∀ a', a' ≠ a →
           disabled_set st' chatId a' = disabled_set st chatId a')
      ∧ oauthAccounts st' = oauthAccounts st
      ∧ pendingEvents st' = pendingEvents st.
Proof.
  intros Hp a calId. rewrite on_message_enable by done. apply on_enable_sets.
Qed.

(** X9.  Sending the same [/disable] again changes nothing: the second run ends
    in the state the first run ended in, with the same replies and the same
    cache write. *)
Theorem disable_again_changes_nothing (st st1 : State) (chatId : Z)
    (text : string) (e1 : list Effect) :
  JsString.startsWith text "/disable" = true →
  on_message env st chatId text = Return (st1, e1) →
  on_message env st1 chatId text = Return (st1, e1).
Proof.
  intros Hp. rewrite !on_message_disable by done. apply on_disable_again.
Qed.

(** X10.  [/disable] of a calendar followed by [/enable] of the same calendar
    for the same account: the calendar is out of that account's set
    whatever it was before, every other member and every other set is as
    it was, and [/enable] reports that it enabled the calendar. *)
Theorem disable_then_enable (st : State) (chatId : Z) (dtext etext : string)
    (a : Z) (calId : string) :
  JsString.startsWith dtext "/disable" = true →
  JsString.startsWith etext "/enable" = true →
  command_target st chatId dtext 8 = Some (a, calId) →
  command_target st chatId etext 7 = Some (a, calId) →
  ∃ st1 e1 st2 e2,
    on_message env st chatId dtext = Return (st1, e1)
    ∧ on_message env st1 chatId etext = Return (st2, e2)
    ∧ disabled_set st2 chatId a = disabled_set st chatId a ∖ {[calId]}
    ∧ (∀ a', a' ≠ a →
         disabled_set st2 chatId a' = disabled_set st chatId a')
    ∧ notices e2 = ["Calendar " +:+ calId +:+ " for account "
                    +:+ toString (Num a) +:+ " has been enabled."].
Proof.
  intros Hd He Htd Hte.
  destruct (proj1 (on_disable_sets st chatId dtext) a calId Htd)
    as (st1 & Hrun1 & Hset1 & Hother1 & Hacc1 & _).
  rewrite <- (command_target_ext st st1) in Hte by done.
  destruct (on_enable_sets st1 chatId etext a calId Hte)
    as (st2 & Hrun2 & Hset2 & Hother2 & _).
  eexists st1, _, st2, _.
  rewrite on_message_disable, on_message_enable by done.
  split_and!; [exact Hrun1|exact Hrun2|..].
  - rewrite Hset2, Hset1.
    apply set_eq. intros x.
    rewrite !elem_of_difference, elem_of_union, elem_of_singleton. tauto.
  - intros a' Hne. by rewrite Hother2, Hother1.
  - simpl. rewrite Hset1. rewrite bool_decide_eq_true_2; [done|].
    apply elem_of_union_l. by apply elem_of_singleton.
Qed.

End EnableDisable.

Lemma disable_adds_to_one_set_witness :
  ∃ st',
    on_message demo_env demo_state 7 "/disable 1 2"
    = Return (st',
              [say 7 ("Calendar " +:+ "team@group.calendar.example"
                      +:+ " for account " +:+ toString (Num 1)
                      +:+ " has been disabled.");
               writeAuthCache (saveAuthCache st')])
    ∧ disabled_set st' 7 1
      = {["team@group.calendar.example"]} ∪ disabled_set demo_state 7 1
    ∧ (∀ a', a' ≠ 1 → disabled_set st' 7 a' = disabled_set demo_state 7 a')
    ∧ oauthAccounts st' = oauthAccounts demo_state
    ∧ pendingEvents st' = pendingEvents demo_state.
Proof.
  apply (proj1 (disable_adds_to_one_set demo_env demo_state 7 "/disable 1 2"
                  eq_refl) 1 "team@group.calendar.example").
  by vm_compute.
Defined.

Lemma enable_removes_from_one_set_witness :
  ∃ st',
    on_message demo_env demo_state 7 "/enable 1 1"
    = Return (st',
              [say 7 ("Calendar " +:+ "ada@example.com" +:+ " for account "
                      +:+ toString (Num 1)
                      +:+ (if bool_decide
                                ("ada@example.com" ∈ disabled_set demo_state 7 1)
                           then " has been enabled."
                           else " is not disabled."));
               writeAuthCache (saveAuthCache st')])
    ∧ disabled_set st' 7 1
      = disabled_set demo_state 7 1 ∖ {["ada@example.com"]}
    ∧ (∀ a', a' ≠ 1 → disabled_set st' 7 a' = disabled_set demo_state 7 a')
    ∧ oauthAccounts st' = oauthAccounts demo_state
    ∧ pendingEvents st' = pendingEvents demo_state.
Proof.
  apply (enable_removes_from_one_set demo_env demo_state 7 "/enable 1 1"
           eq_refl 1 "ada@example.com").
  by vm_compute.
Defined.

Lemma disable_again_changes_nothing_witness :
  on_message demo_env demo_primary_disabled 7 "/disable 1 primary"
  = Return (demo_primary_disabled,
            [say 7 "Calendar primary for account 1 has been disabled.";
             writeAuthCache (saveAuthCache demo_primary_disabled)]).
Proof.
  apply (disable_again_changes_nothing demo_env demo_state
           demo_primary_disabled 7 "/disable 1 primary" _ eq_refl).
  by vm_compute.
Defined.

Lemma disable_then_enable_witness :
  ∃ st1 e1 st2 e2,
    on_message demo_env demo_state 7 "/disable 1 2" = Return (st1, e1)
    ∧ on_message demo_env st1 7 "/enable 1   2" = Return (st2, e2)
    ∧ disabled_set st2 7 1
      = disabled_set demo_state 7 1 ∖ {["team@group.calendar.example"]}
    ∧ (∀ a', a' ≠ 1 → disabled_set st2 7 a' = disabled_set demo_state 7 a')
    ∧ notices e2 = ["Calendar " +:+ "team@group.calendar.example"
                    +:+ " for account " +:+ toString (Num 1)
                    +:+ " has been enabled."].
Proof.
  apply (disable_then_enable demo_env demo_state 7 "/disable 1 2"
           "/enable 1   2" 1 "team@group.calendar.example" eq_refl eq_refl).
  - by vm_compute.
  - by vm_compute.
Defined.

(** ** Clearing, authorizing, confirming twice *)

Section Lifecycle.
Import JsString JsStringFacts.

Local Arguments String.append !_ _ / : simpl nomatch.

Variable env : Env.

Lemma on_message_clear (st : State) (chatId : Z) (text : string) :
  startsWith text "/clear" = true →
  on_message env st chatId text = Return (on_clear st chatId).
Proof.
  intros Hp. destruct (prefix_split _ _ Hp) as [rest ->].
  unfold on_message, startsWith. cbv [String.append].
  rewrite !prefix_cons. simpl. by destruct rest.
Qed.

Lemma toString_inj (n m : number) : toString n = toString m → n = m.
Proof.
  destruct n as [|x], m as [|y]; simpl; [done| | |].
  - destruct y as [|p|p]; [done| |done]. intros H.
    pose proof (pretty_N_go_head (N.pos p) "" ltac:(lia)) as (d & r & Hd & Hh).
    unfold pretty, pretty_Z, pretty, pretty_positive, pretty, pretty_N in H.
    simpl in H. rewrite Hh in H. injection H as H _.
    assert (d = 1 ∨ d = 2 ∨ d = 3 ∨ d = 4 ∨ d = 5 ∨ d = 6 ∨ d = 7
            ∨ d = 8 ∨ d = 9)%N as Hcases by lia.
    repeat destruct Hcases as [->|Hcases]; try discriminate H.
    subst. discriminate H.
  - destruct x as [|p|p]; [done| |done]. intros H.
    pose proof (pretty_N_go_head (N.pos p) "" ltac:(lia)) as (d & r & Hd & Hh).
    unfold pretty, pretty_Z, pretty, pretty_positive, pretty, pretty_N in H.
    simpl in H. rewrite Hh in H. injection H as H _.
    assert (d = 1 ∨ d = 2 ∨ d = 3 ∨ d = 4 ∨ d = 5 ∨ d = 6 ∨ d = 7
            ∨ d = 8 ∨ d = 9)%N as Hcases by lia.
    repeat destruct Hcases as [->|Hcases]; try discriminate H.
    subst. discriminate H.
  - intros H. f_equal. by apply (inj pretty).
Qed.

(** No account anywhere in the chat: every candidate is answered with the
    notice that no account is authenticated, and nothing is inserted. *)
Lemma add_all_no_account (st : State) (chatId : Z) (evs : list CalendarEvent) :
  oauthAccounts st !! Num chatId = None →
  attempts (add_all env st chatId evs) = []
  ∧ notices (add_all env st chatId evs)
    = replicate (List.length evs)
        "No authenticated Google account found. Use /auth to authenticate.".
Proof.
  intros Hnone. unfold add_all.
  induction evs as [|ev evs [IHa IHn]]; [done|].
  rewrite fmap_cons. simpl concat.
  assert (Hone : addEventToCalendar env st chatId ev
                 = [sendMessage (Num chatId)
                      "No authenticated Google account found. Use /auth to authenticate."
                      NoKeyboard]).
  { unfold addEventToCalendar, target_account. rewrite Hnone. simpl.
    by destruct (truthy_number _). }
  rewrite Hone. simpl. unfold attempts, notices in *. simpl.
  by rewrite IHa, IHn.
Qed.

(** X11.  [/clear] deletes the accounts and the disabled sets of the chat, and of
    no other chat, and writes a cache that has no property for the chat;
    it leaves the pending proposal in place.  A Confirm button pressed
    afterwards inserts nothing: each candidate its loop reaches is answered
    with the notice that no account is authenticated; the proposal is then
    dropped, with the closing message, when the loop runs to its end, and
    it stays, without closing message, when the loop raises. *)
Theorem clear_forgets_the_registry (st : State) (chatId : Z) (text : string) :
  startsWith text "/clear" = true →
  ∃ st',
    on_message env st chatId text
    = Return (st',
              [writeAuthCache (saveAuthCache st');
               say chatId
                 "All authenticated accounts have been cleared. Use /auth to authenticate again."])
    ∧ oauthAccounts st' = delete (Num chatId) (oauthAccounts st)
    ∧ disabledCalendars st' = delete (Num chatId) (disabledCalendars st)
    ∧ pendingEvents st' = pendingEvents st
    ∧ pendingOAuth st' = pendingOAuth st
    ∧ (∀ p, p ∈ saveAuthCache st' → p.1 ≠ toString (Num chatId))
    ∧ (∀ pending id,
         pendingEvents st !! chatId = Some pending →
         let r := on_callback_query env st' id (Some "confirm") (Some chatId) in
         attempts r.2 = []
         ∧ notices r.2
           = replicate (List.length (candidates (events pending)))
               "No authenticated Google account found. Use /auth to authenticate."
             ++ (if iterable (events pending)
                 then ["Events confirmed and added to your calendar."]
                 else [])
         ∧ pendingEvents r.1 !! chatId
           = if iterable (events pending) then None else Some pending).
Proof.
  intros Hp. rewrite on_message_clear by done. unfold on_clear.
  eexists. split; [done|]. split_and!; try done.
  - intros [key cd] Hin Hkey. unfold saveAuthCache in Hin. simpl in *.
    apply list_elem_of_fmap in Hin as ([c accs] & [= Hk _] & Hin).
    apply elem_of_map_to_list in Hin. simpl in *.
    rewrite Hk in Hkey. apply (toString_inj c (Num chatId)) in Hkey. subst c.
    by rewrite lookup_delete_eq in Hin.
  - intros pending id Hpending. cbv zeta.
    rewrite (confirm_action env _ chatId id pending) by done.
    destruct (add_all_no_account
                {| pendingEvents := pendingEvents st;
                   oauthAccounts := delete (Num chatId) (oauthAccounts st);
                   pendingOAuth := pendingOAuth st;
                   disabledCalendars :=
                     delete (Num chatId) (disabledCalendars st) |}
                chatId (candidates (events pending))) as [Ha Hn].
    { simpl. apply lookup_delete_eq. }
    destruct (iterable (events pending)); simpl;
      unfold attempts, notices in *; rewrite !omap_app, Ha, Hn; simpl.
    + split_and!; [done|done|]. apply lookup_delete_eq.
    + by split_and!.
Qed.

(** X12.  The Confirm button works once on a proposal its loop gets through:
    a second press inserts nothing, changes nothing and reports that
    nothing is pending.  On a proposal on which the loop raises (a plain
    object, or an array with a [null]) the button never gets rid of the
    proposal: the press leaves the state as it was and ends in the raise,
    and every further press makes the inserts of the candidates before the
    [null] again and raises again. *)
Theorem confirm_button_once (st : State) (chatId : Z) (id id' : string)
    (pending : PendingEvents) (env' : Env) :
  pendingEvents st !! chatId = Some pending →
  let r := on_callback_query env st id (Some "confirm") (Some chatId) in
  (iterable (events pending) = true →
   on_callback_query env' r.1 id' (Some "confirm") (Some chatId)
   = (r.1, [say chatId "No pending events to confirm."]))
  ∧ (iterable (events pending) = false →
     r.1 = st
     ∧ last r.2 = Some unhandledRejection
     ∧ on_callback_query env' r.1 id' (Some "confirm") (Some chatId)
       = (st, add_all env' st chatId (candidates (events pending))
              ++ [unhandledRejection])
     ∧ attempts
         (on_callback_query env' r.1 id' (Some "confirm") (Some chatId)).2
       = omap (insert_attempt env' st chatId) (candidates (events pending))).
Proof.
  intros Hpending r.
  pose proof (confirm_action env st chatId id pending Hpending) as Hr.
  fold r in Hr. split; intros Hit; rewrite Hit in Hr; rewrite Hr; cbn [fst snd].
  - unfold on_callback_query. simpl. by rewrite lookup_delete_eq.
  - split_and!; [done|by rewrite last_snoc| |].
    + rewrite (confirm_action env' st chatId id' pending Hpending).
      by rewrite Hit.
    + by apply confirm_action_attempts.
Qed.

End Lifecycle.

Lemma clear_forgets_the_registry_witness :
  ∃ st',
    on_message demo_env demo_state 7 "/clear"
    = Return (st',
              [writeAuthCache (saveAuthCache st');
               say 7
                 "All authenticated accounts have been cleared. Use /auth to authenticate again."])
    ∧ oauthAccounts st' = delete (Num 7) (oauthAccounts demo_state)
    ∧ disabledCalendars st' = delete (Num 7) (disabledCalendars demo_state)
    ∧ pendingEvents st' = pendingEvents demo_state
    ∧ pendingOAuth st' = pendingOAuth demo_state
    ∧ (∀ p, p ∈ saveAuthCache st' → p.1 ≠ toString (Num 7))
    ∧ (∀ pending id,
         pendingEvents demo_state !! 7 = Some pending →
         let r := on_callback_query demo_env st' id (Some "confirm") (Some 7) in
         attempts r.2 = []
         ∧ notices r.2
           = replicate (List.length (candidates (events pending)))
               "No authenticated Google account found. Use /auth to authenticate."
             ++ (if iterable (events pending)
                 then ["Events confirmed and added to your calendar."]
                 else [])
         ∧ pendingEvents r.1 !! 7
           = if iterable (events pending) then None else Some pending).
Proof.
  apply (clear_forgets_the_registry demo_env demo_state 7 "/clear").
  reflexivity.
Defined.

Lemma confirm_button_once_witness :
  (let r := on_callback_query demo_env demo_state "q1" (Some "confirm")
              (Some 7) in
   on_callback_query demo_env_ok r.1 "q2" (Some "confirm") (Some 7)
   = (r.1, [say 7 "No pending events to confirm."]))
  ∧ (let r := on_callback_query demo_env demo_object_state "q1"
                (Some "confirm") (Some 7) in
     r.1 = demo_object_state ∧ last r.2 = Some unhandledRejection).
Proof.
  split.
  - apply (proj1 (confirm_button_once demo_env demo_state 7 "q1" "q2"
                    demo_session demo_env_ok eq_refl)).
    reflexivity.
  - destruct (proj2 (confirm_button_once demo_env demo_object_state 7 "q1"
                       "q2" demo_object_session demo_env_ok eq_refl)
                eq_refl) as (H1 & H2 & _).
    exact (conj H1 H2).
Defined.

(** ** Authorization *)

Section Authorization.
Import JsString JsStringFacts.

Local Arguments String.append !_ _ / : simpl nomatch.

Lemma rev_app_append (cur t : string) :
  String.rev_app cur t = String.rev cur +:+ t.
Proof.
  revert t. induction cur as [|a cur IH]; intros t; [done|].
  unfold String.rev. simpl. rewrite (IH (String a t)), (IH (String a "")).
  by rewrite app_assoc.
Qed.

Lemma split_colon_go_none (cur s : string) :
  ¬ occurs ":" s → split_colon_go cur s = [String.rev cur +:+ s].
Proof.
  revert cur. induction s as [|a s IH]; intros cur Hno; simpl.
  - by rewrite app_nil_r.
  - simpl in Hno. rewrite eqb_false by tauto. rewrite IH by tauto.
    unfold String.rev. simpl. rewrite (rev_app_append cur (String a "")).
    by rewrite app_assoc.
Qed.

Lemma split_colon_go_head (cur s rest : string) :
  ¬ occurs ":" s →
  split_colon_go cur (s +:+ String ":" rest)
  = (String.rev cur +:+ s) :: split_colon_go "" rest.
Proof.
  revert cur. induction s as [|a s IH]; intros cur Hno; simpl.
  - by rewrite app_nil_r.
  - simpl in Hno. rewrite eqb_false by tauto. rewrite IH by tauto.
    unfold String.rev. simpl. rewrite (rev_app_append cur (String a "")).
    by rewrite app_assoc.
Qed.

Lemma split_colon_go_cons (cur s : string) :
  ∃ x xs, split_colon_go cur s = x :: xs.
Proof.
  revert cur. induction s as [|a s IH]; intros cur; simpl; [by eauto|].
  destruct (Ascii.eqb a ":"); by eauto.
Qed.

Lemma pretty_N_char_not_colon (d : N) : pretty_N_char d ≠ ":"%char.
Proof. unfold pretty_N_char. by repeat case_match. Qed.

Lemma pretty_N_go_no_colon (x : N) (s : string) :
  ¬ occurs ":" s → ¬ occurs ":" (pretty_N_go x s).
Proof.
  revert s. induction (N.lt_wf_0 x) as [x _ IH]; intros s Hs.
  destruct (decide (x = 0)%N) as [->|Hx]; [done|].
  rewrite pretty_N_go_step by lia. apply IH; [apply N.div_lt; lia|].
  simpl. intros [Hc|Hc]; [by apply pretty_N_char_not_colon in Hc|done].
Qed.

Lemma toString_no_colon (z : Z) : ¬ occurs ":" (toString (Num z)).
Proof.
  destruct z as [|p|p].
  - simpl. intros [|[]]. done.
  - apply (pretty_N_go_no_colon (N.pos p) ""). simpl. tauto.
  - change (toString (Num (Z.neg p)))
      with (String "-" (pretty_N_go (N.pos p) "")).
    simpl. intros [|Hc]; [done|]. revert Hc.
    apply (pretty_N_go_no_colon (N.pos p) ""). simpl. tauto.
Qed.

(** The state token that [/auth] makes for a chat leads the callback back
    to that chat. *)
Lemma state_token_chat (chatId : Z) (uniqueId : string) :
  ∃ part1 parts,
    split_colon (toString (Num chatId) +:+ ":" +:+ uniqueId)
    = toString (Num chatId) :: part1 :: parts
    ∧ parseInt (toString (Num chatId)) 10 = Num chatId.
Proof.
  unfold split_colon.
  change (toString (Num chatId) +:+ ":" +:+ uniqueId)
    with (toString (Num chatId) +:+ String ":" uniqueId).
  rewrite split_colon_go_head by apply toString_no_colon.
  destruct (split_colon_go_cons "" uniqueId) as (x & xs & ->).
  exists x, xs. split; [done|]. apply parseInt_toString. by right.
Qed.

Variable env : Env.

Lemma auth_callback (st : State) (chatId : Z) (tokens : Credentials)
    (cals : list CalendarEntry) (mail : option string) :
  let state :=
    toString (Num chatId) +:+ ":" +:+ toString (Num (Date_now env)) in
  let existing := default [] (oauthAccounts st !! Num chatId) in
  let new :=
    {| accountId := Z.of_nat (List.length existing) + 1;
       email := Some (or_string mail "Unknown Email");
       oauth2Client := {| credentials := tokens |};
       calendars := cals |} in
  let r := on_oauth2callback (on_auth env st chatId).1 state
             (Authorized tokens cals mail) in
  oauthAccounts r.1 = <[Num chatId := existing ++ [new]]> (oauthAccounts st)
  ∧ disabledCalendars r.1 = disabledCalendars st
  ∧ pendingEvents r.1 = pendingEvents st
  ∧ pendingOAuth r.1 !! state = None
  ∧ r.2 = [writeAuthCache (saveAuthCache r.1); resSend SuccessHtml].
Proof.
  intros state existing new r. subst r. unfold on_oauth2callback.
  destruct (state_token_chat chatId (toString (Num (Date_now env))))
    as (part1 & parts & Hsplit & Hparse).
  fold state in Hsplit. rewrite Hsplit, Hparse.
  unfold on_auth. simpl. fold state. rewrite lookup_insert_eq. simpl.
  split_and!; try done. apply lookup_delete_eq.
Qed.

(** X13.  [/auth] in a chat, then the authorization callback with the state token
    [/auth] made: the account lands in that chat, at the end of its list,
    numbered one past the number of accounts the chat had, with the e-mail
    address (["Unknown Email"] without one), the roster and the tokens of
    the callback; the disabled sets and the sessions are as they were; the
    cache is written once; the token is used up, so that a second callback
    with it is turned away and changes nothing. *)
Theorem auth_then_callback_registers (st : State) (chatId : Z)
    (tokens : Credentials) (cals : list CalendarEntry) (mail : option string) :
  let state :=
    toString (Num chatId) +:+ ":" +:+ toString (Num (Date_now env)) in
  let existing := default [] (oauthAccounts st !! Num chatId) in
  let new :=
    {| accountId := Z.of_nat (List.length existing) + 1;
       email := Some (or_string mail "Unknown Email");
       oauth2Client := {| credentials := tokens |};
       calendars := cals |} in
  let r := on_oauth2callback (on_auth env st chatId).1 state
             (Authorized tokens cals mail) in
  oauthAccounts r.1 = <[Num chatId := existing ++ [new]]> (oauthAccounts st)
  ∧ disabledCalendars r.1 = disabledCalendars st
  ∧ pendingEvents r.1 = pendingEvents st
  ∧ r.2 = [writeAuthCache (saveAuthCache r.1); resSend SuccessHtml]
  ∧ (∀ outcome,
       on_oauth2callback r.1 state outcome
       = (r.1, [resSend OAuthClientNotFound])).
Proof.
  intros state existing new r.
  destruct (auth_callback st chatId tokens cals mail)
    as (Hacc & Hdis & Hpend & Hgone & Heff).
  fold state existing new r in Hacc, Hdis, Hpend, Hgone, Heff.
  split_and!; try done.
  intros outcome. unfold on_oauth2callback at 1.
  destruct (state_token_chat chatId (toString (Num (Date_now env))))
    as (part1 & parts & Hsplit & _).
  fold state in Hsplit. by rewrite Hsplit, Hgone.
Qed.

(** X14.  After [/clear] the numbering starts again: the next account authorized
    in the chat is its only account and has account id 1. *)
Theorem clear_then_register_restarts (st : State) (chatId : Z)
    (tokens : Credentials) (cals : list CalendarEntry) (mail : option string) :
  let state :=
    toString (Num chatId) +:+ ":" +:+ toString (Num (Date_now env)) in
  let st1 := (on_clear st chatId).1 in
  let r := on_oauth2callback (on_auth env st1 chatId).1 state
             (Authorized tokens cals mail) in
  oauthAccounts r.1 !! Num chatId
  = Some [ {| accountId := 1;
              email := Some (or_string mail "Unknown Email");
              oauth2Client := {| credentials := tokens |};
              calendars := cals |} ].
Proof.
  intros state st1 r.
  destruct (auth_callback st1 chatId tokens cals mail) as (Hacc & _).
  fold state r in Hacc. rewrite Hacc, lookup_insert_eq.
  unfold st1, on_clear. simpl. by rewrite lookup_delete_eq.
Qed.

(** X15.  The callback registers an account only when the state token is
    pending and the token exchange, the roster fetch and the e-mail lookup
    all succeeded.  In every other case the accounts, the disabled sets and
    the sessions stay as they were and no cache is written; with a token
    that is not pending, or a state without colon, nothing changes at
    all. *)
Theorem callback_failures_register_nothing (st : State) (state : string)
    (outcome : OAuthOutcome) :
  let r := on_oauth2callback st state outcome in
  ((∀ tokens cals mail, outcome ≠ Authorized tokens cals mail)
   ∨ pendingOAuth st !! state = None →
   oauthAccounts r.1 = oauthAccounts st
   ∧ disabledCalendars r.1 = disabledCalendars st
   ∧ pendingEvents r.1 = pendingEvents st
   ∧ cache_writes r.2 = [])
  ∧ (pendingOAuth st !! state = None ∨ outcome = TokenExchangeFailed →
     r.1 = st)
  ∧ (¬ occurs ":" state → r = (st, [resSend InvalidStateParameter])).
Proof.
  intros r. subst r. unfold on_oauth2callback. split_and!.
  - intros Hcase.
    destruct (split_colon state) as [|part0 [|part1 parts]]; [done..|].
    destruct (pendingOAuth st !! state) as [pending|] eqn:Hp; [|done].
    destruct Hcase as [Hno|?]; [|done].
    destruct outcome as [| |tokens cals mail]; [done..|].
    by destruct (Hno tokens cals mail).
  - intros Hcase.
    destruct (split_colon state) as [|part0 [|part1 parts]]; [done..|].
    destruct (pendingOAuth st !! state) as [pending|] eqn:Hp; [|done].
    destruct Hcase as [?| ->]; done.
  - intros Hno. unfold split_colon. by rewrite split_colon_go_none.
Qed.

End Authorization.

Lemma callback_failures_register_nothing_witness :
  (on_oauth2callback (on_auth demo_env demo_state 7).1 "7:1739960000000"
     (FetchFailed "token-x")).1
  ≠ (on_auth demo_env demo_state 7).1
  ∧ oauthAccounts
      (on_oauth2callback (on_auth demo_env demo_state 7).1 "7:1739960000000"
         (FetchFailed "token-x")).1
    = oauthAccounts (on_auth demo_env demo_state 7).1.
Proof.
  split.
  - intros H. apply (f_equal (λ s, pendingOAuth s !! "7:1739960000000")) in H.
    vm_compute in H. discriminate H.
  - apply (proj1 (callback_failures_register_nothing
                    (on_auth demo_env demo_state 7).1 "7:1739960000000"
                    (FetchFailed "token-x"))).
    left. intros tokens cals mail. discriminate.
Defined.

(** ** Invariants of the registry *)

Section RegistryInvariants.

Lemma find_account_Some (accounts : list OAuthAccount) (id : Z)
    (account : OAuthAccount) :
  find_account accounts id = Some account →
  account ∈ accounts ∧ accountId account = id.
Proof.
  unfold find_account. intros Hfind. apply List.find_some in Hfind as [Hin Hid].
  split; [by apply list_elem_of_In|]. by apply Z.eqb_eq.
Qed.

Lemma keys_of_default (st : State) (chatId : Z) (a : number) (X : gset string) :
  disabled_accounts_exist st →
  default ∅ (disabledCalendars st !! Num chatId) !! a = Some X →
  ∃ accounts account,
    oauthAccounts st !! Num chatId = Some accounts
    ∧ account ∈ accounts ∧ a = Num (accountId account).
Proof.
  intros Hinv. destruct (disabledCalendars st !! Num chatId) as [d|] eqn:Hd;
    simpl; [by apply Hinv|by rewrite lookup_empty].
Qed.

Lemma on_disable_keeps (st st' : State) (chatId : Z) (text : string)
    (effects : list Effect) :
  on_disable st chatId text = Return (st', effects) →
  disabled_accounts_exist st → disabled_accounts_exist st'.
Proof.
  unfold on_disable. intros Hrun Hinv.
  destruct (JsString.length _ =? 0); [by simplify_eq|].
  destruct (command_parts _) as [|part0 [|part1 parts]]; [by simplify_eq..|].
  destruct (parseInt part0 0) as [|a]; [by simplify_eq|].
  destruct (resolve_strict_cases st chatId a part1) as (r & Hres & _ & Hok).
  rewrite Hres in Hrun. destruct (success r) eqn:Hs; simpl in Hrun;
    [|by simplify_eq].
  destruct (Hok eq_refl) as (accounts & account & Hacc & Hfind & _).
  apply find_account_Some in Hfind as [Hin Hid].
  injection Hrun as <- _. intros c d a' X. simpl.
  destruct (decide (Num chatId = c)) as [<-|Hne].
  - rewrite lookup_insert_eq. intros [= <-]. unfold disable_in.
    destruct (decide (Num a = a')) as [<-|Hne'].
    + intros _. exists accounts, account. by rewrite Hid.
    + rewrite lookup_insert_ne by done. by apply keys_of_default.
  - rewrite lookup_insert_ne by done. apply Hinv.
Qed.

Lemma on_enable_keeps (st st' : State) (chatId : Z) (text : string)
    (effects : list Effect) :
  on_enable st chatId text = Return (st', effects) →
  disabled_accounts_exist st → disabled_accounts_exist st'.
Proof.
  unfold on_enable. intros Hrun Hinv.
  destruct (JsString.length _ =? 0); [by simplify_eq|].
  destruct (command_parts _) as [|part0 [|part1 parts]]; [by simplify_eq..|].
  destruct (parseInt part0 0) as [|a]; [by simplify_eq|].
  destruct (resolveCalendarId st chatId a part1 true) as [r|]; [|done].
  destruct (success r) eqn:Hs; simpl in Hrun; [|by simplify_eq].
  injection Hrun as <- _. intros c d a' X. simpl.
  destruct (decide (Num chatId = c)) as [<-|Hne].
  2: { rewrite lookup_insert_ne by done. apply Hinv. }
  rewrite lookup_insert_eq. intros [= <-].
  destruct (default ∅ (disabledCalendars st !! Num chatId) !! Num a)
    as [set|] eqn:Hset; [|by apply keys_of_default].
  destruct (bool_decide _); [|by apply keys_of_default].
  destruct (decide (Num a = a')) as [<-|Hne'].
  - intros _. by apply (keys_of_default st chatId (Num a) set).
  - rewrite lookup_insert_ne by done. by apply keys_of_default.
Qed.

Lemma on_message_keeps (env : Env) (st st' : State) (chatId : Z)
    (text : string) (effects : list Effect) :
  on_message env st chatId text = Return (st', effects) →
  disabled_accounts_exist st → disabled_accounts_exist st'.
Proof.
  unfold on_message. intros Hrun Hinv.
  repeat case_match; simplify_eq;
    eauto using on_disable_keeps, on_enable_keeps.
  all: unfold on_auth, on_confirm, on_edit, on_clear, on_calendars,
         on_description in *;
       repeat case_match; simplify_eq; try done.
  intros c d a X. simpl.
  destruct (decide (Num chatId = c)) as [<-|Hne].
  - by rewrite lookup_delete_eq.
  - rewrite !lookup_delete_ne by done. apply Hinv.
Qed.

Lemma step_keeps (env : Env) (st : State) (i : Input) :
  disabled_accounts_exist st → disabled_accounts_exist (step env st i).1.
Proof.
  intros Hinv. destruct i as [chatId text|id data message|state outcome];
    simpl.
  - destruct (on_message env st chatId text) as [[st' effects]|] eqn:Hrun;
      simpl; [|done]. by eapply on_message_keeps.
  - unfold on_callback_query. by repeat case_match.
  - unfold on_oauth2callback. repeat case_match; try done.
    intros c d a X. simpl. intros Hd Ha.
    destruct (Hinv c d a X Hd Ha) as (accounts & account & Hacc & Hin & ->).
    destruct (decide (parseInt s 10 = c)) as [<-|Hne].
    + rewrite lookup_insert_eq, Hacc. simpl.
      eexists _, account. split_and!; [done| |done].
      apply elem_of_app. by left.
    + rewrite lookup_insert_ne by done. by exists accounts, account.
Qed.

Lemma reachable_keeps (st : State) :
  reachable st → disabled_accounts_exist st.
Proof.
  induction 1 as [|env st i _ IH|st data _ IH Hsame].
  - intros c d a X Hd. simpl in Hd. by rewrite lookup_empty in Hd.
  - by apply step_keeps.
  - intros c d a X. destruct (load_saved st data Hsame) as (-> & -> & _).
    destruct (oauthAccounts st !! c) as [accounts|] eqn:Hacc; [|done].
    simpl. intros [= <-].
    destruct (disabledCalendars st !! c) as [d|] eqn:Hd; simpl;
      [|by rewrite lookup_empty].
    intros Ha. destruct (IH c d a X Hd Ha) as (accs & account & ? & ? & ?).
    exists accs, account. split_and!; [congruence|done..].
Qed.

Lemma find_numbered (accounts : list OAuthAccount) (k id : Z) :
  (∀ i account, accounts !! i = Some account →
                accountId account = k + Z.of_nat i + 1) →
  find_account accounts id
  = if decide (k + 1 ≤ id ≤ k + Z.of_nat (List.length accounts))
    then accounts !! Z.to_nat (id - k - 1)
    else None.
Proof.
  revert k. induction accounts as [|a accounts IH]; intros k Hnum.
  - simpl. by case_decide; [lia|].
  - unfold find_account in *. simpl List.find.
    pose proof (Hnum 0%nat a eq_refl) as Ha.
    rewrite (IH (k + 1)).
    2: { intros i account Hi. rewrite (Hnum (S i) account Hi). lia. }
    simpl List.length.
    destruct (Z.eqb_spec (accountId a) id) as [E|E].
    + case_decide; [|lia]. by replace (Z.to_nat (id - k - 1)) with 0%nat by lia.
    + repeat case_decide; try lia; [|done].
      replace (Z.to_nat (id - k - 1)) with (S (Z.to_nat (id - (k + 1) - 1)))
        by lia. done.
Qed.

End RegistryInvariants.

(** X16.  In every state the process can reach, each disabled set is filed under
    the account id of an account that the same conversation has. *)
Theorem disabled_sets_belong_to_accounts (st : State) :
  reachable st →
  ∀ c d a X,
    disabledCalendars st !! c = Some d → d !! a = Some X →
    ∃ accounts account,
      oauthAccounts st !! c = Some accounts
      ∧ account ∈ accounts ∧ a = Num (accountId account).
Proof. apply reachable_keeps. Qed.

(** X17.  In every state the process can reach, looking an account up by its
    account id is looking at that position of the conversation's list:
    the ids are unique, and an id outside [1 .. number of accounts] names
    no account. *)
Theorem account_id_is_position (st : State) :
  reachable st →
  ∀ c accounts id,
    oauthAccounts st !! c = Some accounts →
    find_account accounts id = array_get accounts (id - 1).
Proof.
  intros Hreach c accounts id Hc.
  rewrite (find_numbered accounts 0 id).
  2: { intros i account Hi.
       rewrite (reachable_numbered st Hreach c accounts Hc i account Hi). lia. }
  unfold array_get. case_decide.
  - destruct (Z.ltb_spec (id - 1) 0); [lia|]. f_equal. lia.
  - destruct (Z.ltb_spec (id - 1) 0); [done|].
    symmetry. apply lookup_ge_None_2. lia.
Qed.

Lemma disabled_sets_belong_to_accounts_witness :
  ∃ accounts account,
    oauthAccounts
      (run demo_env empty_state (demo_inputs ++ [Message 7 "/disable 2 work"]))
    !! Num 7 = Some accounts
    ∧ account ∈ accounts ∧ Num 2 = Num (accountId account).
Proof.
  apply (disabled_sets_belong_to_accounts
           (run demo_env empty_state (demo_inputs ++ [Message 7 "/disable 2 work"]))
           (reachable_run _ _ _ reachable_empty)
           (Num 7) {[ Num 2 := {[ "work" ]} ]} (Num 2) {[ "work" ]}).
  - by vm_compute.
  - by vm_compute.
Defined.

Lemma account_id_is_position_witness :
  find_account [demo_account; demo_second] 2
  = array_get [demo_account; demo_second] (2 - 1).
Proof.
  apply (account_id_is_position (run demo_env empty_state demo_inputs)
           (reachable_run _ _ _ reachable_empty) (Num 7)).
  by vm_compute.
Defined.

(** ** What a restart keeps *)

(** X18.  Proposals and pending authorizations are not part of the record: after
    a restart from the record a state wrote, no chat has a proposal, so
    the Confirm button reports that nothing is pending, and no state token
    is pending, so an authorization begun before the restart is turned
    away and registers nothing. *)
Theorem restart_drops_sessions (env : Env) (st : State) (data : CacheData) :
  same_record data (saveAuthCache st) →
  let st' := loadAuthCache empty_state (Some data) in
  pendingEvents st' = ∅
  ∧ pendingOAuth st' = ∅
  ∧ (∀ chatId id,
       on_callback_query env st' id (Some "confirm") (Some chatId)
       = (st', [say chatId "No pending events to confirm."]))
  ∧ (∀ state outcome,
       (on_oauth2callback st' state outcome).1 = st'
       ∧ cache_writes (on_oauth2callback st' state outcome).2 = []).
Proof.
  intros Hsame st'.
  destruct (load_saved st data Hsame) as (_ & _ & Hpe & Hpo).
  fold st' in Hpe, Hpo. split_and!; [done..| |].
  - intros chatId id. unfold on_callback_query. simpl.
    by rewrite Hpe, lookup_empty.
  - intros state outcome. unfold on_oauth2callback.
    destruct (split_colon state) as [|part0 [|part1 parts]]; [done..|].
    by rewrite Hpo, lookup_empty.
Qed.

Lemma restart_drops_sessions_witness :
  let st' := loadAuthCache empty_state (Some (saveAuthCache demo_state)) in
  pendingEvents demo_state !! 7 = Some demo_session
  ∧ on_callback_query demo_env st' "q1" (Some "confirm") (Some 7)
    = (st', [say 7 "No pending events to confirm."]).
Proof.
  split; [reflexivity|].
  apply (proj1 (proj2 (proj2 (restart_drops_sessions demo_env demo_state
                                (saveAuthCache demo_state)
                                (same_record_refl _))))).
Defined.

(** ** The cache record *)

Section CacheRecord.

(** X19.  The record has one property per conversation with an account list,
    named by the decimal chat id; no two properties share a name; and a
    conversation without account list is not written, whatever disabled
    sets it has. *)
Theorem saved_record_keys (st : State) :
  NoDup (saveAuthCache st).*1
  ∧ (∀ c, is_Some (oauthAccounts st !! c) ↔ toString c ∈ (saveAuthCache st).*1)
  ∧ (∀ c, oauthAccounts st !! c = None → toString c ∉ (saveAuthCache st).*1).
Proof.
  assert (Hkeys : (saveAuthCache st).*1
                  = toString <$> (map_to_list (oauthAccounts st)).*1).
  { unfold saveAuthCache. rewrite <- !list_fmap_compose.
    by apply list_fmap_ext. }
  assert (Hiff : ∀ c, is_Some (oauthAccounts st !! c)
                      ↔ toString c ∈ (saveAuthCache st).*1).
  { intros c. rewrite Hkeys. split.
    - intros [accounts Hc]. apply list_elem_of_fmap. exists c. split; [done|].
      apply list_elem_of_fmap. exists (c, accounts). split; [done|].
      by apply elem_of_map_to_list.
    - intros Hin. apply list_elem_of_fmap in Hin as (c' & Heq & Hin).
      apply toString_inj in Heq. subst c'.
      apply list_elem_of_fmap in Hin as ([c' accounts] & -> & Hin).
      apply elem_of_map_to_list in Hin. by exists accounts. }
  split_and!; [|done|].
  - rewrite Hkeys. apply NoDup_fmap_2.
    + intros x y. apply toString_inj.
    + apply NoDup_fst_map_to_list.
  - intros c Hnone Hin. apply Hiff in Hin as [accounts Hc]. congruence.
Qed.

(** X20.  Loading merges the record into the maps property by property: a
    conversation takes the accounts and the disabled sets of the last
    property whose name [parseInt] reads as its chat id (so ["7"], ["07"]
    and ["7.5"] name the same conversation), an absent account list counts
    as empty, and conversations the record does not name keep what they
    had. *)
Theorem load_last_property_wins (st0 : State) :
  (∀ before key chatData after,
     (∀ p, p ∈ after → parseInt p.1 10 ≠ parseInt key 10) →
     let st' := loadAuthCache st0 (Some (before ++ (key, chatData) :: after)) in
     oauthAccounts st' !! parseInt key 10
     = Some (load_account <$> default [] (cd_accounts chatData))
     ∧ disabledCalendars st' !! parseInt key 10
       = Some (load_disabled (cd_disabledCalendars chatData)))
  ∧ (∀ data c,
       (∀ p, p ∈ data → parseInt p.1 10 ≠ c) →
       oauthAccounts (loadAuthCache st0 (Some data)) !! c
       = oauthAccounts st0 !! c
       ∧ disabledCalendars (loadAuthCache st0 (Some data)) !! c
         = disabledCalendars st0 !! c)
  ∧ parseInt "07" 10 = parseInt "7" 10
  ∧ parseInt "7.5" 10 = parseInt "7" 10.
Proof.
  split_and!; [| |done..].
  - intros before key chatData after Hafter st'. subst st'.
    unfold loadAuthCache.
    rewrite load_chat_accounts, load_chat_disabled, !fold_left_app. simpl.
    rewrite (fold_left_insert_other entry_accounts),
      (fold_left_insert_other entry_disabled) by done.
    by rewrite !lookup_insert_eq.
  - intros data c Hdata. unfold loadAuthCache.
    rewrite load_chat_accounts, load_chat_disabled.
    by rewrite (fold_left_insert_other entry_accounts),
      (fold_left_insert_other entry_disabled) by done.
Qed.

(** X21.  Rendering a number and reading it back, for the numbers on which
    the model's [String] and [parseInt] are the language's, the safe
    integers and [NaN]: [parseInt(String(n))] is [n], with radix 10 and
    with no radix, and two such numbers render alike only when they are
    equal.  So chat ids and account ids survive as property names. *)
Theorem number_rendering_round_trip :
  (∀ n, isSafeInteger n = true ∨ n = NaN →
        parseInt (toString n) 0 = n ∧ parseInt (toString n) 10 = n)
  ∧ (∀ n m, isSafeInteger n = true ∨ n = NaN →
            isSafeInteger m = true ∨ m = NaN →
            toString n = toString m → n = m).
Proof.
  split.
  - intros n _. split; apply parseInt_toString; [by left|by right].
  - intros n m _ _. apply toString_inj.
Qed.

End CacheRecord.

Lemma load_last_property_wins_witness :
  let st' := loadAuthCache empty_state
               (Some ([("7", {| cd_accounts := Some [account_data demo_account];
                                cd_disabledCalendars := None |})]
                      ++ ("07", {| cd_accounts := None;
                                   cd_disabledCalendars := None |}) :: [])) in
  oauthAccounts st' !! parseInt "07" 10 = Some (load_account <$> default [] None)
  ∧ disabledCalendars st' !! parseInt "07" 10 = Some (load_disabled None).
Proof.
  apply (proj1 (load_last_property_wins empty_state)
           [("7", {| cd_accounts := Some [account_data demo_account];
                     cd_disabledCalendars := None |})]
           "07" {| cd_accounts := None; cd_disabledCalendars := None |} []).
  intros p Hp. by apply elem_of_nil in Hp.
Defined.

(** ** The edit loop *)

Section EditLoop.
Import JsString JsStringFacts.

Local Arguments String.append !_ _ / : simpl nomatch.

Lemma concat_snoc (sep x : string) (l : list string) :
  l ≠ [] →
  String.concat sep (l ++ [x]) = String.concat sep l +:+ sep +:+ x.
Proof.
  induction l as [|y l IH]; [done|]. intros _.
  destruct l as [|z l]; [done|].
  change (String.concat sep ((y :: z :: l) ++ [x]))
    with (y +:+ sep +:+ String.concat sep ((z :: l) ++ [x])).
  rewrite IH by done.
  change (String.concat sep (y :: z :: l))
    with (y +:+ sep +:+ String.concat sep (z :: l)).
  by rewrite !app_assoc.
Qed.

Lemma concat_nonempty (sep x : string) (l : list string) :
  x ≠ "" → String.concat sep (x :: l) ≠ "".
Proof.
  intros Hx. destruct x as [|a x]; [done|]. by destruct l.
Qed.

Lemma or_string_nonempty (x : string) :
  x ≠ "" → or_string (Some x) "" = x ∧ truthy_string (Some x) = true.
Proof. by destruct x. Qed.

Lemma edited_session_step (pending : PendingEvents) (delta : string)
    (evs : ParsedEvents) (json trace history : string) :
  previousJSONProposal pending = Some trace → trace ≠ "" →
  editHistory pending = Some history →
  edited_session pending delta evs json
  = {| events := evs;
       originalText := originalText pending;
       previousJSONProposal := Some (trace +:+ LF +:+ json);
       editHistory :=
         Some (if String.eqb history "" then delta
               else history +:+ LF +:+ delta) |}.
Proof.
  intros Ht Hne Hh. unfold edited_session. rewrite Ht, Hh.
  destruct trace; [done|]. by destruct history.
Qed.

(** X22.  The session after a description and any number of successful edits,
    every delta and every payload being non-empty as the handler and the
    JSON scan make them: the original text is still the description, the
    candidates are those of the last extraction, the edit history is the
    deltas in order, one per line, and the trace is every payload so far in
    order, one per line. *)
Theorem session_after_edits (text : string) (events0 : ParsedEvents)
    (json0 : string) (edits : list EditStep) :
  json0 ≠ "" →
  Forall (λ e, es_delta e ≠ "" ∧ es_json e ≠ "") edits →
  session_after text events0 json0 edits
  = {| events := default events0 (last (es_events <$> edits));
       originalText := text;
       previousJSONProposal :=
         Some (String.concat LF (json0 :: (es_json <$> edits)));
       editHistory := Some (String.concat LF (es_delta <$> edits)) |}.
Proof.
  intros Hj. unfold session_after.
  induction edits as [|e edits IH] using rev_ind; [done|].
  intros Hall. apply Forall_app in Hall as [Hall He].
  apply Forall_singleton in He as [Hd Hje].
  rewrite fold_left_app. cbn [fold_left]. rewrite IH by done.
  rewrite (edited_session_step _ _ _ _
             (String.concat LF (json0 :: (es_json <$> edits)))
             (String.concat LF (es_delta <$> edits)));
    [|done|by apply concat_nonempty|done].
  rewrite !fmap_app.
  change (es_events <$> [e]) with [es_events e].
  change (es_json <$> [e]) with [es_json e].
  change (es_delta <$> [e]) with [es_delta e].
  rewrite last_snoc. cbn [default originalText].
  f_equal.
  - f_equal.
    change (json0 :: (es_json <$> edits) ++ [es_json e])
      with ((json0 :: (es_json <$> edits)) ++ [es_json e]).
    by rewrite concat_snoc.
  - f_equal. destruct edits as [|e0 edits']; [done|].
    apply Forall_cons in Hall as [[Hd0 _] _].
    rewrite fmap_cons in *.
    destruct (String.eqb_spec
                (String.concat LF (es_delta e0 :: (es_delta <$> edits'))) "")
      as [E|_]; [by apply concat_nonempty in E|].
    change ((es_delta e0 :: (es_delta <$> edits')) ++ [es_delta e])
      with ((es_delta e0 :: (es_delta <$> edits')) ++ [es_delta e]).
    by rewrite concat_snoc.
Qed.

Lemma replace_prefix (pat rest rep : string) :
  replace (pat +:+ rest) pat rep = rep +:+ rest.
Proof.
  assert (Hp : ∀ p r, String.prefix p (p +:+ r) = true).
  { induction p as [|a p IH]; intros r; [by destruct r|].
    change (String a p +:+ r) with (String a (p +:+ r)).
    rewrite prefix_cons. by destruct (ascii_dec a a). }
  assert (Hd : ∀ p r, drop (String.length p) (p +:+ r) = r).
  { induction p as [|a p IH]; intros r; [done|]. simpl. apply IH. }
  assert (Hu : ∀ s, replace s pat rep
                    = if String.prefix pat s
                      then rep +:+ drop (String.length pat) s
                      else match s with
                           | "" => ""
                           | String a s' => String a (replace s' pat rep)
                           end) by (by intros []).
  by rewrite Hu, Hp, Hd.
Qed.

(** X23.  The delta of an [/edit] message is everything after the first five
    characters, trimmed: the command word need not be followed by a space,
    so ["/editor x"] is an edit with delta ["or x"]. *)
Theorem edit_delta (text : string) :
  startsWith text "/edit" = true →
  ∃ rest, text = "/edit" +:+ rest ∧ latest_edit text = trim rest.
Proof.
  intros Hp. destruct (prefix_split _ _ Hp) as [rest ->]. exists rest.
  split; [done|]. unfold latest_edit. by rewrite replace_prefix.
Qed.

(** X24.  Only a description and [/edit] write the session of a chat: every other
    message, the other commands included, leaves it as it was. *)
Theorem only_descriptions_and_edits_write (env : Env) (st st' : State)
    (chatId : Z) (text : string) (effects : list Effect) :
  on_message env st chatId text = Return (st', effects) →
  pendingEvents st' ≠ pendingEvents st →
  startsWith text "/edit" = true ∨ startsWith text "/" = false.
Proof.
  unfold on_message. intros Hrun Hchanged.
  destruct (String.eqb text ""); [by simplify_eq|].
  destruct (startsWith text "/disable") eqn:H1.
  { unfold on_disable in Hrun. repeat case_match; by simplify_eq. }
  destruct (startsWith text "/enable") eqn:H2.
  { unfold on_enable in Hrun. repeat case_match; by simplify_eq. }
  destruct (startsWith text "/start"); [by simplify_eq|].
  destruct (startsWith text "/auth"); [by simplify_eq|].
  destruct (startsWith text "/confirm").
  { unfold on_confirm in Hrun. repeat case_match; by simplify_eq. }
  destruct (startsWith text "/edit"); [by left|].
  destruct (startsWith text "/clear"); [by simplify_eq|].
  destruct (startsWith text "/calendars").
  { unfold on_calendars in Hrun. repeat case_match; by simplify_eq. }
  destruct (startsWith text "/"); [by simplify_eq|by right].
Qed.

End EditLoop.

Lemma session_after_edits_witness :
  session_after "lunch" (array_of []) "[a]"
    [ {| es_delta := "at 1pm"; es_events := array_of [demo_event]; es_json := "[b]" |};
      {| es_delta := "with Bob"; es_events := array_of []; es_json := "[c]" |} ]
  = {| events := array_of [];
       originalText := "lunch";
       previousJSONProposal :=
         Some (String.concat JsString.LF ["[a]"; "[b]"; "[c]"]);
       editHistory := Some (String.concat JsString.LF ["at 1pm"; "with Bob"]) |}.
Proof.
  apply (session_after_edits "lunch" (array_of []) "[a]"
           [ {| es_delta := "at 1pm"; es_events := array_of [demo_event]; es_json := "[b]" |};
             {| es_delta := "with Bob"; es_events := array_of []; es_json := "[c]" |} ]).
  - discriminate.
  - repeat constructor; discriminate.
Defined.

Lemma edit_delta_witness :
  ∃ rest, "/editor x" = "/edit" +:+ rest
          ∧ latest_edit "/editor x" = JsString.trim rest.
Proof. apply (edit_delta "/editor x"). reflexivity. Defined.

Lemma only_descriptions_and_edits_write_witness :
  JsString.startsWith "dinner on friday at 7pm" "/edit" = true
  ∨ JsString.startsWith "dinner on friday at 7pm" "/" = false.
Proof.
  eapply (only_descriptions_and_edits_write demo_env_ok demo_state _ 7
            "dinner on friday at 7pm").
  - reflexivity.
  - intros H. apply (f_equal (λ m, originalText <$> m !! 7)) in H.
    vm_compute in H. discriminate H.
Defined.

(** ** Command words *)

Section Words.
Import JsString JsStringFacts.

Local Arguments String.append !_ _ / : simpl nomatch.

Lemma split_go_nonempty (cur s : string) : split_go cur s ≠ [].
Proof.
  revert cur. induction s as [|a s IH]; intros cur; simpl; [done|].
  by destruct (Ascii.eqb a " ").
Qed.

Lemma concat_cons_more (sep x : string) (l : list string) :
  l ≠ [] → String.concat sep (x :: l) = x +:+ sep +:+ String.concat sep l.
Proof. by destruct l. Qed.

Lemma rev_cons (a : ascii) (cur : string) :
  String.rev (String a cur) = String.rev cur +:+ String a "".
Proof. unfold String.rev at 1. simpl. apply rev_app_append. Qed.

Lemma split_go_concat (cur s : string) :
  String.concat " " (split_go cur s) = String.rev cur +:+ s.
Proof.
  revert cur. induction s as [|a s IH]; intros cur.
  - simpl. by rewrite JsStringFacts.app_nil_r.
  - simpl split_go. destruct (Ascii.eqb_spec a " ") as [->|Hne].
    + rewrite concat_cons_more by apply split_go_nonempty. by rewrite IH.
    + rewrite IH, rev_cons. by rewrite app_assoc.
Qed.

Lemma occurs_rev (c : ascii) (s : string) :
  occurs c (String.rev s) ↔ occurs c s.
Proof.
  induction s as [|a s IH]; [done|].
  rewrite rev_cons, occurs_app, IH. simpl. tauto.
Qed.

Lemma split_go_no_space (cur s : string) :
  ¬ occurs " " cur → Forall (λ x, ¬ occurs " " x) (split_go cur s).
Proof.
  revert cur. induction s as [|a s IH]; intros cur Hcur; simpl.
  - apply Forall_singleton. by rewrite occurs_rev.
  - destruct (Ascii.eqb_spec a " ") as [->|Hne].
    + apply Forall_cons. split; [by rewrite occurs_rev|]. apply IH. simpl. tauto.
    + apply IH. simpl. tauto.
Qed.

(** X25.  The arguments of [/disable] and [/enable] are cut at every single
    space: joining the pieces with a space gives the text back, no piece
    has a space in it, and the words the handlers read are the pieces that
    are not blank, in their order. *)
Theorem command_words (args : string) :
  String.concat " " (split_space args) = args
  ∧ Forall (λ x, ¬ occurs " " x) (split_space args)
  ∧ command_parts args `sublist_of` split_space args
  ∧ Forall (λ x, ¬ occurs " " x ∧ trim x ≠ "") (command_parts args)
  ∧ (∀ x, x ∈ split_space args → trim x ≠ "" → x ∈ command_parts args).
Proof.
  pose proof (split_go_no_space "" args (λ H, H)) as Hpieces.
  split_and!.
  - apply (split_go_concat "" args).
  - done.
  - unfold command_parts. generalize (split_space args).
    induction l as [|x l IH]; simpl; [done|].
    destruct (negb _); by constructor.
  - apply Forall_forall. intros x Hx.
    apply list_elem_of_In, List.filter_In in Hx as [Hin Hkeep].
    split.
    + by apply (proj1 (Forall_forall _ _) Hpieces), list_elem_of_In.
    + apply negb_true_iff in Hkeep. by apply String.eqb_neq.
  - intros x Hx Hblank. apply list_elem_of_In, List.filter_In.
    split; [by apply list_elem_of_In|].
    apply negb_true_iff. by apply String.eqb_neq.
Qed.

End Words.

(** ** The calendar roster and its listings *)

Section Roster.

(** X26.  The roster built from the provider's calendar list keeps the list's
    length and order, so that the 1-based roster indices count the
    provider's items; a missing id becomes the empty string, and no entry
    has an empty summary. *)
Theorem fetchCalendars_roster (items : option (list CalendarListItem)) :
  List.length (fetchCalendars items) = List.length (default [] items)
  ∧ Forall (λ cal, summary cal ≠ "") (fetchCalendars items)
  ∧ ∀ (i : nat) item,
      default [] items !! i = Some item →
      ∃ cal, fetchCalendars items !! i = Some cal
             ∧ cal_id cal = default "" (item_id item)
             ∧ (item_summary item = Some (summary cal)
                ∨ summary cal = "No Title"
                  ∧ or_string (item_summary item) "" = "").
Proof.
  unfold fetchCalendars. split_and!.
  - by rewrite length_fmap.
  - apply Forall_fmap, Forall_forall. intros item _. simpl.
    by destruct (item_summary item) as [[|a r]|].
  - intros i item Hi. eexists. split.
    + rewrite list_lookup_fmap, Hi. reflexivity.
    + simpl. split.
      * by destruct (item_id item) as [[|a r]|].
      * destruct (item_summary item) as [[|a r]|]; simpl; auto.
Qed.

Lemma calendar_line_enabledOnly (st : State) (chatId : Z)
    (account : OAuthAccount) (showDisabled : bool) (i : nat)
    (cal : CalendarEntry) :
  calendar_line st chatId account showDisabled true i cal
  = calendar_line st chatId account false true i cal.
Proof.
  unfold calendar_line.
  destruct (is_disabled st chatId (accountId account) (cal_id cal));
    by destruct showDisabled.
Qed.

Lemma calendar_line_enabled (st : State) (chatId : Z)
    (account : OAuthAccount) (showDisabled enabledOnly : bool) (i : nat)
    (cal : CalendarEntry) :
  is_disabled st chatId (accountId account) (cal_id cal) = false →
  calendar_line st chatId account showDisabled enabledOnly i cal
  = calendar_line st chatId account false false i cal.
Proof.
  unfold calendar_line. intros ->.
  by destruct showDisabled, enabledOnly.
Qed.

Lemma account_block_ext (st : State) (chatId : Z) (sd eo sd' eo' : bool)
    (account : OAuthAccount) :
  (∀ i cal, calendars account !! i = Some cal →
            calendar_line st chatId account sd eo i cal
            = calendar_line st chatId account sd' eo' i cal) →
  account_block st chatId sd eo account
  = account_block st chatId sd' eo' account.
Proof.
  intros Hline. unfold account_block.
  destruct (calendars account) as [|cal cals] eqn:Hcals; [done|].
  by rewrite (imap_ext _ _ _ Hline).
Qed.

Lemma listing_ext (st : State) (chatId : Z) (sd eo sd' eo' : bool)
    (accounts : list OAuthAccount) :
  (∀ account, account ∈ accounts →
              account_block st chatId sd eo account
              = account_block st chatId sd' eo' account) →
  buildAccountsAndCalendarsMessage st accounts chatId sd eo
  = buildAccountsAndCalendarsMessage st accounts chatId sd' eo'.
Proof.
  intros Hblock. unfold buildAccountsAndCalendarsMessage.
  destruct accounts as [|account accounts]; [done|].
  f_equal. apply list_fmap_ext. intros i a Hi.
  apply Hblock. by eapply list_elem_of_lookup_2.
Qed.

(** X27.  The listing that hides disabled calendars never shows the
    [(Disabled)] mark, so the listing in the model prompt is the one
    [/calendars enabled] prints; and for a chat none of whose listed
    calendars is disabled, every listing is the plain one. *)
Theorem listing_flags (st : State) (accounts : list OAuthAccount)
    (chatId : Z) :
  (∀ showDisabled,
     buildAccountsAndCalendarsMessage st accounts chatId showDisabled true
     = buildAccountsAndCalendarsMessage st accounts chatId false true)
  ∧ ((∀ account cal,
        account ∈ accounts → cal ∈ calendars account →
        is_disabled st chatId (accountId account) (cal_id cal) = false) →
     ∀ showDisabled enabledOnly,
       buildAccountsAndCalendarsMessage st accounts chatId
         showDisabled enabledOnly
       = buildAccountsAndCalendarsMessage st accounts chatId false false).
Proof.
  split.
  - intros sd. apply listing_ext. intros account _.
    apply account_block_ext. intros i cal _. apply calendar_line_enabledOnly.
  - intros Hnone sd eo. apply listing_ext. intros account Haccount.
    apply account_block_ext. intros i cal Hcal.
    apply calendar_line_enabled, Hnone; [done|].
    by eapply list_elem_of_lookup_2.
Qed.

End Roster.

(** ** The account an event goes to *)

Section Target.



End Target.

(** ** The draft's [/confirm] *)

Section DraftConfirm.

Variable env : Env.

Lemma draft_addEventToCalendar_attempts (st : State) (chatId : Z)
    (eventData : CalendarEvent) :
  attempts (addEventToCalendar_draft env st chatId eventData)
  = option_list (direct_attempt env st chatId eventData)
  ∧ ∃ notice,
      notices (addEventToCalendar_draft env st chatId eventData) = [notice].
Proof.
  unfold addEventToCalendar_draft, direct_attempt.
  destruct (target_account st chatId eventData) as [account|]; [|by eauto].
  simpl. destruct (events_insert env _ _ _); by eauto.
Qed.

Lemma draft_add_all (st : State) (chatId : Z) (evs : list CalendarEvent) :
  attempts (concat (addEventToCalendar_draft env st chatId <$> evs))
  = omap (direct_attempt env st chatId) evs
  ∧ List.length
      (notices (concat (addEventToCalendar_draft env st chatId <$> evs)))
    = List.length evs.
Proof.
  induction evs as [|ev evs [IHa IHn]]; [done|].
  rewrite fmap_cons. simpl concat.
  destruct (draft_addEventToCalendar_attempts st chatId ev)
    as [Ha [notice Hn]].
  split.
  - rewrite attempts_app, IHa, Ha. simpl.
    by destruct (direct_attempt env st chatId ev).
  - unfold notices in *. rewrite omap_app, length_app, IHn, Hn. done.
Qed.

Lemma omap_step {A B} (f : A → option B) (x : A) (l : list A) :
  omap f (x :: l)
  = match f x with Some y => y :: omap f l | None => omap f l end.
Proof. done. Qed.

Lemma insert_attempt_guard (st : State) (chatId : Z)
    (eventData : CalendarEvent) :
  insert_attempt env st chatId eventData
  = match target_account st chatId eventData with
    | Some account =>
        if bool_decide (or_string (calendar eventData) "primary"
                        ∈ disabled_set st chatId (accountId account))
        then None
        else direct_attempt env st chatId eventData
    | None => None
    end.
Proof.
  unfold insert_attempt, direct_attempt.
  destruct (target_account st chatId eventData); [|done]. simpl.
  by destruct (bool_decide _).
Qed.

Lemma draft_confirm_action (st : State) (chatId : Z)
    (pending : PendingEvents) :
  pendingEvents st !! chatId = Some pending →
  on_confirm_draft env st chatId
  = if iterable (events pending)
    then (set_pendingEvents st (delete chatId (pendingEvents st)),
          concat (addEventToCalendar_draft env st chatId
                  <$> candidates (events pending)))
    else (st, concat (addEventToCalendar_draft env st chatId
                      <$> candidates (events pending))
              ++ [unhandledRejection]).
Proof.
  intros Hpending. unfold on_confirm_draft. rewrite Hpending.
  by rewrite for_of_spec.
Qed.

Lemma draft_confirm_attempts (st : State) (chatId : Z)
    (pending : PendingEvents) :
  pendingEvents st !! chatId = Some pending →
  attempts (on_confirm_draft env st chatId).2
  = omap (direct_attempt env st chatId) (candidates (events pending))
  ∧ List.length (notices (on_confirm_draft env st chatId).2)
    = List.length (candidates (events pending)).
Proof.
  intros Hpending. rewrite (draft_confirm_action st chatId pending Hpending).
  destruct (draft_add_all st chatId (candidates (events pending)))
    as [Ha Hn].
  destruct (iterable (events pending)); simpl; [done|].
  unfold notices in *. rewrite attempts_app, omap_app, length_app, Ha, Hn.
  simpl. split; [apply List.app_nil_r|lia].
Qed.

End DraftConfirm.

(** X29.  In the draft the [/confirm] command itself commits.  On a session
    whose candidates are an array without [null] it makes the insert of
    every candidate that has a target account, in list order and whatever
    the outcome of any insert, sends one notice per candidate and nothing
    after them, and deletes the session.  On a session whose stored
    candidates are a plain object, or an array with a [null] in it, it
    runs the executor on the candidates before the first [null] and then
    raises, and the session is not deleted.  Without a session it changes
    nothing. *)
Theorem draft_confirm_commits (env : Env) (st : State) (chatId : Z) :
  (∀ pending,
     pendingEvents st !! chatId = Some pending →
     (∀ evs,
        events pending = array_of evs →
        on_confirm_draft env st chatId
        = (set_pendingEvents st (delete chatId (pendingEvents st)),
           concat (addEventToCalendar_draft env st chatId <$> evs))
        ∧ (∀ outcome,
             attempts
               (on_confirm_draft (with_events_insert env outcome) st chatId).2
             = omap (direct_attempt env st chatId) evs)
        ∧ List.length (notices (on_confirm_draft env st chatId).2)
          = List.length evs)
     ∧ (events pending = PlainObject →
        on_confirm_draft env st chatId = (st, [unhandledRejection]))
     ∧ (∀ before after,
          events pending = EventArray ((Some <$> before) ++ None :: after) →
          on_confirm_draft env st chatId
          = (st, concat (addEventToCalendar_draft env st chatId <$> before)
                 ++ [unhandledRejection])))
  ∧ (pendingEvents st !! chatId = None →
     on_confirm_draft env st chatId
     = (st, [say chatId
               "No pending events. Send an event description first."])).
Proof.
  split.
  - intros pending Hpending. split_and!.
    + intros evs Hevs.
      rewrite (draft_confirm_action env st chatId pending Hpending).
      destruct (draft_confirm_attempts env st chatId pending Hpending)
        as [_ Hn].
      rewrite (draft_confirm_action env st chatId pending Hpending) in Hn.
      rewrite Hevs, iterable_array, candidates_array in *.
      split_and!; [done| |done].
      intros outcome.
      destruct (draft_confirm_attempts (with_events_insert env outcome)
                  st chatId pending Hpending) as [Ha _].
      by rewrite Hevs, candidates_array in Ha.
    + intros Hobject.
      rewrite (draft_confirm_action env st chatId pending Hpending).
      by rewrite Hobject.
    + intros before after Hnull.
      rewrite (draft_confirm_action env st chatId pending Hpending).
      rewrite Hnull, not_iterable_split. simpl candidates.
      by rewrite before_null_split.
  - intros Hnone. unfold on_confirm_draft. by rewrite Hnone.
Qed.

(** X30.  The Confirm button of the current handlers against the draft's
    [/confirm]: both end in the same state, the button attempts a
    sub-sequence of the draft's inserts, and exactly the draft's inserts
    when no candidate's calendar string is in the disabled set of its
    target account.  The candidates are those the loops reach, which are
    the same for both. *)
Theorem button_refines_draft_confirm (env : Env) (st : State) (chatId : Z)
    (id : string) (pending : PendingEvents) :
  pendingEvents st !! chatId = Some pending →
  let button := on_callback_query env st id (Some "confirm") (Some chatId) in
  let draft := on_confirm_draft env st chatId in
  button.1 = draft.1
  ∧ attempts button.2 `sublist_of` attempts draft.2
  ∧ ((∀ eventData account,
        eventData ∈ candidates (events pending) →
        target_account st chatId eventData = Some account →
        or_string (calendar eventData) "primary"
        ∉ disabled_set st chatId (accountId account)) →
     attempts button.2 = attempts draft.2).
Proof.
  intros Hpending button draft.
  assert (Hstate : button.1 = draft.1).
  { unfold button, draft.
    rewrite (confirm_action env st chatId id pending Hpending),
      (draft_confirm_action env st chatId pending Hpending).
    by destruct (iterable (events pending)). }
  unfold button, draft.
  rewrite (confirm_action_attempts env st chatId id pending Hpending).
  rewrite (proj1 (draft_confirm_attempts env st chatId pending Hpending)).
  split_and!; [done| |].
  - generalize (candidates (events pending)).
    induction l as [|ev l IH]; [done|].
    rewrite !omap_step, insert_attempt_guard.
    destruct (target_account st chatId ev) as [account|] eqn:Ht.
    + destruct (bool_decide _).
      * destruct (direct_attempt env st chatId ev);
          [by apply sublist_cons|done].
      * destruct (direct_attempt env st chatId ev);
          [by apply sublist_skip|done].
    + destruct (direct_attempt env st chatId ev);
        [by apply sublist_cons|done].
  - generalize (candidates (events pending)).
    induction l as [|ev l IH]; [done|].
    intros Hnone.
    rewrite !omap_step, insert_attempt_guard.
    rewrite IH by (intros e a He; apply Hnone; by right).
    destruct (target_account st chatId ev) as [account|] eqn:Ht.
    + rewrite bool_decide_eq_false_2; [done|]. apply (Hnone ev); [by left|done].
    + unfold direct_attempt. by rewrite Ht.
Qed.

(** ** The further properties on the sample data *)

Lemma resolveCalendarId_strict_returns_witness :
  ∃ result accounts account,
    resolveCalendarId demo_state 7 1 "2" true = Return result
    ∧ oauthAccounts demo_state !! Num 7 = Some accounts
    ∧ find_account accounts 1 = Some account.
Proof.
  destruct (resolveCalendarId_strict_returns demo_state 7 1 "2")
    as (result & Hrun & _ & Hok).
  assert (Hsuccess : success result = true).
  { pose proof Hrun as Hrun'. vm_compute in Hrun'.
    injection Hrun' as <-. reflexivity. }
  destruct (Hok Hsuccess) as (accounts & account & Haccounts & Hfind & _).
  exists result, accounts, account. by split_and!.
Defined.

Lemma saved_record_keys_witness :
  toString (Num 7) ∈ (saveAuthCache demo_state).*1.
Proof.
  apply (proj1 (proj1 (proj2 (saved_record_keys demo_state)) (Num 7))).
  eexists. by vm_compute.
Defined.

Lemma number_rendering_round_trip_witness :
  parseInt (toString (Num (-4815162342))) 0 = Num (-4815162342)
  ∧ parseInt (toString (Num (-4815162342))) 10 = Num (-4815162342).
Proof.
  apply (proj1 number_rendering_round_trip (Num (-4815162342))).
  left. reflexivity.
Defined.

Lemma command_words_witness :
  "work" ∈ command_parts "1  work".
Proof.
  apply (proj2 (proj2 (proj2 (proj2 (command_words "1  work"))))).
  - apply (list_elem_of_lookup_2 _ 2%nat). reflexivity.
  - vm_compute. discriminate.
Defined.

Lemma fetchCalendars_roster_witness :
  let item := {| item_id := Some "ada@example.com"; item_summary := None |} in
  ∃ cal, fetchCalendars (Some [item]) !! 0%nat = Some cal
         ∧ cal_id cal = default "" (item_id item)
         ∧ (item_summary item = Some (summary cal)
            ∨ summary cal = "No Title"
              ∧ or_string (item_summary item) "" = "").
Proof.
  intros item.
  apply (proj2 (proj2 (fetchCalendars_roster (Some [item]))) 0%nat item).
  reflexivity.
Defined.

Lemma listing_flags_witness :
  buildAccountsAndCalendarsMessage empty_state [demo_account] 7 true true
  = buildAccountsAndCalendarsMessage empty_state [demo_account] 7 false false.
Proof.
  apply (proj2 (listing_flags empty_state [demo_account] 7)).
  intros account cal _ _. reflexivity.
Defined.


Lemma draft_confirm_commits_witness :
  on_confirm_draft demo_env demo_state 7
  = (set_pendingEvents demo_state (delete 7 (pendingEvents demo_state)),
     concat (addEventToCalendar_draft demo_env demo_state 7 <$> [demo_event]))
  ∧ on_confirm_draft demo_env demo_object_state 7
    = (demo_object_state, [unhandledRejection]).
Proof.
  destruct (proj1 (draft_confirm_commits demo_env demo_state 7)
              demo_session eq_refl) as (H1 & _).
  destruct (proj1 (draft_confirm_commits demo_env demo_object_state 7)
              demo_object_session eq_refl) as (_ & H2 & _).
  exact (conj (proj1 (H1 [demo_event] eq_refl)) (H2 eq_refl)).
Defined.

Lemma button_refines_draft_confirm_witness :
  attempts (on_callback_query demo_env demo_state "q1"
              (Some "confirm") (Some 7)).2
  = attempts (on_confirm_draft demo_env demo_state 7).2.
Proof.
  destruct (button_refines_draft_confirm demo_env demo_state 7 "q1"
              demo_session eq_refl) as (_ & _ & H).
  apply H. intros eventData account Hin Htarget.
  apply list_elem_of_singleton in Hin. subst eventData.
  vm_compute in Htarget. injection Htarget as <-.
  apply (proj1 (bool_decide_eq_false _)). by vm_compute.
Defined.
